(** * SAET sub-pixel shoreline extraction: the geometric core of saet_tools.py

    Shallow embedding of the point extraction, cluster averaging and point
    cleaning functions of [saet_tools.py].  Python floats are read as real
    numbers ([R]); integers that index arrays are [nat] or [Z].  Library
    calls whose code is not part of the repository (contouring, polynomial
    evaluation, triangulation, graph search) are Section variables. *)

From Stdlib Require Import Reals Lra Lia List ZArith Bool Arith.
From Stdlib Require String.
Import ListNotations.

Open Scope R_scope.

(** ** Numeric helpers: the comparisons and math-library functions used *)

Module Num.

Definition Rleb (x y : R) : bool := if Rle_dec x y then true else false.
Definition Rltb (x y : R) : bool := if Rlt_dec x y then true else false.
Definition Reqb (x y : R) : bool := if Req_dec_T x y then true else false.

(** [math.atan2 y x]: the angle of the vector (x, y), in (-PI, PI]. *)
Definition atan2 (y x : R) : R :=
  if Rltb 0 x then atan (y / x)
  else if Rltb x 0 then
         (if Rleb 0 y then atan (y / x) + PI else atan (y / x) - PI)
  else if Rltb 0 y then PI / 2
  else if Rltb y 0 then - (PI / 2)
  else 0.

(** [math.degrees]. *)
Definition degrees (r : R) : R := r * 180 / PI.

End Num.
Import Num.

Definition point : Type := R * R.

(** ** Point cleaning: [removeByAngle] *)

Module Angle.

(** The value of [ang] after the [if ang < 0] correction, for the
    consecutive points [a], [b], [c]. *)
Definition turning_angle (a b c : point) : R :=
  let ang := degrees (atan2 (snd c - snd b) (fst c - fst b) -
                      atan2 (snd a - snd b) (fst a - fst b)) in
  if Rltb ang 0 then ang + 360 else ang.

(** The angle in the specification's words: the direction of the ray from [b] to
    the successor [c] minus the direction of the ray from [b] to the
    predecessor [a], both atan2 directions in degrees. *)
Definition direction (b p : point) : R :=
  degrees (atan2 (snd p - snd b) (fst p - fst b)).

Definition direction_difference (a b c : point) : R :=
  direction b c - direction b a.

(** [ang] is [x] brought into [0, 360) by whole turns. *)
Definition normalized (x ang : R) : Prop :=
  0 <= ang < 360 /\ exists k : Z, ang = x + 360 * IZR k.

(** The [for i in range(0, len(puntos)-2)] loop: [a], [b], [c] are
    [puntos[i]], [puntos[i+1]], [puntos[i+2]]. *)
Fixpoint interior_scan (puntos : list point) (tol : R) : list point :=
  match puntos with
  | a :: rest =>
      match rest with
      | b :: c :: _ =>
          (if Rleb tol (turning_angle a b c) then [b] else [])
            ++ interior_scan rest tol
      | _ => []
      end
  | [] => []
  end.

(** [removeByAngle]; [None] is the IndexError of [puntos[0]] on an empty
    list. *)
Definition removeByAngle (puntos : list point) (tol : R)
  : option (list point) :=
  match puntos with
  | [] => None
  | p0 :: _ =>
      Some (p0 :: interior_scan puntos tol ++ [last puntos p0])
  end.

(** The interior indices whose angle passes the test, written with
    indices as the loop is. *)
Definition kept_indices (puntos : list point) (tol : R) : list nat :=
  filter (fun i => Rleb tol (turning_angle (nth (i - 1) puntos (0, 0))
                                           (nth i puntos (0, 0))
                                           (nth (i + 1) puntos (0, 0))))
         (seq 1 (length puntos - 2)).

(** Points met in this order along a straight line: every step is a
    positive multiple of the direction [u]. *)
Fixpoint straight (u : point) (puntos : list point) : Prop :=
  match puntos with
  | a :: rest =>
      match rest with
      | b :: _ =>
          (exists s, 0 < s /\ fst b - fst a = s * fst u /\
                     snd b - snd a = s * snd u) /\ straight u rest
      | [] => True
      end
  | [] => True
  end.

(** An exact right-angle turn at [b]: the ray to the successor [c] is
    perpendicular to the ray to the predecessor [a]. *)
Definition right_angle_turn (a b c : point) : Prop :=
  a <> b /\ c <> b /\
  (fst a - fst b) * (fst c - fst b) + (snd a - snd b) * (snd c - snd b) = 0.

(** The ray to [c] is the ray to [a] turned a quarter turn
    counterclockwise (up to length). *)
Definition quarter_ccw (a b c : point) : Prop :=
  a <> b /\
  exists t, 0 < t /\ fst c - fst b = - (t * (snd a - snd b)) /\
            snd c - snd b = t * (fst a - fst b).

(** The ray to [c] is the ray to [a] turned a quarter turn clockwise. *)
Definition quarter_cw (a b c : point) : Prop :=
  a <> b /\
  exists t, 0 < t /\ fst c - fst b = t * (snd a - snd b) /\
            snd c - snd b = - (t * (fst a - fst b)).

End Angle.

(** ** Exceptions *)

Inductive exn : Type :=
  IndexError | ZeroDivisionError | ValueError | OverflowError.

Inductive result (A : Type) : Type :=
| Ok (a : A)
| Raise (e : exn).
Arguments Ok {A} a.
Arguments Raise {A} e.

Definition bind {A B} (m : result A) (k : A -> result B) : result B :=
  match m with
  | Ok a => k a
  | Raise e => Raise e
  end.

Notation "x <- m ;; k" := (bind m (fun x => k))
  (at level 61, m at next level, right associativity).

(** ** Arrays *)

Module Np.

(** [int(x)] on a float: truncation towards zero. *)
Definition py_int (x : R) : Z :=
  if Rleb 0 x then Int_part x else (- Int_part (- x))%Z.

(** Position of index [k] in an axis of length [n]: negative indices
    count from the end, anything else outside is an IndexError. *)
Definition index (n : nat) (k : Z) : result nat :=
  if ((0 <=? k) && (k <? Z.of_nat n))%Z then Ok (Z.to_nat k)
  else if ((- Z.of_nat n <=? k) && (k <? 0))%Z
       then Ok (Z.to_nat (Z.of_nat n + k))
  else Raise IndexError.

Definition matrix : Type := list (list R).

(** [m[i, j]] on a two-dimensional array. *)
Definition get2 (m : matrix) (i j : Z) : result R :=
  r <- index (length m) i ;;
  let row := nth r m [] in
  c <- index (length row) j ;;
  Ok (nth c row 0).

Definition sum (l : list R) : R := fold_right Rplus 0 l.

(** [np.average(l)]: the mean; [None] is the nan of an empty input. *)
Definition average (l : list R) : option R :=
  match l with
  | [] => None
  | _ => Some (sum l / INR (length l))
  end.

(** [np.average(a, weights=w)]. *)
Definition average_w (a w : list R) : result R :=
  let scl := sum w in
  if Reqb scl 0 then Raise ZeroDivisionError
  else Ok (sum (map (fun aw => fst aw * snd aw) (combine a w)) / scl).

(** [np.sort]: ascending insertion sort. *)
Fixpoint insert (x : R) (l : list R) : list R :=
  match l with
  | [] => [x]
  | y :: l' => if Rleb x y then x :: l else y :: insert x l'
  end.

Fixpoint sort (l : list R) : list R :=
  match l with
  | [] => []
  | x :: l' => insert x (sort l')
  end.

(** [np.unique]: the sorted distinct values. *)
Fixpoint dedup (l : list R) : list R :=
  match l with
  | x :: l' =>
      match l' with
      | y :: _ => if Reqb x y then dedup l' else x :: dedup l'
      | [] => [x]
      end
  | [] => []
  end.

Definition unique (l : list R) : list R := dedup (sort l).

(** [np.where(a == v)[0][0]]: the first position holding [v]. *)
Fixpoint first_index (v : R) (a : list R) : option nat :=
  match a with
  | [] => None
  | x :: a' => if Reqb x v then Some 0%nat
               else option_map S (first_index v a')
  end.

End Np.

(** ** Weight matrix: [erfcc], [normcdf], [computeWeights] *)

Module Weights.

Definition erfcc (x : R) : R :=
  let z := Rabs x in
  let t := 1 / (1 + 0.5 * z) in
  let r := t * exp (- z * z - 1.26551223 + t * (1.00002368 + t * (0.37409196 +
             t * (0.09678418 + t * (- 0.18628806 + t * (0.27886807 +
             t * (- 1.13520398 + t * (1.48851587 + t * (- 0.82215223 +
             t * 0.17087277))))))))) in
  if Rleb 0 x then r else 2 - r.

Definition normcdf (x mu sigma : R) : R :=
  let t := x - mu in
  let y := 0.5 * erfcc (- t / (sigma * sqrt 2)) in
  if Rltb 1 y then 1 else y.

(** The value stored in [p[i, j]] when the counters are [cont_i], [cont_j]
    and the shape is [(f, c)]. *)
Definition weight_at (f c : nat) (cont_i cont_j : R) : R :=
  let d := sqrt ((cont_i - (INR f + 1) / 2) ^ 2 +
                 (cont_j - (INR c + 1) / 2) ^ 2) in
  normcdf (- d) 0 3 * 2.

(** Inner loop over [j]: [n] cells left in the row, [cont_j] advances. *)
Fixpoint fill_row (f c n : nat) (cont_i cont_j : R) : list R :=
  match n with
  | O => []
  | S n' => weight_at f c cont_i cont_j :: fill_row f c n' cont_i (cont_j + 1)
  end.

(** Outer loop over [i]: [cont_j] restarts at 1 for each row. *)
Fixpoint fill_rows (f c n : nat) (cont_i : R) : Np.matrix :=
  match n with
  | O => []
  | S n' => fill_row f c c cont_i 1 :: fill_rows f c n' (cont_i + 1)
  end.

Definition computeWeights (kernel ppp : nat) : Np.matrix :=
  let f := (kernel * ppp)%nat in
  let c := (kernel * ppp)%nat in
  fill_rows f c f 1.

(** Cell [(i, j)] of a matrix, for in-range natural indices. *)
Definition cell (m : Np.matrix) (i j : nat) : R := nth j (nth i m []) 0.

(** Distance from cell [(i, j)] to the centre of an [n] by [n] matrix. *)
Definition centre_dist (n i j : nat) : R :=
  sqrt ((INR i + 1 - (INR n + 1) / 2) ^ 2 + (INR j + 1 - (INR n + 1) / 2) ^ 2).

(** Horner evaluation of a coefficient list, and its derivative. *)
Fixpoint horner (cs : list R) (t : R) : R :=
  match cs with
  | [] => 0
  | c :: cs' => c + t * horner cs' t
  end.

Fixpoint horner_deriv (cs : list R) (t : R) : R :=
  match cs with
  | [] => 0
  | c :: cs' => horner cs' t + t * horner_deriv cs' t
  end.

(** The polynomial in [t] inside the exponential of [erfcc], constant term
    first. *)
Definition erf_coeffs : list R :=
  [0; 1.00002368; 0.37409196; 0.09678418; (- 0.18628806);
   0.27886807; (- 1.13520398); 1.48851587; (- 0.82215223); 0.17087277].

(** Every entry a lookup can reach is non-negative. *)
Definition nonneg_matrix (mp : Np.matrix) : Prop :=
  forall i j, 0 <= cell mp i j.

End Weights.

(** ** Kernel analysis: [mejor_curva_pendiente3], [escribeCoords],
       [extractPoints] *)

(** One record of the [.d] text file: [rx,ry,peso]. *)
Definition line : Type := R * R * R.

Module Extract.

(** The vertex lies within the [n] by [n] grid of samples spaced [resol]
    over which the contour is traced. *)
Definition on_grid (n : nat) (resol : R) (par : point) : Prop :=
  (0 <= fst par / resol < INR n) /\ (0 <= snd par / resol < INR n).

(** What [int(t / resol)] raises when [resol] is zero: the vertex
    coordinate [t] is a numpy float, so the division gives nan for [t = 0]
    and an infinity otherwise, and [int] refuses both. *)
Definition int_of_zero_division (t : R) : exn :=
  if Reqb t 0 then ValueError else OverflowError.

(** The index of the grid cell holding the coordinate [t]: the whole part
    of [t / resol]. *)
Definition grid_cell (resol t : R) : nat := Z.to_nat (Int_part (t / resol)).

(** [pl_data[f, c]] for the non-negative indices of the scan; a cell
    outside the array is an IndexError. *)
Definition mask_at (pl_data : list (list Z)) (f c : nat) : result Z :=
  match nth_error pl_data f with
  | Some row =>
      match nth_error row c with
      | Some valor => Ok valor
      | None => Raise IndexError
      end
  | None => Raise IndexError
  end.

(** The mask is an array of [rows] by [columns] values, the shape of the
    band. *)
Definition mask_shape (rows columns : nat) (pl_data : list (list Z))
  : Prop :=
  length pl_data = rows /\
  Forall (fun row => length row = columns) pl_data.

Section Extraction.

(** Polynomial coefficient matrices and numpy's [polyval2d], which evaluates
    one at a point. *)
Variable coeffs : Type.
Variable polyval2d : R -> R -> coeffs -> R.

(** The value appended to [pendientes] for the vertex [par].  A zero
    [resol] makes the index computation [int(x/resol)] raise. *)
Definition pendiente (dx dy : coeffs) (mp : Np.matrix) (resol : R)
    (par : point) : result R :=
  let x := fst par in
  let y := snd par in
  let px := Rabs (polyval2d x y dx) in
  let py := Rabs (polyval2d x y dy) in
  let p := sqrt (px ^ 2 + py ^ 2) in
  if Reqb resol 0 then Raise (int_of_zero_division x)
  else
    peso <- Np.get2 mp (Np.py_int (x / resol)) (Np.py_int (y / resol)) ;;
    Ok (p * peso).

(** The [for par in curva] loop. *)
Fixpoint pendientes_of (dx dy : coeffs) (mp : Np.matrix) (resol : R)
    (curva : list point) : result (list R) :=
  match curva with
  | [] => Ok []
  | par :: rest =>
      s <- pendiente dx dy mp resol par ;;
      l <- pendientes_of dx dy mp resol rest ;;
      Ok (s :: l)
  end.

(** The [for i, curva in enumerate(v)] loop, from index [i] on. *)
Fixpoint scan (dx dy : coeffs) (mp : Np.matrix) (resol : R)
    (v : list (list point)) (i : Z) (p_max : R) (candidate : Z) : result Z :=
  match v with
  | [] => Ok candidate
  | curva :: rest =>
      pendientes <- pendientes_of dx dy mp resol curva ;;
      match Np.average pendientes with
      | Some p_med =>
          if Rleb p_max p_med
          then scan dx dy mp resol rest (i + 1)%Z p_med i
          else scan dx dy mp resol rest (i + 1)%Z p_max candidate
      | None => scan dx dy mp resol rest (i + 1)%Z p_max candidate
      end
  end.

Definition mejor_curva_pendiente3 (v : list (list point)) (dx dy : coeffs)
    (mp : Np.matrix) (resol : R) : result Z :=
  scan dx dy mp resol v 0%Z 0 (-1)%Z.

(** The mean score of one branch, as the scan computes it. *)
Definition score (dx dy : coeffs) (mp : Np.matrix) (resol : R)
    (curva : list point) : result (option R) :=
  pendientes <- pendientes_of dx dy mp resol curva ;;
  Ok (Np.average pendientes).

(** The score in the specification's words: at a vertex, the gradient
    magnitude of the fitted surface times the weight-matrix value at the
    vertex's grid cell; for a branch, the mean of its vertices' scores. *)
Definition gradient_magnitude (dx dy : coeffs) (par : point) : R :=
  sqrt (polyval2d (fst par) (snd par) dx ^ 2 +
        polyval2d (fst par) (snd par) dy ^ 2).

Definition vertex_score (dx dy : coeffs) (mp : Np.matrix) (resol : R)
    (par : point) : R :=
  gradient_magnitude dx dy par *
  Weights.cell mp (grid_cell resol (fst par)) (grid_cell resol (snd par)).

Definition mean_score (dx dy : coeffs) (mp : Np.matrix) (resol : R)
    (curva : list point) : R :=
  Np.sum (map (vertex_score dx dy mp resol) curva) / INR (length curva).

(** [escribeCoords]: the records appended to [output_file], and whether the
    loop ended or raised. *)
Fixpoint escribeCoords (x y : list R) (xmin ymax resol_orig resol : R)
    (wm : Np.matrix) (fil col kernel : nat) (output_file : list line)
  : list line * result unit :=
  match x with
  | [] => (output_file, Ok tt)
  | xi :: xs =>
      match y with
      | [] => (output_file, Raise IndexError)
      | yi :: ys =>
          let half := Np.py_int (INR kernel / 2) in
          let rx := xmin + IZR (Z.of_nat col - half) * resol_orig + xi in
          let ry := ymax - IZR (Z.of_nat fil - half) * resol_orig - yi in
          if Reqb resol 0 then (output_file, Raise (int_of_zero_division xi))
          else
            match Np.get2 wm (Np.py_int (xi / resol))
                             (Np.py_int (yi / resol)) with
            | Raise e => (output_file, Raise e)
            | Ok peso =>
                escribeCoords xs ys xmin ymax resol_orig resol wm
                              fil col kernel (output_file ++ [(rx, ry, peso)])
            end
      end
  end.

(** The record written for the vertex [par] when the lookup gave [w]. *)
Definition world_record (xmin ymax resol_orig : R) (fil col kernel : nat)
    (par : point) (w : R) : line :=
  (xmin + (INR col - INR (kernel / 2)) * resol_orig + fst par,
   ymax - (INR fil - INR (kernel / 2)) * resol_orig - snd par,
   w).

(** The record of the specification's formula, in which [kernel_size/2]
    is the real half of the kernel size. *)
Definition spec_record (xmin ymax resol_orig : R) (fil col kernel : nat)
    (par : point) (w : R) : line :=
  (xmin + (INR col - INR kernel / 2) * resol_orig + fst par,
   ymax - (INR fil - INR kernel / 2) * resol_orig - snd par,
   w).

(** The mask marks the pixel as part of the rough pixel line; a pixel
    outside the mask is not marked. *)
Definition white (pl_data : list (list Z)) (f c : nat) : bool :=
  (nth c (nth f pl_data []) 0 =? 255)%Z.

(** The pixel is visited by the double loop of a [rows] by [columns]
    scene. *)
Definition inside (rows columns f c : nat) : Prop :=
  (10 <= f < rows - 10)%nat /\ (10 <= c < columns - 10)%nat.

(** What the fit of the kernel around one pixel hands to the selection:
    the two first derivatives and the contour branches ([None] when
    contouring raised). *)
Record pixel_fit : Type := {
  fit_dx : coeffs;
  fit_dy : coeffs;
  fit_v : option (list (list point))
}.

(** Resampling, fitting and contouring of the kernel centred at a pixel. *)
Variable kernel_fit : nat -> nat -> pixel_fit.

(** Body of the [if valor == 255] branch after [white_pixel = True]. *)
Definition process_pixel (minXimage maxYimage resol_orig resol : R)
    (wm : Np.matrix) (kernel nf nc : nat) (file_coord : list line)
  : list line * result unit :=
  let pf := kernel_fit nf nc in
  match fit_v pf with
  | None => (file_coord, Ok tt)
  | Some v =>
      if (length v =? 0)%nat then (file_coord, Ok tt)
      else
        match mejor_curva_pendiente3 v (fit_dx pf) (fit_dy pf) wm resol with
        | Raise e => (file_coord, Raise e)
        | Ok indice =>
            if (indice =? -1)%Z then (file_coord, Ok tt)
            else
              match Np.index (length v) indice with
              | Raise e => (file_coord, Raise e)
              | Ok k =>
                  let linea := nth k v [] in
                  escribeCoords (map fst linea) (map snd linea)
                                minXimage maxYimage resol_orig resol wm
                                nf nc kernel file_coord
              end
        end
  end.

(** Every contour list a fit returns is made of non-empty branches whose
    vertices lie on the kernel grid. *)
Definition fits_on_grid (kernel ppp : nat) (resol : R) : Prop :=
  forall f c v, fit_v (kernel_fit f c) = Some v ->
    Forall (fun curva => curva <> [] /\
              Forall (on_grid (kernel * ppp) resol) curva) v.

(** The fit at the pixel found at least one contour branch. *)
Definition has_contour (f c : nat) : bool :=
  match fit_v (kernel_fit f c) with
  | Some (_ :: _) => true
  | _ => false
  end.

(** State of the double loop: [white_pixel] and the records written. *)
Definition scan_state : Type := bool * list line.

Fixpoint scan_columns (pl_data : list (list Z))
    (minXimage maxYimage resol_orig resol : R) (wm : Np.matrix)
    (kernel f : nat) (cs : list nat) (st : scan_state)
  : scan_state * result unit :=
  match cs with
  | [] => (st, Ok tt)
  | c :: cs' =>
      match mask_at pl_data f c with
      | Raise e => (st, Raise e)
      | Ok valor =>
          if (valor =? 255)%Z then
            match process_pixel minXimage maxYimage resol_orig resol wm
                                kernel f c (snd st) with
            | (file', Ok _) =>
                scan_columns pl_data minXimage maxYimage resol_orig resol
                             wm kernel f cs' (true, file')
            | (file', Raise e) => ((true, file'), Raise e)
            end
          else scan_columns pl_data minXimage maxYimage resol_orig resol wm
                            kernel f cs' st
      end
  end.

Fixpoint scan_rows (pl_data : list (list Z))
    (minXimage maxYimage resol_orig resol : R) (wm : Np.matrix)
    (kernel : nat) (fs cs : list nat) (st : scan_state)
  : scan_state * result unit :=
  match fs with
  | [] => (st, Ok tt)
  | f :: fs' =>
      match scan_columns pl_data minXimage maxYimage resol_orig resol wm
                         kernel f cs st with
      | (st', Ok _) =>
          scan_rows pl_data minXimage maxYimage resol_orig resol wm
                    kernel fs' cs st'
      | (st', Raise e) => (st', Raise e)
      end
  end.

(** [range(a, b)]. *)
Definition range (a b : nat) : list nat := seq a (b - a).

(** [extractPoints] on a scene of [rows] by [columns] pixels whose
    geotransform gives [minXimage], [maxYimage] and the pixel size
    [resol_orig]: the records written to the [.d] file and the returned
    flag. *)
Definition extractPoints (pl_data : list (list Z)) (rows columns : nat)
    (minXimage maxYimage resol_orig : R) (kernel ppp : nat)
  : list line * result bool :=
  let offset := 10%nat in
  let c1 := offset in
  let f1 := offset in
  let c2 := (columns - offset)%nat in
  let f2 := (rows - offset)%nat in
  let resol := resol_orig / INR ppp in
  let wm := Weights.computeWeights kernel ppp in
  match scan_rows pl_data minXimage maxYimage resol_orig resol wm kernel
                  (range f1 f2) (range c1 c2) (false, []) with
  | ((white_pixel, file_coord), Ok _) =>
      (file_coord, Ok (if white_pixel then true else false))
  | ((_, file_coord), Raise e) => (file_coord, Raise e)
  end.

End Extraction.

End Extract.

(** ** Cluster averaging: [getClusters], [creaCluster], [averagePoints] *)

Module Cluster.

(** The first loop of [getClusters] from position [i] of the sorted
    [coord]: [cluster] is the run being built, [coord] the part of the
    array from [coord[i]] on. *)
Fixpoint split_runs (tol : R) (coord : list R) (i : nat)
    (cluster : list nat) : list (list nat) :=
  match coord with
  | current :: rest =>
      match rest with
      | siguiente :: _ =>
          let dist := siguiente - current in
          if Rleb dist tol
          then split_runs tol rest (S i) (cluster ++ [S i])
          else cluster :: split_runs tol rest (S i) [S i]
      | [] => [cluster]
      end
  | [] => [cluster]
  end.

(** [a[iden]] for one index. *)
Definition item (a : list R) (iden : nat) : result R :=
  match nth_error a iden with
  | Some v => Ok v
  | None => Raise IndexError
  end.

(** [a[idx]] for a list of indices. *)
Fixpoint fancy (a : list R) (idx : list nat) : result (list R) :=
  match idx with
  | [] => Ok []
  | k :: idx' =>
      v <- item a k ;;
      l <- fancy a idx' ;;
      Ok (v :: l)
  end.

(** The inner loop [for iden in c] of the second part of [getClusters]. *)
Fixpoint locate (orig_coord coord : list R) (c : list nat)
  : result (list nat) :=
  match c with
  | [] => Ok []
  | iden :: c' =>
      v <- item coord iden ;;
      match Np.first_index v orig_coord with
      | None => Raise IndexError
      | Some a0 =>
          l <- locate orig_coord coord c' ;;
          Ok (a0 :: l)
      end
  end.

Fixpoint locate_all (orig_coord coord : list R) (clusters : list (list nat))
  : result (list (list nat)) :=
  match clusters with
  | [] => Ok []
  | c :: cs =>
      parcial <- locate orig_coord coord c ;;
      pos <- locate_all orig_coord coord cs ;;
      Ok (parcial :: pos)
  end.

Definition getClusters (coord : list R) (tol : R)
  : result (list R * list (list nat)) :=
  let orig_coord := coord in
  let coord := Np.sort coord in
  let clusters := split_runs tol coord 0 [0%nat] in
  pos <- locate_all orig_coord coord clusters ;;
  Ok (orig_coord, pos).

(** The positions [np.nonzero(col == x)] of a column. *)
Fixpoint nonzero_eq (col : list R) (x : R) (i : nat) : list nat :=
  match col with
  | [] => []
  | v :: col' =>
      if Reqb v x then i :: nonzero_eq col' x (S i)
      else nonzero_eq col' x (S i)
  end.

(** The [for cp in pos] loop: [mk] builds the output point from the
    weighted mean. *)
Fixpoint average_runs (orig_coord pe : list R) (min_cluster_size : Z)
    (mk : R -> point) (pos : list (list nat)) : result (list point) :=
  match pos with
  | [] => Ok []
  | cp :: pos' =>
      cluster <- fancy orig_coord cp ;;
      if (min_cluster_size <=? Z.of_nat (length cluster))%Z then
        p_cluster <- fancy pe cp ;;
        media <- Np.average_w cluster p_cluster ;;
        rest <- average_runs orig_coord pe min_cluster_size mk pos' ;;
        Ok (mk media :: rest)
      else average_runs orig_coord pe min_cluster_size mk pos'
  end.

(** Body of one iteration of [for x in ex] (or [for y in ey]): [axis] is
    the column compared with [x], [other] the column that is clustered. *)
Definition cluster_value (axis other p : list R) (tol : R)
    (min_cluster_size : Z) (mk : R -> point) (x : R) : result (list point) :=
  let id_x := nonzero_eq axis x 0 in
  cy <- fancy other id_x ;;
  pey <- fancy p id_x ;;
  if (2 <=? length cy)%nat then
    op <- getClusters cy tol ;;
    average_runs (fst op) pey min_cluster_size mk (snd op)
  else Ok [].

Fixpoint cluster_axis (axis other p : list R) (tol : R)
    (min_cluster_size : Z) (mk : R -> R -> point) (ex : list R)
  : result (list point) :=
  match ex with
  | [] => Ok []
  | x :: ex' =>
      here <- cluster_value axis other p tol min_cluster_size (mk x) x ;;
      rest <- cluster_axis axis other p tol min_cluster_size mk ex' ;;
      Ok (here ++ rest)
  end.

Definition creaCluster (d : list point) (p ex ey : list R)
    (cluster_distance : R) (min_cluster_size : Z) : result (list point) :=
  let tol := cluster_distance in
  inx <- cluster_axis (map fst d) (map snd d) p tol min_cluster_size
                      (fun x media_y => (x, media_y)) ex ;;
  iny <- cluster_axis (map snd d) (map fst d) p tol min_cluster_size
                      (fun y media_x => (media_x, y)) ey ;;
  Ok (inx ++ iny).

(** [averagePoints] on the records of the [.d] file: the records of the
    [.m] file. *)
Definition averagePoints (records : list line) (cluster_distance : R)
    (min_cluster_size : Z) : result (list point) :=
  let datos := map fst records in
  let pesos := map snd records in
  let ejex := Np.unique (map fst datos) in
  let ejey := Np.unique (map snd datos) in
  creaCluster datos pesos ejex ejey cluster_distance min_cluster_size.

(** A run of the sorted coordinates: consecutive values at most [tol]
    apart. *)
Fixpoint close_chain (tol : R) (l : list R) : Prop :=
  match l with
  | a :: rest =>
      match rest with
      | b :: _ => b - a <= tol /\ close_chain tol rest
      | [] => True
      end
  | [] => True
  end.

(** The values of the runs [split_runs] builds: the same loop, collecting
    [coord[i+1]] where the code collects [i+1]. *)
Fixpoint split_vals (tol : R) (coord : list R) (cluster : list R)
  : list (list R) :=
  match coord with
  | current :: rest =>
      match rest with
      | siguiente :: _ =>
          if Rleb (siguiente - current) tol
          then split_vals tol rest (cluster ++ [siguiente])
          else cluster :: split_vals tol rest [siguiente]
      | [] => [cluster]
      end
  | [] => [cluster]
  end.

(** Neighbouring runs are more than [tol] apart. *)
Fixpoint separated (tol : R) (runs : list (list R)) : Prop :=
  match runs with
  | r1 :: rest =>
      match rest with
      | r2 :: _ => tol < hd 0 r2 - last r1 0 /\ separated tol rest
      | [] => True
      end
  | [] => True
  end.

(** The coordinates, on the other axis, of the points whose [axis]
    coordinate is exactly [x]. *)
Definition sharing (axis other : list R) (x : R) : list R :=
  map snd (filter (fun ao => Reqb (fst ao) x) (combine axis other)).

(** [m] is a mean of the values [r] under positive weights. *)
Definition weighted_mean_of (r : list R) (m : R) : Prop :=
  exists ws, length ws = length r /\ Forall (fun w => 0 < w) ws /\
    m = Np.sum (map (fun aw => fst aw * snd aw) (combine r ws)) / Np.sum ws.

(** The points one axis value contributes, given its runs and their
    means. *)
Definition kept_runs (min_cluster_size : Z) (mk : R -> point)
    (runs : list (list R)) (means : list R) : list point :=
  flat_map (fun rm =>
              if (min_cluster_size <=? Z.of_nat (length (fst rm)))%Z
              then [mk (snd rm)] else [])
           (combine runs means).

End Cluster.

(** ** Point cleaning: [cleanPointsByAngle], [cleanPoints2] *)

Module Clean.

Section Cleaning.

(** scipy's [Delaunay(points).simplices]; [None] when it raises. *)
Variable Delaunay : list point -> option (list (nat * nat * nat)).

(** [computeLST]: the networkx spanning-tree and path search, returning the
    indices along the path; [None] when it raises. *)
Variable computeLST : list (nat * nat * nat) -> list point -> option (list nat).

(** The [for iden in lst] loop; [None] is an IndexError. *)
Fixpoint lineas_of (lst : list nat) (puntos : list point)
  : option (list point) :=
  match lst with
  | [] => Some []
  | iden :: lst' =>
      match nth_error puntos iden, lineas_of lst' puntos with
      | Some pt, Some l => Some (pt :: l)
      | _, _ => None
      end
  end.

Definition cleanPointsByAngle (lst : list nat) (puntos : list point)
    (tol_rba : option R) : option (list point) :=
  match lineas_of lst puntos with
  | None => None
  | Some lineas =>
      match tol_rba with
      | Some tol => Angle.removeByAngle lineas tol
      | None => Some lineas
      end
  end.

(** [points >= 4] on the coordinate array: one row of comparisons per
    point. *)
Definition ge4 (points : list point) : list (bool * bool) :=
  map (fun pt => (Rleb 4 (fst pt), Rleb 4 (snd pt))) points.

(** The test [if len(points >= 4)]: a non-zero length is true. *)
Definition guard (points : list point) : bool :=
  negb (length (ge4 points) =? 0)%nat.

(** The [try] block for one group: [None] when an exception was caught. *)
Definition try_group (points : list point) (tol_rba : option R)
  : option (list point) :=
  match Delaunay points with
  | None => None
  | Some lista_tri =>
      match computeLST lista_tri points with
      | None => None
      | Some lst => cleanPointsByAngle lst points tol_rba
      end
  end.

(** The [for i in range(0, len(groups))] loop over the groups and their
    identifiers: the list [clean_geometries] handed to [makePointShp] and
    [makeLineShp]. *)
Fixpoint process_groups (groups : list (list point)) (identifiers : list Z)
    (tol_rba : option R) : list (list point * Z) :=
  match groups, identifiers with
  | group :: groups', identifier :: identifiers' =>
      let points := group in
      let rest := process_groups groups' identifiers' tol_rba in
      if guard points then
        match try_group points tol_rba with
        | Some clean_points => (clean_points, identifier) :: rest
        | None => rest
        end
      else rest
  | _, _ => []
  end.

Definition cleanPoints2 (groups : list (list point)) (identifiers : list Z)
    (tol_rba : option R) : list (list point * Z) :=
  process_groups groups identifiers tol_rba.

(** The features [makePointShp] creates: one per cleaned point. *)
Definition makePointShp (source_list : list (list point * Z))
  : list (point * Z) :=
  flat_map (fun g => map (fun pt => (pt, snd g)) (fst g)) source_list.

(** The features [makeLineShp] creates: one polyline per entry. *)
Definition makeLineShp (source_list : list (list point * Z))
  : list (list point * Z) :=
  map (fun g => (fst g, snd g)) source_list.

End Cleaning.

End Clean.

(** ** Sample inputs *)

(** A fitted surface whose two first derivatives evaluate to 1 everywhere. *)
Definition unit_slope : R -> R -> unit -> R := fun _ _ _ => 1.

(** Two contour branches with the same single vertex. *)
Definition twin_branches : list (list point) :=
  [[(1 / 2, 1 / 2)]; [(1 / 2, 1 / 2)]].

(** A 21 by 21 mask whose only rough-line pixel is the centre (10, 10). *)
Definition lone_pixel_mask : list (list Z) :=
  repeat (repeat 0%Z 21) 10 ++
  [repeat 0%Z 10 ++ [255%Z] ++ repeat 0%Z 10] ++
  repeat (repeat 0%Z 21) 10.

(** A fit whose Laplacian has no zero contour anywhere. *)
Definition no_contour_fit : nat -> nat -> Extract.pixel_fit unit :=
  fun _ _ => {| Extract.fit_dx := tt; Extract.fit_dy := tt;
                Extract.fit_v := Some [] |}.

(** A fit that finds one branch with one vertex at every pixel. *)
Definition one_vertex_fit : nat -> nat -> Extract.pixel_fit unit :=
  fun _ _ => {| Extract.fit_dx := tt; Extract.fit_dy := tt;
                Extract.fit_v := Some [[(30, 30)]] |}.

(** A group of three points in general position, the single triangle that
    triangulates it, and the path through its spanning tree. *)
Definition small_group : list point := [(0, 0); (1, 0); (0, 1)].

Definition one_triangle : list point -> option (list (nat * nat * nat)) :=
  fun _ => Some [(0, 1, 2)%nat].

Definition tree_path
  : list (nat * nat * nat) -> list point -> option (list nat) :=
  fun _ _ => Some [2; 0; 1]%nat.


(** ** Ascending lists *)

(** Consecutive values never decrease, as after [np.sort]. *)
Fixpoint ascending (l : list R) : Prop :=
  match l with
  | a :: rest =>
      match rest with
      | b :: _ => a <= b /\ ascending rest
      | [] => True
      end
  | [] => True
  end.

(** ** Graph weights: [dist] *)

Module Geometry.

Definition dist (p1 p2 : point) : R :=
  sqrt ((fst p2 - fst p1) ^ 2 + (snd p2 - snd p1) ^ 2).

End Geometry.

(** ** Fitting helpers: [deriva], [createData] *)

(** The two axis names [deriva] recognises. *)
Module AxisName.

Import Stdlib.Strings.String.

Definition x : string := "x".
Definition y : string := "y".
Definition z : string := "z".

End AxisName.

Module Fit.

(** [row * factores] for [factores = range(k, ...)]: entry by entry. *)
Fixpoint times_factors (row : list R) (k : nat) : list R :=
  match row with
  | [] => []
  | r :: row' => r * INR k :: times_factors row' (S k)
  end.

(** [(nm.T * factores).T] for [factores = range(k, ...)]: row by row. *)
Fixpoint scale_rows (nm : Np.matrix) (k : nat) : Np.matrix :=
  match nm with
  | [] => []
  | row :: nm' => map (fun r => r * INR k) row :: scale_rows nm' (S k)
  end.

(** [m.shape] of a matrix with at least one row. *)
Definition shape (m : Np.matrix) : nat * nat :=
  (length m, length (hd [] m)).

(** [deriva]; the result is [None] where the Python function falls through
    and returns [None]. *)
Definition deriva (m : Np.matrix) (axis : String.string)
  : option Np.matrix :=
  let c := snd (shape m) in
  if String.eqb axis AxisName.x then
    let nm := map (fun row => times_factors (tl row) 1) m in
    Some (map (fun row => row ++ [0]) nm)
  else if String.eqb axis AxisName.y then
    let nm := scale_rows (tl m) 1 in
    Some (nm ++ [repeat 0 c])
  else None.

(** [d2x + d2y] on arrays of the same shape. *)
Definition add_rows (r1 r2 : list R) : list R :=
  map (fun ab => fst ab + snd ab) (combine r1 r2).

Definition add (m1 m2 : Np.matrix) : Np.matrix :=
  map (fun rr => add_rows (fst rr) (snd rr)) (combine m1 m2).

(** Every row has [c] entries and there are [f] rows. *)
Definition rectangular (f c : nat) (m : Np.matrix) : Prop :=
  length m = f /\ Forall (fun row => length row = c) m.

(** The polynomial a coefficient matrix stands for, entry [(i, j)]
    multiplying [u ^ i * v ^ j]. *)
Definition eval (m : Np.matrix) (u v : R) : R :=
  Weights.horner (map (fun row => Weights.horner row v) m) u.

(** The [laplaciano] matrix [extractPoints] builds from the fit [m]. *)
Definition laplaciano (m : Np.matrix) : option Np.matrix :=
  match deriva m AxisName.x with
  | Some dx =>
      match deriva dx AxisName.x, deriva m AxisName.y with
      | Some d2x, Some dy =>
          match deriva dy AxisName.y with
          | Some d2y => Some (add d2x d2y)
          | None => None
          end
      | _, _ => None
      end
  | None => None
  end.

(** Smallest integer not below [x]. *)
Definition ceil (x : R) : Z := (- Int_part (- x))%Z.

(** [np.arange(start, stop, step)] on floats. *)
Definition arange (start stop step : R) : list R :=
  map (fun k => start + INR k * step)
      (seq 0 (Z.to_nat (ceil ((stop - start) / step)))).

(** [createData]: the flattened [x], [y] and [z] arrays. *)
Definition createData (image : Np.matrix) (resol : R)
  : list R * list R * list R :=
  let inicio := resol - resol / 2 in
  let z := concat image in
  let tamdata := Np.py_int (sqrt (INR (length z))) in
  let xs := arange inicio (IZR tamdata * resol) resol in
  let ys := arange inicio (IZR tamdata * resol) resol in
  let x := concat (map (fun _ => xs) ys) in
  let y := flat_map (fun yv => map (fun _ => yv) xs) ys in
  (x, y, z).

End Fit.

(** ** K-means helpers and the clock *)

Module Misc.

(** [range(0, stop, step)]. *)
Definition range_step (stop step : Z) : result (list Z) :=
  if (step =? 0)%Z then Raise ValueError
  else if (0 <? step)%Z then
    Ok (map (fun k => (Z.of_nat k * step)%Z)
            (seq 0 (Z.to_nat ((stop + step - 1) / step))))
  else Ok [].

(** [getColors]: [int(255/nc)] truncates towards zero. *)
Definition getColors (nc : Z) : result (list Z) :=
  if (nc =? 0)%Z then Raise ZeroDivisionError
  else
    let salto := Z.quot 255 nc in
    range_step 255 (salto + 1).

(** The hours, minutes and seconds [endClock] logs for [t_sec] elapsed
    seconds, by two [divmod]s. *)
Definition endClock (t_sec : Z) : Z * Z * Z :=
  let t_min := (t_sec / 60)%Z in
  let t_sec' := (t_sec mod 60)%Z in
  let t_hour := (t_min / 60)%Z in
  let t_min' := (t_min mod 60)%Z in
  (t_hour, t_min', t_sec').

End Misc.


(** ** The [.d] file between [extractPoints] and [averagePoints] *)

Module Files.

(** [averagePoints] on the records read back from the [.d] file.  From an
    empty file [datos] is a one-dimensional array and [datos[:, 0]] raises
    before any clustering. *)
Definition averagePoints (records : list line) (cluster_distance : R)
    (min_cluster_size : Z) : result (list point) :=
  match records with
  | [] => Raise IndexError
  | _ :: _ =>
      Cluster.averagePoints records cluster_distance min_cluster_size
  end.

End Files.

(** Whether every record carries a positive weight. *)
Definition positive_weights (file : list line) : Prop :=
  Forall (fun rec : line => 0 < snd rec) file.

(** A 21 by 21 mask with no rough-line pixel, and one whose only
    rough-line pixel is the corner (0, 0), outside the scanned area. *)
Definition dark_mask : list (list Z) := repeat (repeat 0%Z 21) 21.

Definition corner_pixel_mask : list (list Z) :=
  (255%Z :: repeat 0%Z 20) :: repeat (repeat 0%Z 21) 20.
(** * Properties *)

(** ** Comparisons on reals *)

Lemma Rleb_true x y : Rleb x y = true <-> x <= y.
Proof. unfold Rleb; destruct (Rle_dec x y); split; intros; try easy. Qed.

Lemma Rleb_false x y : Rleb x y = false <-> y < x.
Proof. unfold Rleb; destruct (Rle_dec x y); split; intros; try easy; lra. Qed.

Lemma Rltb_true x y : Rltb x y = true <-> x < y.
Proof. unfold Rltb; destruct (Rlt_dec x y); split; intros; try easy. Qed.

Lemma Rltb_false x y : Rltb x y = false <-> y <= x.
Proof. unfold Rltb; destruct (Rlt_dec x y); split; intros; try easy; lra. Qed.

Lemma Reqb_true x y : Reqb x y = true <-> x = y.
Proof. unfold Reqb; destruct (Req_dec_T x y); split; intros; try easy. Qed.

Lemma Reqb_false x y : Reqb x y = false <-> x <> y.
Proof. unfold Reqb; destruct (Req_dec_T x y); split; intros; try easy. Qed.

Ltac rcmp :=
  repeat match goal with
  | |- context [Rltb ?a ?b] =>
      let H := fresh "C" in
      destruct (Rltb a b) eqn:H;
      [apply Rltb_true in H | apply Rltb_false in H]; try lra
  | |- context [Rleb ?a ?b] =>
      let H := fresh "C" in
      destruct (Rleb a b) eqn:H;
      [apply Rleb_true in H | apply Rleb_false in H]; try lra
  | |- context [Reqb ?a ?b] =>
      let H := fresh "C" in
      destruct (Reqb a b) eqn:H;
      [apply Reqb_true in H | apply Reqb_false in H]; try lra
  end.

(** ** [atan2] and the turning angle *)

Lemma atan_nonpos x : x <= 0 -> atan x <= 0.
Proof.
  intros [H | ->]; [| rewrite atan_0; lra].
  left. rewrite <- atan_0. now apply atan_increasing.
Qed.

Lemma atan_pos x : 0 < x -> 0 < atan x.
Proof. intros H. rewrite <- atan_0. now apply atan_increasing. Qed.

Lemma atan_neg x : x < 0 -> atan x < 0.
Proof. intros H. rewrite <- atan_0. now apply atan_increasing. Qed.

Lemma div_neg_pos y x : x < 0 -> y < 0 -> 0 < y / x.
Proof.
  intros Hx Hy. replace (y / x) with ((- y) / (- x)) by (field; lra).
  apply Rdiv_lt_0_compat; lra.
Qed.

Lemma div_nonneg_neg y x : x < 0 -> 0 <= y -> y / x <= 0.
Proof.
  intros Hx Hy. replace (y / x) with (- (y / (- x))) by (field; lra).
  assert (0 <= y / - x) by (apply Rle_mult_inv_pos; lra). lra.
Qed.

Lemma atan2_bound y x : - PI < atan2 y x <= PI.
Proof.
  pose proof PI_RGT_0 as HPI.
  unfold atan2. rcmp.
  - pose proof (atan_bound (y / x)). lra.
  - pose proof (atan_bound (y / x)).
    pose proof (atan_nonpos (y / x) (div_nonneg_neg y x C0 C1)). lra.
  - pose proof (atan_bound (y / x)).
    pose proof (atan_pos (y / x) (div_neg_pos y x C0 C1)). lra.
Qed.

Lemma degrees_lt r s : r < s -> degrees r < degrees s.
Proof.
  intros H. pose proof PI_RGT_0 as HPI. unfold degrees.
  apply Rmult_lt_compat_r; [apply Rinv_0_lt_compat; lra | lra].
Qed.

Lemma degrees_PI k : degrees (k * PI) = k * 180.
Proof. pose proof PI_RGT_0. unfold degrees. field. lra. Qed.

Lemma turning_angle_range a b c :
  0 <= Angle.turning_angle a b c < 360.
Proof.
  unfold Angle.turning_angle.
  set (u := atan2 (snd c - snd b) (fst c - fst b)).
  set (w := atan2 (snd a - snd b) (fst a - fst b)).
  pose proof (atan2_bound (snd c - snd b) (fst c - fst b)) as Hu.
  pose proof (atan2_bound (snd a - snd b) (fst a - fst b)) as Hw.
  fold u in Hu. fold w in Hw.
  assert (H1 : degrees (-2 * PI) < degrees (u - w)) by (apply degrees_lt; lra).
  assert (H2 : degrees (u - w) < degrees (2 * PI)) by (apply degrees_lt; lra).
  rewrite degrees_PI in H1, H2.
  cbv zeta. rcmp.
Qed.

(** ** [removeByAngle] *)

Lemma interior_scan_indices (puntos : list point) (tol : R) :
  Angle.interior_scan puntos tol =
  map (fun i => nth i puntos (0, 0)) (Angle.kept_indices puntos tol).
Proof.
  unfold Angle.kept_indices.
  induction puntos as [| a rest IH]; [reflexivity |].
  destruct rest as [| b [| c tl]]; [reflexivity | reflexivity |].
  change (Angle.interior_scan (a :: b :: c :: tl) tol) with
    ((if Rleb tol (Angle.turning_angle a b c) then [b] else [])
       ++ Angle.interior_scan (b :: c :: tl) tol).
  rewrite IH.
  replace (length (a :: b :: c :: tl) - 2)%nat with (S (length tl))
    by (simpl; lia).
  replace (length (b :: c :: tl) - 2)%nat with (length tl) by (simpl; lia).
  rewrite <- cons_seq. cbn [filter].
  change (nth (1 - 1) (a :: b :: c :: tl) (0, 0)) with a.
  change (nth 1 (a :: b :: c :: tl) (0, 0)) with b.
  change (nth (1 + 1) (a :: b :: c :: tl) (0, 0)) with c.
  assert (E : map (fun i => nth i (a :: b :: c :: tl) (0, 0))
                (filter (fun i => Rleb tol (Angle.turning_angle
                     (nth (i - 1) (a :: b :: c :: tl) (0, 0))
                     (nth i (a :: b :: c :: tl) (0, 0))
                     (nth (i + 1) (a :: b :: c :: tl) (0, 0))))
                        (seq 2 (length tl))) =
              map (fun i => nth i (b :: c :: tl) (0, 0))
                (filter (fun i => Rleb tol (Angle.turning_angle
                     (nth (i - 1) (b :: c :: tl) (0, 0))
                     (nth i (b :: c :: tl) (0, 0))
                     (nth (i + 1) (b :: c :: tl) (0, 0))))
                        (seq 1 (length tl)))).
  { rewrite <- (seq_shift (length tl) 1), filter_map_swap, map_map.
    f_equal. apply filter_ext_in. intros i Hi. apply in_seq in Hi.
    destruct i as [| i]; [lia |].
    replace (S (S i) - 1)%nat with (S i) by lia.
    replace (S i - 1)%nat with i by lia.
    replace (S (S i) + 1)%nat with (S (S i + 1)) by lia.
    reflexivity. }
  destruct (Rleb tol (Angle.turning_angle a b c)); cbn [map app];
    rewrite E; reflexivity.
Qed.

Lemma atan2_scale k y x : 0 < k -> atan2 (k * y) (k * x) = atan2 y x.
Proof.
  intros Hk. unfold atan2.
  assert (Hq : x <> 0 -> k * y / (k * x) = y / x) by (intros; field; lra).
  destruct (Rltb 0 x) eqn:C1;
    [apply Rltb_true in C1 | apply Rltb_false in C1].
  - rewrite (proj2 (Rltb_true 0 (k * x))) by nra. rewrite Hq by lra.
    reflexivity.
  - rewrite (proj2 (Rltb_false 0 (k * x))) by nra.
    destruct (Rltb x 0) eqn:C2;
      [apply Rltb_true in C2 | apply Rltb_false in C2].
    + rewrite (proj2 (Rltb_true (k * x) 0)) by nra. rewrite Hq by lra.
      destruct (Rleb 0 y) eqn:C3;
        [apply Rleb_true in C3 | apply Rleb_false in C3].
      * rewrite (proj2 (Rleb_true 0 (k * y))) by nra. reflexivity.
      * rewrite (proj2 (Rleb_false 0 (k * y))) by nra. reflexivity.
    + rewrite (proj2 (Rltb_false (k * x) 0)) by nra.
      destruct (Rltb 0 y) eqn:C3;
        [apply Rltb_true in C3 | apply Rltb_false in C3].
      * rewrite (proj2 (Rltb_true 0 (k * y))) by nra. reflexivity.
      * rewrite (proj2 (Rltb_false 0 (k * y))) by nra.
        destruct (Rltb y 0) eqn:C4;
          [apply Rltb_true in C4 | apply Rltb_false in C4].
        -- rewrite (proj2 (Rltb_true (k * y) 0)) by nra. reflexivity.
        -- rewrite (proj2 (Rltb_false (k * y) 0)) by nra. reflexivity.
Qed.

(** The opposite direction is half a turn away. *)
Lemma atan2_opp y x :
  x <> 0 \/ y <> 0 ->
  atan2 (- y) (- x) = atan2 y x + PI \/ atan2 (- y) (- x) = atan2 y x - PI.
Proof.
  intros Hnz. pose proof PI_RGT_0 as HPI.
  assert (Hq : x <> 0 -> - y / - x = y / x) by (intros; field; lra).
  unfold atan2.
  destruct (Rltb 0 x) eqn:C1;
    [apply Rltb_true in C1 | apply Rltb_false in C1].
  - rewrite (proj2 (Rltb_false 0 (- x))) by lra.
    rewrite (proj2 (Rltb_true (- x) 0)) by lra. rewrite Hq by lra.
    destruct (Rleb 0 (- y)); [left | right]; reflexivity.
  - destruct (Rltb x 0) eqn:C2;
      [apply Rltb_true in C2 | apply Rltb_false in C2].
    + rewrite (proj2 (Rltb_true 0 (- x))) by lra. rewrite Hq by lra.
      destruct (Rleb 0 y); [right | left]; lra.
    + rewrite (proj2 (Rltb_false 0 (- x))) by lra.
      rewrite (proj2 (Rltb_false (- x) 0)) by lra.
      assert (x = 0) by lra.
      destruct (Rltb 0 y) eqn:C3;
        [apply Rltb_true in C3 | apply Rltb_false in C3].
      * rewrite (proj2 (Rltb_false 0 (- y))) by lra.
        rewrite (proj2 (Rltb_true (- y) 0)) by lra. right. lra.
      * assert (y < 0) by (destruct Hnz; [lra |]; lra).
        rewrite (proj2 (Rltb_true 0 (- y))) by lra.
        rewrite (proj2 (Rltb_true y 0)) by lra. left. lra.
Qed.

Lemma atan_inv_neg z : 0 < z -> atan (- / z) = atan z - PI / 2.
Proof. intros Hz. rewrite atan_opp, atan_inv by lra. lra. Qed.

(** A quarter turn counterclockwise, (x, y) to (- y, x), adds a right
    angle (up to a full turn). *)
Lemma atan2_rot y x :
  x <> 0 \/ y <> 0 ->
  atan2 x (- y) = atan2 y x + PI / 2 \/
  atan2 x (- y) = atan2 y x + PI / 2 - 2 * PI.
Proof.
  intros Hnz. pose proof PI_RGT_0 as HPI.
  unfold atan2.
  destruct (Rltb 0 x) eqn:C1;
    [apply Rltb_true in C1 | apply Rltb_false in C1].
  - (* x > 0 *)
    destruct (Rltb 0 (- y)) eqn:C2;
      [apply Rltb_true in C2 | apply Rltb_false in C2].
    + (* y < 0 *) left.
      replace (x / - y) with (/ (- (y / x))) by (field; lra).
      assert (0 < - (y / x)).
      { replace (- (y / x)) with ((- y) / x) by (field; lra).
        apply Rdiv_lt_0_compat; lra. }
      rewrite atan_inv, atan_opp by lra. lra.
    + destruct (Rltb (- y) 0) eqn:C3;
        [apply Rltb_true in C3 | apply Rltb_false in C3].
      * (* y > 0 *) left.
        rewrite (proj2 (Rleb_true 0 x)) by lra.
        replace (x / - y) with (- / (y / x)) by (field; lra).
        rewrite atan_inv_neg by (apply Rdiv_lt_0_compat; lra). lra.
      * (* y = 0 *) left.
        
        replace y with 0 by lra. unfold Rdiv. rewrite Rmult_0_l, atan_0. lra.
  - destruct (Rltb x 0) eqn:C2;
      [apply Rltb_true in C2 | apply Rltb_false in C2].
    + (* x < 0 *)
      destruct (Rleb 0 y) eqn:C3;
        [apply Rleb_true in C3 | apply Rleb_false in C3].
      * destruct (Rltb 0 (- y)) eqn:C4;
          [apply Rltb_true in C4 | apply Rltb_false in C4]; [lra |].
        destruct (Rltb (- y) 0) eqn:C5;
          [apply Rltb_true in C5 | apply Rltb_false in C5].
        -- (* y > 0 *) right.
           rewrite (proj2 (Rleb_false 0 x)) by lra.
           replace (x / - y) with (/ (- (y / x))) by (field; lra).
           assert (0 < - (y / x)).
           { replace (- (y / x)) with (y / (- x)) by (field; lra).
             apply Rdiv_lt_0_compat; lra. }
           rewrite atan_inv, atan_opp by lra. lra.
        -- (* y = 0 *) right.
           
           
           replace y with 0 by lra. unfold Rdiv. rewrite Rmult_0_l, atan_0.
           lra.
      * (* y < 0 *) left.
        rewrite (proj2 (Rltb_true 0 (- y))) by lra.
        replace (x / - y) with (- / (y / x)) by (field; lra).
        rewrite atan_inv_neg by (apply div_neg_pos; lra). lra.
    + (* x = 0 *)
      assert (x = 0) by lra. subst x.
      destruct (Rltb 0 y) eqn:C3;
        [apply Rltb_true in C3 | apply Rltb_false in C3].
      * left.
        rewrite (proj2 (Rltb_false 0 (- y))) by lra.
        rewrite (proj2 (Rltb_true (- y) 0)) by lra.
        rewrite (proj2 (Rleb_true 0 0)) by lra.
        unfold Rdiv. rewrite Rmult_0_l, atan_0. lra.
      * assert (y < 0) by (destruct Hnz; lra).
        rewrite (proj2 (Rltb_true y 0)) by lra.
        rewrite (proj2 (Rltb_true 0 (- y))) by lra. left.
        unfold Rdiv. rewrite Rmult_0_l, atan_0. lra.
Qed.

Lemma degrees_plus r s : degrees (r + s) = degrees r + degrees s.
Proof. pose proof PI_RGT_0. unfold degrees. field. lra. Qed.

(** The normalisation [if ang < 0: ang = ang + 360] seen on the angle
    difference: a difference of [k] degrees or of [k - 360] degrees, with
    [0 <= k < 360], gives [k]. *)
Lemma turning_angle_of_diff a b c k :
  0 <= k < 360 ->
  degrees (atan2 (snd c - snd b) (fst c - fst b) -
           atan2 (snd a - snd b) (fst a - fst b)) = k \/
  degrees (atan2 (snd c - snd b) (fst c - fst b) -
           atan2 (snd a - snd b) (fst a - fst b)) = k - 360 ->
  Angle.turning_angle a b c = k.
Proof.
  intros Hk H. unfold Angle.turning_angle. cbv zeta.
  destruct H as [-> | ->]; rcmp.
Qed.

Lemma last_nth_default (l : list point) (d e : point) :
  l <> [] -> last l d = nth (length l - 1) l e.
Proof.
  induction l as [| a l IH]; [congruence |]. intros _.
  destruct l as [| b l]; [reflexivity |].
  change (last (a :: b :: l) d) with (last (b :: l) d).
  rewrite IH by congruence. simpl. now rewrite Nat.sub_0_r.
Qed.

(** The angle the loop tests is the direction of the ray to the successor
    minus the direction of the ray to the predecessor, brought into
    [0, 360) by a whole turn. *)
Lemma turning_angle_normalized (a b c : point) :
  Angle.normalized (Angle.direction_difference a b c)
                   (Angle.turning_angle a b c).
Proof.
  split; [apply turning_angle_range |].
  unfold Angle.turning_angle, Angle.direction_difference, Angle.direction.
  cbv zeta.
  set (u := atan2 (snd c - snd b) (fst c - fst b)).
  set (w := atan2 (snd a - snd b) (fst a - fst b)).
  assert (E : degrees (u - w) = degrees u - degrees w).
  { unfold degrees. pose proof PI_RGT_0. field. lra. }
  rewrite E. destruct (Rltb (degrees u - degrees w) 0).
  - exists 1%Z. simpl. lra.
  - exists 0%Z. simpl. lra.
Qed.

(** C4: on a path of at least 3 points, removeByAngle returns the first
    point, then exactly the interior points whose turning angle is at least
    tol, then the last point; the turning angle at b between a and c is the
    atan2 direction of the ray from b to the successor c minus the atan2
    direction of the ray from b to the predecessor a, in degrees, brought
    into [0,360). *)
Theorem removeByAngle_keep_rule (puntos : list point) (tol : R) :
  (3 <= length puntos)%nat ->
  Angle.removeByAngle puntos tol =
    Some (nth 0 puntos (0, 0) ::
          map (fun i => nth i puntos (0, 0)) (Angle.kept_indices puntos tol)
          ++ [nth (length puntos - 1) puntos (0, 0)])
  /\ (forall i, In i (Angle.kept_indices puntos tol) <->
        (1 <= i <= length puntos - 2)%nat /\
        tol <= Angle.turning_angle (nth (i - 1) puntos (0, 0))
                                   (nth i puntos (0, 0))
                                   (nth (i + 1) puntos (0, 0)))
  /\ (forall i, 0 <= Angle.turning_angle (nth (i - 1) puntos (0, 0))
                                         (nth i puntos (0, 0))
                                         (nth (i + 1) puntos (0, 0)) < 360)
  /\ (forall a b c,
        Angle.normalized
          (degrees (atan2 (snd c - snd b) (fst c - fst b)) -
           degrees (atan2 (snd a - snd b) (fst a - fst b)))
          (Angle.turning_angle a b c)).
Proof.
  intros Hlen. split; [| split; [| split]];
    [| | | intros a b c; apply turning_angle_normalized].
  - destruct puntos as [| p0 rest]; [simpl in Hlen; lia |].
    unfold Angle.removeByAngle.
    rewrite interior_scan_indices.
    rewrite (last_nth_default (p0 :: rest) p0 (0, 0)) by congruence.
    reflexivity.
  - intros i. unfold Angle.kept_indices.
    rewrite filter_In, in_seq, Rleb_true. intuition lia.
  - intros i. apply turning_angle_range.
Qed.

Lemma removeByAngle_keep_rule_witness :
  (3 <= length [(0, 0); (1, 0); (2, 0)])%nat /\
  Angle.removeByAngle [(0, 0); (1, 0); (2, 0)] 150 =
    Some (nth 0 [(0, 0); (1, 0); (2, 0)] (0, 0) ::
          map (fun i => nth i [(0, 0); (1, 0); (2, 0)] (0, 0))
              (Angle.kept_indices [(0, 0); (1, 0); (2, 0)] 150)
          ++ [nth (length [(0, 0); (1, 0); (2, 0)] - 1)
                  [(0, 0); (1, 0); (2, 0)] (0, 0)]).
Proof.
  split; [simpl; lia |].
  apply (removeByAngle_keep_rule [(0, 0); (1, 0); (2, 0)] 150).
  simpl. lia.
Defined.

(** ** Straight runs and right-angle turns *)

Lemma pair_neq_cases (a b : point) :
  a <> b -> fst a - fst b <> 0 \/ snd a - snd b <> 0.
Proof.
  intros Hne. destruct a as [ax ay], b as [bx b_y]. simpl.
  destruct (Req_dec_T ax bx) as [-> | Hx]; [| left; lra].
  right. intros E. apply Hne. f_equal. lra.
Qed.

Lemma straight_angle (u a b c : point) (s t : R) :
  u <> (0, 0) -> 0 < s -> 0 < t ->
  fst b - fst a = s * fst u -> snd b - snd a = s * snd u ->
  fst c - fst b = t * fst u -> snd c - snd b = t * snd u ->
  Angle.turning_angle a b c = 180.
Proof.
  intros Hu Hs Ht Hx1 Hy1 Hx2 Hy2.
  apply turning_angle_of_diff; [lra |].
  rewrite Hx2, Hy2, atan2_scale by assumption.
  replace (snd a - snd b) with (s * - snd u) by lra.
  replace (fst a - fst b) with (s * - fst u) by lra.
  rewrite atan2_scale by assumption.
  assert (Hnz : fst u <> 0 \/ snd u <> 0).
  { destruct (pair_neq_cases u (0, 0) Hu) as [H | H]; simpl in H;
      [left | right]; lra. }
  destruct (atan2_opp (snd u) (fst u) Hnz) as [-> | ->].
  - right. replace (atan2 (snd u) (fst u) - (atan2 (snd u) (fst u) + PI))
      with (-1 * PI) by lra.
    rewrite degrees_PI. lra.
  - left. replace (atan2 (snd u) (fst u) - (atan2 (snd u) (fst u) - PI))
      with (1 * PI) by lra.
    rewrite degrees_PI. lra.
Qed.

Lemma quarter_ccw_angle (a b c : point) :
  Angle.quarter_ccw a b c -> Angle.turning_angle a b c = 90.
Proof.
  intros [Hne (t & Ht & Hx & Hy)].
  apply turning_angle_of_diff; [lra |].
  rewrite Hx, Hy.
  replace (- (t * (snd a - snd b))) with (t * - (snd a - snd b)) by lra.
  rewrite atan2_scale by assumption.
  destruct (atan2_rot (snd a - snd b) (fst a - fst b)
                      (pair_neq_cases a b Hne)) as [-> | ->].
  - left. match goal with |- degrees ?e = _ =>
      replace e with (/ 2 * PI) by lra end.
    rewrite degrees_PI. lra.
  - right. match goal with |- degrees ?e = _ =>
      replace e with (- (3 / 2) * PI) by lra end.
    rewrite degrees_PI. lra.
Qed.

Lemma quarter_cw_angle (a b c : point) :
  Angle.quarter_cw a b c -> Angle.turning_angle a b c = 270.
Proof.
  intros [Hne (t & Ht & Hx & Hy)].
  apply turning_angle_of_diff; [lra |].
  assert (Hcb : fst c - fst b <> 0 \/ snd c - snd b <> 0).
  { destruct (pair_neq_cases a b Hne) as [H | H]; [right | left]; nra. }
  replace (snd a - snd b) with (/ t * (fst c - fst b))
    by (rewrite Hx; field; lra).
  replace (fst a - fst b) with (/ t * - (snd c - snd b))
    by (rewrite Hy; field; lra).
  rewrite atan2_scale by (apply Rinv_0_lt_compat; lra).
  destruct (atan2_rot (snd c - snd b) (fst c - fst b) Hcb) as [-> | ->].
  - right. match goal with |- degrees ?e = _ =>
      replace e with (- / 2 * PI) by lra end.
    rewrite degrees_PI. lra.
  - left. match goal with |- degrees ?e = _ =>
      replace e with (3 / 2 * PI) by lra end.
    rewrite degrees_PI. lra.
Qed.

Lemma straight_scan (u : point) (puntos : list point) :
  u <> (0, 0) -> Angle.straight u puntos ->
  Angle.interior_scan puntos 150 = removelast (tl puntos).
Proof.
  intros Hu. induction puntos as [| a rest IH]; [reflexivity |].
  destruct rest as [| b [| c tl]]; [reflexivity | reflexivity |].
  intros [(s & Hs & Hx1 & Hy1) Hrest].
  change (Angle.interior_scan (a :: b :: c :: tl) 150) with
    ((if Rleb 150 (Angle.turning_angle a b c) then [b] else [])
       ++ Angle.interior_scan (b :: c :: tl) 150).
  rewrite (IH Hrest).
  destruct Hrest as [(t & Ht & Hx2 & Hy2) _].
  rewrite (straight_angle u a b c s t) by assumption.
  rewrite (proj2 (Rleb_true 150 180)) by lra. reflexivity.
Qed.

Lemma straight_kept (u : point) (puntos : list point) :
  u <> (0, 0) -> Angle.straight u puntos -> (2 <= length puntos)%nat ->
  Angle.removeByAngle puntos 150 = Some puntos.
Proof.
  intros Hu Hs Hlen.
  destruct puntos as [| a [| b rest]]; [simpl in Hlen; lia .. |].
  unfold Angle.removeByAngle. rewrite (straight_scan u) by assumption.
  change (tl (a :: b :: rest)) with (b :: rest).
  change (last (a :: b :: rest) a) with (last (b :: rest) a).
  rewrite <- app_removelast_last by congruence. reflexivity.
Qed.

Lemma right_angle_cases (a b c : point) :
  Angle.right_angle_turn a b c ->
  Angle.quarter_ccw a b c \/ Angle.quarter_cw a b c.
Proof.
  intros (Hab & Hcb & Hdot).
  set (px := fst a - fst b) in *. set (py := snd a - snd b) in *.
  set (qx := fst c - fst b) in *. set (qy := snd c - snd b) in *.
  assert (Hp : 0 < px * px + py * py).
  { destruct (pair_neq_cases a b Hab) as [H | H]; fold px py in H; nra. }
  assert (Hq : 0 < qx * qx + qy * qy).
  { destruct (pair_neq_cases c b Hcb) as [H | H]; fold qx qy in H; nra. }
  set (t := (qy * px - qx * py) / (px * px + py * py)).
  assert (Ht : t * (px * px + py * py) = qy * px - qx * py).
  { unfold t. field. lra. }
  assert (Ex : qx = - (t * py)).
  { apply Rmult_eq_reg_r with (px * px + py * py); [| lra].
    replace (- (t * py) * (px * px + py * py))
      with (- py * (t * (px * px + py * py))) by ring.
    rewrite Ht.
    assert (H1 : px * (px * qx + py * qy) = 0) by (rewrite Hdot; ring).
    lra. }
  assert (Ey : qy = t * px).
  { apply Rmult_eq_reg_r with (px * px + py * py); [| lra].
    replace (t * px * (px * px + py * py))
      with (px * (t * (px * px + py * py))) by ring.
    rewrite Ht.
    assert (H1 : py * (px * qx + py * qy) = 0) by (rewrite Hdot; ring).
    lra. }
  clearbody t. subst px py qx qy.
  destruct (Rtotal_order t 0) as [Hneg | [Hz | Hpos]].
  - right. split; [assumption |]. exists (- t). repeat split; lra.
  - exfalso. rewrite Hz in Ex, Ey. nra.
  - left. split; [assumption |]. exists t. repeat split; lra.
Qed.

(** C5 (counterexample): the path (0,0), (1,0), (1,1) makes an exact
    right-angle turn at (1,0), and removeByAngle with tolerance 150 retains
    that point. *)
Lemma right_turn_retained :
  Angle.right_angle_turn (0, 0) (1, 0) (1, 1) /\
  Angle.turning_angle (0, 0) (1, 0) (1, 1) = 270 /\
  Angle.removeByAngle [(0, 0); (1, 0); (1, 1)] 150 =
    Some [(0, 0); (1, 0); (1, 1)].
Proof.
  assert (Hne : ((0, 0) : point) <> (1, 0)).
  { intros E. apply (f_equal fst) in E. simpl in E. lra. }
  assert (Hcw : Angle.quarter_cw (0, 0) (1, 0) (1, 1)).
  { split; [exact Hne |]. exists 1. simpl. repeat split; lra. }
  pose proof (quarter_cw_angle _ _ _ Hcw) as Hang.
  repeat split.
  - exact Hne.
  - intros E. apply (f_equal snd) in E. simpl in E. lra.
  - simpl. lra.
  - exact Hang.
  - unfold Angle.removeByAngle, Angle.interior_scan. rewrite Hang.
    rewrite (proj2 (Rleb_true 150 270)) by lra. reflexivity.
Qed.

(** C5 (amended): under tolerance 150 a path of 3 or more points along a
    straight line has turning angle 180 at every interior point and is
    returned unchanged; an exact right-angle turn is either a quarter turn
    counterclockwise from the predecessor ray to the successor ray, with
    angle 90, and then the point is discarded, or a quarter turn clockwise,
    with angle 270, and then the point is retained. *)
Theorem default_tolerance_boundary (u : point) (puntos : list point)
    (a b c : point) :
  (u <> (0, 0) -> Angle.straight u puntos -> (3 <= length puntos)%nat ->
     Angle.removeByAngle puntos 150 = Some puntos /\
     forall i, (1 <= i <= length puntos - 2)%nat ->
       Angle.turning_angle (nth (i - 1) puntos (0, 0)) (nth i puntos (0, 0))
                           (nth (i + 1) puntos (0, 0)) = 180) /\
  (Angle.right_angle_turn a b c ->
     Angle.quarter_ccw a b c \/ Angle.quarter_cw a b c) /\
  (Angle.quarter_ccw a b c ->
     Angle.turning_angle a b c = 90 /\
     Angle.removeByAngle [a; b; c] 150 = Some [a; c]) /\
  (Angle.quarter_cw a b c ->
     Angle.turning_angle a b c = 270 /\
     Angle.removeByAngle [a; b; c] 150 = Some [a; b; c]).
Proof.
  split; [| split; [| split]].
  - intros Hu Hs Hlen. split; [apply (straight_kept u); auto; lia |].
    clear Hlen. revert Hs. induction puntos as [| p0 rest IH]; intros Hs i Hi.
    + simpl in Hi. lia.
    + destruct rest as [| p1 [| p2 tl]]; [simpl in Hi; lia .. |].
      destruct Hs as [(s & Hs0 & Hx1 & Hy1) Hrest].
      destruct (Nat.eq_dec i 1) as [-> | Hne].
      * destruct Hrest as [(t & Ht & Hx2 & Hy2) _].
        apply (straight_angle u p0 p1 p2 s t); assumption.
      * destruct i as [| [| i]]; [lia | lia |].
        specialize (IH Hrest (S i)).
        replace (S (S i) - 1)%nat with (S i) by lia.
        replace (S (S i) + 1)%nat with (S (S i + 1)) by lia.
        replace (S i - 1)%nat with i in IH by lia.
        cbn [nth] in *. destruct i; apply IH; simpl in *; lia.
  - apply right_angle_cases.
  - intros H. pose proof (quarter_ccw_angle _ _ _ H) as Hang.
    split; [exact Hang |].
    unfold Angle.removeByAngle, Angle.interior_scan. rewrite Hang.
    rewrite (proj2 (Rleb_false 150 90)) by lra. reflexivity.
  - intros H. pose proof (quarter_cw_angle _ _ _ H) as Hang.
    split; [exact Hang |].
    unfold Angle.removeByAngle, Angle.interior_scan. rewrite Hang.
    rewrite (proj2 (Rleb_true 150 270)) by lra. reflexivity.
Qed.

Lemma default_tolerance_boundary_witness :
  Angle.removeByAngle [(0, 0); (1, 0); (2, 0)] 150 =
    Some [(0, 0); (1, 0); (2, 0)] /\
  Angle.removeByAngle [(0, 0); (1, 0); (1, -1)] 150 =
    Some [(0, 0); (1, -1)].
Proof.
  pose proof (default_tolerance_boundary (1, 0) [(0, 0); (1, 0); (2, 0)]
                (0, 0) (1, 0) (1, -1)) as (Hline & _ & Hccw & _).
  split.
  - apply Hline.
    + intros E. apply (f_equal fst) in E. simpl in E. lra.
    + simpl. repeat split; try (exists 1; repeat split; lra).
    + simpl. lia.
  - apply Hccw. split.
    + intros E. apply (f_equal fst) in E. simpl in E. lra.
    + exists 1. simpl. repeat split; lra.
Defined.

(** ** Arrays: indices and the weight matrix as a table *)

Lemma py_int_grid (n : nat) (r : R) :
  0 <= r < INR n ->
  exists k, (k < n)%nat /\ Np.py_int r = Z.of_nat k.
Proof.
  intros [H0 Hn]. unfold Np.py_int.
  rewrite (proj2 (Rleb_true 0 r)) by assumption.
  destruct (base_Int_part r) as [Hle Hgt].
  assert (Hz : (0 <= Int_part r)%Z).
  { assert (IZR (-1) < IZR (Int_part r)) by (simpl; lra).
    apply lt_IZR in H. lia. }
  assert (Hlt : (Int_part r < Z.of_nat n)%Z).
  { apply lt_IZR. rewrite <- INR_IZR_INZ. lra. }
  exists (Z.to_nat (Int_part r)). split; lia.
Qed.

Lemma index_nat (n k : nat) :
  (k < n)%nat -> Np.index n (Z.of_nat k) = Ok k.
Proof.
  intros H. unfold Np.index.
  replace (0 <=? Z.of_nat k)%Z with true by (symmetry; apply Z.leb_le; lia).
  replace (Z.of_nat k <? Z.of_nat n)%Z with true
    by (symmetry; apply Z.ltb_lt; lia).
  simpl. now rewrite Nat2Z.id.
Qed.

Lemma get2_nat (m : Np.matrix) (i j : nat) :
  (i < length m)%nat -> (j < length (nth i m []))%nat ->
  Np.get2 m (Z.of_nat i) (Z.of_nat j) = Ok (Weights.cell m i j).
Proof.
  intros Hi Hj. unfold Np.get2.
  rewrite (index_nat _ _ Hi). cbn [bind].
  rewrite (index_nat _ _ Hj). reflexivity.
Qed.

Lemma fill_row_length f c n ci cj :
  length (Weights.fill_row f c n ci cj) = n.
Proof. revert cj. induction n; intros; simpl; [| rewrite IHn]; reflexivity. Qed.

Lemma fill_rows_length f c n ci :
  length (Weights.fill_rows f c n ci) = n.
Proof. revert ci. induction n; intros; simpl; [| rewrite IHn]; reflexivity. Qed.

Lemma fill_row_nth f c n ci cj j :
  (j < n)%nat ->
  nth j (Weights.fill_row f c n ci cj) 0 = Weights.weight_at f c ci (cj + INR j).
Proof.
  revert cj j. induction n as [| n IH]; intros cj j Hj; [lia |].
  destruct j as [| j].
  - simpl. f_equal. lra.
  - cbn [Weights.fill_row nth]. rewrite IH by lia. f_equal.
    rewrite S_INR. lra.
Qed.

Lemma fill_rows_nth f c n ci i :
  (i < n)%nat ->
  nth i (Weights.fill_rows f c n ci) [] = Weights.fill_row f c c (ci + INR i) 1.
Proof.
  revert ci i. induction n as [| n IH]; intros ci i Hi; [lia |].
  destruct i as [| i].
  - simpl. f_equal. lra.
  - cbn [Weights.fill_rows nth]. rewrite IH by lia. f_equal.
    rewrite S_INR. lra.
Qed.

Lemma computeWeights_rows kernel ppp :
  length (Weights.computeWeights kernel ppp) = (kernel * ppp)%nat.
Proof. apply fill_rows_length. Qed.

Lemma computeWeights_cols kernel ppp i :
  (i < kernel * ppp)%nat ->
  length (nth i (Weights.computeWeights kernel ppp) []) = (kernel * ppp)%nat.
Proof.
  intros Hi. unfold Weights.computeWeights.
  rewrite fill_rows_nth by assumption. apply fill_row_length.
Qed.

Lemma computeWeights_cell kernel ppp i j :
  (i < kernel * ppp)%nat -> (j < kernel * ppp)%nat ->
  Weights.cell (Weights.computeWeights kernel ppp) i j =
  Weights.weight_at (kernel * ppp) (kernel * ppp) (1 + INR i) (1 + INR j).
Proof.
  intros Hi Hj. unfold Weights.cell, Weights.computeWeights.
  rewrite fill_rows_nth, fill_row_nth by assumption. reflexivity.
Qed.

(** ** The error function approximation is positive where it is used *)

Lemma erfcc_pos x : 0 <= x -> 0 < Weights.erfcc x.
Proof.
  intros Hx. unfold Weights.erfcc. cbv zeta.
  rewrite (proj2 (Rleb_true 0 x)) by assumption.
  rewrite (Rabs_pos_eq x) by assumption.
  apply Rmult_lt_0_compat; [| apply exp_pos].
  apply Rdiv_lt_0_compat; lra.
Qed.

Lemma sqrt2_pos : 0 < sqrt 2.
Proof. apply sqrt_lt_R0. lra. Qed.

Lemma normcdf_arg d : - (- d - 0) / (3 * sqrt 2) = d / (3 * sqrt 2).
Proof. pose proof sqrt2_pos. field. lra. Qed.

Lemma weight_at_pos f c ci cj : 0 < Weights.weight_at f c ci cj.
Proof.
  unfold Weights.weight_at, Weights.normcdf. cbv zeta.
  rewrite normcdf_arg.
  set (d := sqrt _).
  assert (Hd : 0 <= d) by apply sqrt_pos.
  assert (Hz : 0 <= d / (3 * sqrt 2)).
  { pose proof sqrt2_pos. apply Rle_mult_inv_pos; lra. }
  pose proof (erfcc_pos _ Hz). rcmp.
Qed.

(** ** Branch selection: [mejor_curva_pendiente3] *)

Section Selection.

Variable coeffs : Type.
Variable polyval2d : R -> R -> coeffs -> R.

Local Abbreviation pendiente := (Extract.pendiente coeffs polyval2d).
Local Abbreviation pendientes_of := (Extract.pendientes_of coeffs polyval2d).
Local Abbreviation scan := (Extract.scan coeffs polyval2d).
Local Abbreviation score := (Extract.score coeffs polyval2d).
Local Abbreviation mejor_curva_pendiente3 :=
  (Extract.mejor_curva_pendiente3 coeffs polyval2d).

Lemma get2_cell mp i j w :
  Np.get2 mp i j = Ok w -> exists a b, w = Weights.cell mp a b.
Proof.
  unfold Np.get2. destruct (Np.index (length mp) i) as [r |]; [| discriminate].
  cbn [bind]. destruct (Np.index (length (nth r mp [])) j) as [c |];
    [| discriminate].
  cbn [bind]. intros [= <-]. now exists r, c.
Qed.

Lemma pendiente_nonneg dx dy mp resol par s :
  Weights.nonneg_matrix mp -> pendiente dx dy mp resol par = Ok s -> 0 <= s.
Proof.
  intros Hmp. unfold Extract.pendiente. cbv zeta.
  destruct (Reqb resol 0); [discriminate |].
  destruct (Np.get2 mp _ _) as [w |] eqn:E; [| discriminate].
  cbn [bind]. intros [= <-].
  destruct (get2_cell _ _ _ _ E) as (a & b & ->).
  apply Rmult_le_pos; [apply sqrt_pos | apply Hmp].
Qed.

Lemma pendientes_nonneg dx dy mp resol curva l :
  Weights.nonneg_matrix mp -> pendientes_of dx dy mp resol curva = Ok l ->
  Forall (fun s => 0 <= s) l.
Proof.
  intros Hmp. revert l. induction curva as [| par rest IH]; intros l.
  - intros [= <-]. constructor.
  - cbn [Extract.pendientes_of].
    destruct (Extract.pendiente coeffs polyval2d dx dy mp resol par)
      as [s |] eqn:Es; [| discriminate].
    cbn [bind].
    destruct (Extract.pendientes_of coeffs polyval2d dx dy mp resol rest)
      as [l' |] eqn:El; [| discriminate].
    cbn [bind]. intros [= <-]. constructor.
    + eapply pendiente_nonneg; eauto.
    + now apply IH.
Qed.

Lemma sum_nonneg l : Forall (fun s => 0 <= s) l -> 0 <= Np.sum l.
Proof.
  induction 1 as [| s l Hs _ IH]; unfold Np.sum in *; simpl; lra.
Qed.

Lemma score_nonneg dx dy mp resol curva s :
  Weights.nonneg_matrix mp -> score dx dy mp resol curva = Ok (Some s) -> 0 <= s.
Proof.
  intros Hmp. unfold Extract.score.
  destruct (Extract.pendientes_of coeffs polyval2d dx dy mp resol curva)
    as [l |] eqn:El; [| discriminate].
  cbn [bind]. intros [= Havg].
  pose proof (pendientes_nonneg _ _ _ _ _ _ Hmp El) as Hl.
  destruct l as [| a l]; [discriminate |].
  unfold Np.average in Havg. injection Havg as <-.
  apply Rle_mult_inv_pos; [exact (sum_nonneg (a :: l) Hl) |].
  pose proof (pos_INR (length l)). destruct (length l); lra.
Qed.

(** The scan returns the last position at which the running maximum is
    reached or passed. *)
Lemma scan_last_max dx dy mp resol v ss :
  Forall2 (fun curva s => score dx dy mp resol curva = Ok (Some s)) v ss ->
  forall i p_max cand,
  exists r, scan dx dy mp resol v i p_max cand = Ok r /\
    ((r = cand /\ forall j, (j < length ss)%nat -> nth j ss 0 < p_max) \/
     (exists k, (k < length ss)%nat /\ r = (i + Z.of_nat k)%Z /\
        p_max <= nth k ss 0 /\
        (forall j, (j < length ss)%nat -> nth j ss 0 <= nth k ss 0) /\
        (forall j, (k < j < length ss)%nat -> nth j ss 0 < nth k ss 0))).
Proof.
  induction 1 as [| curva s v ss Hs _ IH]; intros i p_max cand.
  - exists cand. split; [reflexivity |]. left. split; [reflexivity |].
    intros j Hj. simpl in Hj. lia.
  - cbn [Extract.scan].
    unfold Extract.score in Hs.
    destruct (Extract.pendientes_of coeffs polyval2d dx dy mp resol curva)
      as [l |]; [| discriminate].
    cbn [bind] in *. injection Hs as ->.
    destruct (Rleb p_max s) eqn:C;
      [apply Rleb_true in C | apply Rleb_false in C].
    + destruct (IH (i + 1)%Z s i) as (r & Hr & [[-> Hall] | Hk]).
      * exists i. split; [exact Hr |]. right. exists 0%nat.
        repeat split; simpl; try lia; try lra.
        -- intros [| j] Hj; [lra |]. left. apply Hall. lia.
        -- intros [| j] Hj; [lia |]. apply Hall. lia.
      * destruct Hk as (k & Hk & -> & Hge & Hmax & Hlater).
        exists (i + 1 + Z.of_nat k)%Z. split; [exact Hr |]. right.
        exists (S k). repeat split; simpl; try lia; try lra.
        -- intros [| j] Hj; [lra |]. apply Hmax. lia.
        -- intros [| j] Hj; [lia |]. apply Hlater. lia.
    + destruct (IH (i + 1)%Z p_max cand) as (r & Hr & [[-> Hall] | Hk]).
      * exists cand. split; [exact Hr |]. left. split; [reflexivity |].
        intros [| j] Hj; [simpl; lra |]. apply Hall. simpl in Hj. lia.
      * destruct Hk as (k & Hk & -> & Hge & Hmax & Hlater).
        exists (i + 1 + Z.of_nat k)%Z. split; [exact Hr |]. right.
        exists (S k). repeat split; simpl; try lia; try lra.
        -- intros [| j] Hj; [lra |]. apply Hmax. lia.
        -- intros [| j] Hj; [lia |]. apply Hlater. lia.
Qed.

Lemma selection_from_scores (v : list (list point)) (dx dy : coeffs)
    (mp : Np.matrix) (resol : R) (ss : list R) :
  v <> [] ->
  Weights.nonneg_matrix mp ->
  Forall2 (fun curva s => score dx dy mp resol curva = Ok (Some s)) v ss ->
  exists k, (k < length v)%nat /\
    mejor_curva_pendiente3 v dx dy mp resol = Ok (Z.of_nat k) /\
    (forall j, (j < length ss)%nat -> nth j ss 0 <= nth k ss 0) /\
    (forall j, (k < j < length ss)%nat -> nth j ss 0 < nth k ss 0).
Proof.
  intros Hv Hmp Hss.
  pose proof (Forall2_length Hss) as Hlen.
  destruct (scan_last_max dx dy mp resol v ss Hss 0%Z 0 (-1)%Z)
    as (r & Hr & [[_ Hall] | (k & Hk & -> & _ & Hmax & Hlater)]).
  - exfalso. destruct Hss as [| curva s v ss Hs Hrest]; [congruence |].
    specialize (Hall 0%nat ltac:(simpl; lia)). simpl in Hall.
    pose proof (score_nonneg _ _ _ _ _ _ Hmp Hs). lra.
  - exists k. split; [lia |]. split; [exact Hr |]. split; assumption.
Qed.

Lemma py_int_cell (n : nat) (resol t : R) :
  0 <= t / resol < INR n ->
  (Extract.grid_cell resol t < n)%nat /\
  Np.py_int (t / resol) = Z.of_nat (Extract.grid_cell resol t).
Proof.
  intros [H0 Hn]. unfold Np.py_int, Extract.grid_cell.
  rewrite (proj2 (Rleb_true 0 (t / resol))) by assumption.
  destruct (base_Int_part (t / resol)) as [Hle Hgt].
  assert (Hz : (0 <= Int_part (t / resol))%Z).
  { assert (IZR (-1) < IZR (Int_part (t / resol))) by (simpl; lra).
    apply lt_IZR in H. lia. }
  assert (Hlt : (Int_part (t / resol) < Z.of_nat n)%Z).
  { apply lt_IZR. rewrite <- INR_IZR_INZ. lra. }
  split; lia.
Qed.

(** On the grid of the weight matrix the value the loop appends for a
    vertex is its gradient magnitude times the weight at its cell. *)
Lemma pendiente_explicit (n : nat) dx dy mp resol par :
  resol <> 0 -> length mp = n ->
  (forall i, (i < n)%nat -> length (nth i mp []) = n) ->
  Extract.on_grid n resol par ->
  pendiente dx dy mp resol par
  = Ok (Extract.vertex_score coeffs polyval2d dx dy mp resol par).
Proof.
  intros Hr Hrows Hcols [Hx Hy]. unfold Extract.pendiente. cbv zeta.
  rewrite (proj2 (Reqb_false resol 0)) by assumption.
  destruct (py_int_cell n resol (fst par) Hx) as [Hi ->].
  destruct (py_int_cell n resol (snd par) Hy) as [Hj ->].
  rewrite get2_nat by (rewrite ?Hcols; lia).
  cbn [bind]. unfold Extract.vertex_score, Extract.gradient_magnitude.
  now rewrite !pow2_abs.
Qed.

Lemma pendientes_explicit (n : nat) dx dy mp resol curva :
  resol <> 0 -> length mp = n ->
  (forall i, (i < n)%nat -> length (nth i mp []) = n) ->
  Forall (Extract.on_grid n resol) curva ->
  pendientes_of dx dy mp resol curva
  = Ok (map (Extract.vertex_score coeffs polyval2d dx dy mp resol) curva).
Proof.
  intros Hr Hrows Hcols. induction 1 as [| par rest Hpar _ IH];
    [reflexivity |].
  cbn [Extract.pendientes_of map].
  rewrite (pendiente_explicit n) by assumption. cbn [bind].
  rewrite IH. reflexivity.
Qed.

Lemma score_explicit (n : nat) dx dy mp resol curva :
  resol <> 0 -> length mp = n ->
  (forall i, (i < n)%nat -> length (nth i mp []) = n) ->
  curva <> [] -> Forall (Extract.on_grid n resol) curva ->
  score dx dy mp resol curva
  = Ok (Some (Extract.mean_score coeffs polyval2d dx dy mp resol curva)).
Proof.
  intros Hr Hrows Hcols Hne Hgrid. unfold Extract.score.
  rewrite (pendientes_explicit n) by assumption. cbn [bind].
  unfold Extract.mean_score. destruct curva as [| par rest]; [congruence |].
  cbn [map Np.average length]. now rewrite length_map.
Qed.

Lemma scores_explicit (n : nat) dx dy mp resol v :
  resol <> 0 -> length mp = n ->
  (forall i, (i < n)%nat -> length (nth i mp []) = n) ->
  Forall (fun curva => curva <> [] /\
            Forall (Extract.on_grid n resol) curva) v ->
  Forall2 (fun curva s => score dx dy mp resol curva = Ok (Some s)) v
          (map (Extract.mean_score coeffs polyval2d dx dy mp resol) v).
Proof.
  intros Hr Hrows Hcols. induction 1 as [| curva rest [Hne Hgrid] _ IH].
  - constructor.
  - cbn [map]. constructor; [| exact IH]. now apply (score_explicit n).
Qed.

Lemma selection_by_mean_score (n : nat) (v : list (list point))
    (dx dy : coeffs) (mp : Np.matrix) (resol : R) :
  v <> [] -> resol <> 0 ->
  length mp = n ->
  (forall i, (i < n)%nat -> length (nth i mp []) = n) ->
  Weights.nonneg_matrix mp ->
  Forall (fun curva => curva <> [] /\
            Forall (Extract.on_grid n resol) curva) v ->
  exists k, (k < length v)%nat /\
    mejor_curva_pendiente3 v dx dy mp resol = Ok (Z.of_nat k) /\
    (forall j, (j < length v)%nat ->
       Extract.mean_score coeffs polyval2d dx dy mp resol (nth j v [])
       <= Extract.mean_score coeffs polyval2d dx dy mp resol (nth k v [])) /\
    (forall j, (k < j < length v)%nat ->
       Extract.mean_score coeffs polyval2d dx dy mp resol (nth j v [])
       < Extract.mean_score coeffs polyval2d dx dy mp resol (nth k v [])).
Proof.
  intros Hv Hr Hrows Hcols Hmp Hall.
  set (ms := Extract.mean_score coeffs polyval2d dx dy mp resol).
  destruct (selection_from_scores v dx dy mp resol (map ms v) Hv Hmp
              (scores_explicit n dx dy mp resol v Hr Hrows Hcols Hall))
    as (k & Hk & Hsel & Hmax & Hlater).
  rewrite length_map in Hmax, Hlater.
  assert (Hnth : forall j, (j < length v)%nat ->
                           nth j (map ms v) 0 = ms (nth j v [])).
  { intros j Hj. rewrite (nth_indep _ 0 (ms [])) by now rewrite length_map.
    apply map_nth. }
  exists k. split; [exact Hk |]. split; [exact Hsel |]. split.
  - intros j Hj. rewrite <- !Hnth by assumption. now apply Hmax.
  - intros j Hj. rewrite <- !Hnth by lia. now apply Hlater.
Qed.

(** C3 (amended): for a non-empty list of non-empty branches whose vertices
    lie on the grid of a non-negative n by n weight matrix, the selector
    returns the index k of a branch whose mean over vertices of (gradient
    magnitude of the fitted surface times the weight-matrix value at the
    vertex's cell) is highest, and every later branch has a strictly lower
    mean: among branches tied for the highest mean the last one is
    returned. *)
Theorem mejor_curva_last_of_best (n : nat) (v : list (list point))
    (dx dy : coeffs) (mp : Np.matrix) (resol : R) :
  v <> [] -> resol <> 0 ->
  length mp = n ->
  (forall i, (i < n)%nat -> length (nth i mp []) = n) ->
  Weights.nonneg_matrix mp ->
  Forall (fun curva => curva <> [] /\
            Forall (Extract.on_grid n resol) curva) v ->
  exists k, (k < length v)%nat /\
    mejor_curva_pendiente3 v dx dy mp resol = Ok (Z.of_nat k) /\
    (forall j, (j < length v)%nat ->
       Extract.mean_score coeffs polyval2d dx dy mp resol (nth j v [])
       <= Extract.mean_score coeffs polyval2d dx dy mp resol (nth k v [])) /\
    (forall j, (k < j < length v)%nat ->
       Extract.mean_score coeffs polyval2d dx dy mp resol (nth j v [])
       < Extract.mean_score coeffs polyval2d dx dy mp resol (nth k v [])).
Proof. apply selection_by_mean_score. Qed.

Lemma pendiente_on_grid kernel ppp dx dy resol par :
  resol <> 0 -> Extract.on_grid (kernel * ppp) resol par ->
  exists s, pendiente dx dy (Weights.computeWeights kernel ppp) resol par
            = Ok s.
Proof.
  intros Hr [Hx Hy]. unfold Extract.pendiente. cbv zeta.
  rewrite (proj2 (Reqb_false resol 0)) by assumption.
  destruct (py_int_grid _ _ Hx) as (i & Hi & ->).
  destruct (py_int_grid _ _ Hy) as (j & Hj & ->).
  rewrite get2_nat.
  - cbn [bind]. eexists. reflexivity.
  - now rewrite computeWeights_rows.
  - now rewrite computeWeights_cols.
Qed.

Lemma score_on_grid kernel ppp dx dy resol curva :
  resol <> 0 -> curva <> [] ->
  Forall (Extract.on_grid (kernel * ppp) resol) curva ->
  exists s, score dx dy (Weights.computeWeights kernel ppp) resol curva
            = Ok (Some s).
Proof.
  intros Hr Hne Hall. unfold Extract.score.
  assert (Hl : exists l, pendientes_of dx dy (Weights.computeWeights kernel ppp)
                           resol curva = Ok l /\ length l = length curva).
  { clear Hne. induction Hall as [| par rest Hpar _ IH].
    - exists []. split; reflexivity.
    - destruct (pendiente_on_grid kernel ppp dx dy resol par Hr Hpar)
        as (s & Hs).
      destruct IH as (l & Hl & Hlen).
      exists (s :: l). cbn [Extract.pendientes_of]. rewrite Hs. cbn [bind].
      rewrite Hl. cbn [bind]. split; [reflexivity | simpl; now rewrite Hlen]. }
  destruct Hl as (l & -> & Hlen). cbn [bind].
  destruct l as [| a l].
  - destruct curva; [congruence | discriminate].
  - eexists. reflexivity.
Qed.

Lemma computeWeights_nonneg kernel ppp :
  Weights.nonneg_matrix (Weights.computeWeights kernel ppp).
Proof.
  intros i j.
  destruct (lt_dec i (kernel * ppp)) as [Hi | Hi].
  - destruct (lt_dec j (kernel * ppp)) as [Hj | Hj].
    + rewrite computeWeights_cell by assumption. left. apply weight_at_pos.
    + unfold Weights.cell. rewrite (nth_overflow (nth i _ [])); [lra |].
      rewrite computeWeights_cols by assumption. lia.
  - unfold Weights.cell.
    rewrite (nth_overflow (Weights.computeWeights kernel ppp));
      [| rewrite computeWeights_rows; lia].
    destruct j; simpl; lra.
Qed.

Lemma selection_on_grid (kernel ppp : nat) (v : list (list point))
    (dx dy : coeffs) (resol : R) :
  resol <> 0 ->
  v <> [] ->
  Forall (fun curva => curva <> [] /\
            Forall (Extract.on_grid (kernel * ppp) resol) curva) v ->
  exists k, (k < length v)%nat /\
    mejor_curva_pendiente3 v dx dy (Weights.computeWeights kernel ppp) resol
      = Ok (Z.of_nat k) /\
    (Z.of_nat k =? -1)%Z = false /\
    Np.index (length v) (Z.of_nat k) = Ok k.
Proof.
  intros Hr Hv Hall.
  assert (Hss : exists ss,
            Forall2 (fun curva s =>
                       score dx dy (Weights.computeWeights kernel ppp) resol
                             curva = Ok (Some s)) v ss).
  { clear Hv. induction Hall as [| curva rest [Hne Hgrid] _ IH].
    - exists []. constructor.
    - destruct (score_on_grid kernel ppp dx dy resol curva Hr Hne Hgrid)
        as (s & Hs).
      destruct IH as (ss & Hss). exists (s :: ss). now constructor. }
  destruct Hss as (ss & Hss).
  destruct (selection_from_scores v dx dy _ resol ss Hv
              (computeWeights_nonneg kernel ppp) Hss) as (k & Hk & Hsel & _).
  exists k. repeat split; try assumption.
  - apply Z.eqb_neq. lia.
  - now apply index_nat.
Qed.

(** C10: with the weight matrix of the kernel, a non-empty list of
    non-empty branches whose vertices lie on the kernel grid makes the
    selector return, without raising, an index in [0, number of branches),
    so the caller's test for -1 fails and the branch is written. *)
Theorem candidate_in_range (kernel ppp : nat) (v : list (list point))
    (dx dy : coeffs) (resol : R) :
  resol <> 0 ->
  v <> [] ->
  Forall (fun curva => curva <> [] /\
            Forall (Extract.on_grid (kernel * ppp) resol) curva) v ->
  exists k, (k < length v)%nat /\
    mejor_curva_pendiente3 v dx dy (Weights.computeWeights kernel ppp) resol
      = Ok (Z.of_nat k) /\
    (Z.of_nat k =? -1)%Z = false /\
    Np.index (length v) (Z.of_nat k) = Ok k.
Proof. apply selection_on_grid. Qed.

End Selection.

(** *** The selector on two identical branches *)

Lemma half_on_grid : Extract.on_grid (1 * 1) 1 (1 / 2, 1 / 2).
Proof. unfold Extract.on_grid. simpl. lra. Qed.

Lemma twin_scores :
  exists s,
    Forall2 (fun curva s =>
               Extract.score unit unit_slope tt tt
                 (Weights.computeWeights 1 1) 1 curva = Ok (Some s))
            twin_branches [s; s].
Proof.
  destruct (score_on_grid unit unit_slope 1 1 tt tt 1 [(1 / 2, 1 / 2)])
    as (s & Hs).
  - lra.
  - congruence.
  - constructor; [apply half_on_grid | constructor].
  - exists s. repeat constructor; exact Hs.
Qed.

(** C3 (counterexample): two branches with the same vertices have the same
    mean score, and the selector returns index 1, the one seen last. *)
Lemma tie_returns_last :
  Extract.score unit unit_slope tt tt (Weights.computeWeights 1 1) 1
                (nth 0 twin_branches []) =
  Extract.score unit unit_slope tt tt (Weights.computeWeights 1 1) 1
                (nth 1 twin_branches []) /\
  Extract.mejor_curva_pendiente3 unit unit_slope twin_branches tt tt
    (Weights.computeWeights 1 1) 1 = Ok 1%Z.
Proof.
  split; [reflexivity |].
  destruct twin_scores as (s & Hss).
  destruct (selection_from_scores unit unit_slope twin_branches tt tt
              (Weights.computeWeights 1 1) 1 [s; s])
    as (k & Hk & Hsel & _ & Hlater).
  - discriminate.
  - apply computeWeights_nonneg.
  - exact Hss.
  - destruct k as [| [| k]]; [| exact Hsel | simpl in Hk; lia].
    specialize (Hlater 1%nat ltac:(simpl; lia)). simpl in Hlater. lra.
Qed.

Lemma mejor_curva_last_of_best_witness :
  exists k, (k < length twin_branches)%nat /\
    Extract.mejor_curva_pendiente3 unit unit_slope twin_branches tt tt
      (Weights.computeWeights 1 1) 1 = Ok (Z.of_nat k) /\
    forall j, (j < length twin_branches)%nat ->
      Extract.mean_score unit unit_slope tt tt (Weights.computeWeights 1 1) 1
                         (nth j twin_branches [])
      <= Extract.mean_score unit unit_slope tt tt
                            (Weights.computeWeights 1 1) 1
                            (nth k twin_branches []).
Proof.
  destruct (mejor_curva_last_of_best unit unit_slope 1 twin_branches tt tt
              (Weights.computeWeights 1 1) 1)
    as (k & Hk & Hsel & Hmax & _).
  - discriminate.
  - lra.
  - reflexivity.
  - intros i Hi. now apply (computeWeights_cols 1 1).
  - apply computeWeights_nonneg.
  - assert (Hb : [(1 / 2, 1 / 2)] <> [] /\
                 Forall (Extract.on_grid 1 1) [(1 / 2, 1 / 2)]).
    { split; [discriminate |].
      constructor; [apply half_on_grid | constructor]. }
    unfold twin_branches.
    constructor; [exact Hb |]. constructor; [exact Hb | constructor].
  - exists k. split; [exact Hk |]. split; [exact Hsel | exact Hmax].
Defined.

Lemma candidate_in_range_witness :
  exists k, (k < 1)%nat /\
    Extract.mejor_curva_pendiente3 unit unit_slope [[(30, 30)]] tt tt
      (Weights.computeWeights 3 4) 5 = Ok (Z.of_nat k).
Proof.
  destruct (candidate_in_range unit unit_slope 3 4 [[(30, 30)]] tt tt 5)
    as (k & Hk & Hsel & _).
  - lra.
  - discriminate.
  - constructor; [| constructor]. split; [discriminate |].
    constructor; [| constructor]. unfold Extract.on_grid. simpl. lra.
  - exists k. split; assumption.
Defined.

(** ** World coordinates: [escribeCoords] *)

Lemma py_int_half (kernel : nat) :
  Np.py_int (INR kernel / 2) = Z.of_nat (kernel / 2).
Proof.
  unfold Np.py_int.
  pose proof (pos_INR kernel) as Hk.
  rewrite (proj2 (Rleb_true 0 (INR kernel / 2))) by lra.
  symmetry. apply Int_part_spec.
  pose proof (Nat.div_mod_eq kernel 2) as Hdm.
  pose proof (Nat.mod_upper_bound kernel 2 ltac:(lia)) as Hm.
  rewrite <- INR_IZR_INZ.
  assert (E : INR kernel = 2 * INR (kernel / 2) + INR (kernel mod 2)).
  { rewrite Hdm at 1. rewrite plus_INR, mult_INR. simpl. lra. }
  assert (0 <= INR (kernel mod 2) <= 1).
  { split; [apply pos_INR |]. change 1 with (INR 1). apply le_INR. lia. }
  lra.
Qed.

Lemma escribeCoords_records (linea : list point) (ws : list R)
    (xmin ymax resol_orig resol : R) (wm : Np.matrix) (fil col kernel : nat) :
  resol <> 0 ->
  Forall2 (fun par w =>
             Np.get2 wm (Np.py_int (fst par / resol))
                        (Np.py_int (snd par / resol)) = Ok w) linea ws ->
  forall output_file,
  Extract.escribeCoords (map fst linea) (map snd linea) xmin ymax resol_orig
                        resol wm fil col kernel output_file =
  (output_file ++
     map (fun pw => Extract.world_record xmin ymax resol_orig fil col kernel
                                         (fst pw) (snd pw))
         (combine linea ws),
   Ok tt).
Proof.
  intros Hr. induction 1 as [| par w linea ws Hw _ IH]; intros output_file.
  - simpl. now rewrite app_nil_r.
  - cbn [map Extract.escribeCoords combine].
    rewrite (proj2 (Reqb_false resol 0)) by assumption.
    rewrite Hw, IH, <- app_assoc. cbn [app fst snd].
    unfold Extract.world_record. rewrite py_int_half.
    rewrite !minus_IZR, <- !INR_IZR_INZ. reflexivity.
Qed.

Lemma lookups_are_cells (n : nat) (resol : R) (wm : Np.matrix)
    (linea : list point) :
  length wm = n ->
  (forall i, (i < n)%nat -> length (nth i wm []) = n) ->
  Forall (Extract.on_grid n resol) linea ->
  Forall2 (fun par w =>
             Np.get2 wm (Np.py_int (fst par / resol))
                        (Np.py_int (snd par / resol)) = Ok w)
          linea
          (map (fun par => Weights.cell wm (Extract.grid_cell resol (fst par))
                                           (Extract.grid_cell resol (snd par)))
               linea).
Proof.
  intros Hrows Hcols. induction 1 as [| par linea [Hx Hy] _ IH].
  - constructor.
  - cbn [map]. constructor; [| exact IH].
    destruct (py_int_cell n resol (fst par) Hx) as [Hi ->].
    destruct (py_int_cell n resol (snd par) Hy) as [Hj ->].
    apply get2_nat; rewrite ?Hcols; lia.
Qed.

Lemma map_combine_map (A B C : Type) (F : A -> B -> C) (g : A -> B)
    (l : list A) :
  map (fun pw => F (fst pw) (snd pw)) (combine l (map g l))
  = map (fun a => F a (g a)) l.
Proof.
  induction l as [| a l IH]; [reflexivity |].
  cbn [map combine fst snd]. now rewrite IH.
Qed.

Lemma half_of_odd (kernel : nat) :
  Nat.odd kernel = true -> INR (kernel / 2) = (INR kernel - 1) / 2.
Proof.
  intros Hodd. pose proof (Nat.div_mod_eq kernel 2) as Hdm.
  rewrite <- Nat.bit0_mod in Hdm. rewrite Nat.bit0_odd, Hodd in Hdm.
  assert (E : INR kernel = 2 * INR (kernel / 2) + 1).
  { rewrite Hdm at 1. rewrite plus_INR, mult_INR. simpl. lra. }
  lra.
Qed.

Lemma escribeCoords_cells (n : nat) (linea : list point)
    (xmin ymax resol_orig resol : R) (wm : Np.matrix) (fil col kernel : nat)
    (output_file : list line) :
  resol <> 0 ->
  length wm = n ->
  (forall i, (i < n)%nat -> length (nth i wm []) = n) ->
  Forall (Extract.on_grid n resol) linea ->
  Extract.escribeCoords (map fst linea) (map snd linea) xmin ymax resol_orig
                        resol wm fil col kernel output_file =
  (output_file ++
     map (fun par =>
            (xmin + (INR col - INR (kernel / 2)) * resol_orig + fst par,
             ymax - (INR fil - INR (kernel / 2)) * resol_orig - snd par,
             Weights.cell wm (Extract.grid_cell resol (fst par))
                             (Extract.grid_cell resol (snd par))))
         linea,
   Ok tt).
Proof.
  intros Hr Hrows Hcols Hgrid.
  rewrite (escribeCoords_records linea _ xmin ymax resol_orig resol wm fil col
             kernel Hr (lookups_are_cells n resol wm linea Hrows Hcols Hgrid)).
  rewrite (map_combine_map _ _ _
             (Extract.world_record xmin ymax resol_orig fil col kernel)).
  reflexivity.
Qed.

(** C9 (amended): for a branch whose vertices lie on the grid of an n by n
    weight matrix, escribeCoords appends, for each vertex (x, y) in order,
    the record (xmin + (col - h) * resol_orig + x,
    ymax - (fil - h) * resol_orig - y, w), where w is the entry of the
    weight matrix at row floor(x / resol), column floor(y / resol), and h is
    the whole part of kernel / 2: (kernel - 1) / 2 for an odd kernel, not
    kernel / 2. *)
Theorem escribeCoords_world_coordinates (n : nat) (linea : list point)
    (xmin ymax resol_orig resol : R) (wm : Np.matrix) (fil col kernel : nat)
    (output_file : list line) :
  resol <> 0 ->
  length wm = n ->
  (forall i, (i < n)%nat -> length (nth i wm []) = n) ->
  Forall (Extract.on_grid n resol) linea ->
  Nat.odd kernel = true ->
  Extract.escribeCoords (map fst linea) (map snd linea) xmin ymax resol_orig
                        resol wm fil col kernel output_file =
  (output_file ++
     map (fun par =>
            (xmin + (INR col - (INR kernel - 1) / 2) * resol_orig + fst par,
             ymax - (INR fil - (INR kernel - 1) / 2) * resol_orig - snd par,
             Weights.cell wm (Extract.grid_cell resol (fst par))
                             (Extract.grid_cell resol (snd par))))
         linea,
   Ok tt).
Proof.
  intros Hr Hrows Hcols Hgrid Hodd.
  rewrite (escribeCoords_cells n) by assumption.
  now rewrite (half_of_odd kernel Hodd).
Qed.

Lemma get2_on_grid kernel ppp resol par :
  Extract.on_grid (kernel * ppp) resol par ->
  exists w, Np.get2 (Weights.computeWeights kernel ppp)
                    (Np.py_int (fst par / resol))
                    (Np.py_int (snd par / resol)) = Ok w.
Proof.
  intros [Hx Hy].
  destruct (py_int_grid _ _ Hx) as (i & Hi & ->).
  destruct (py_int_grid _ _ Hy) as (j & Hj & ->).
  rewrite get2_nat.
  - eexists. reflexivity.
  - now rewrite computeWeights_rows.
  - now rewrite computeWeights_cols.
Qed.

Lemma lookups_on_grid kernel ppp resol linea :
  Forall (Extract.on_grid (kernel * ppp) resol) linea ->
  exists ws,
    Forall2 (fun par w =>
               Np.get2 (Weights.computeWeights kernel ppp)
                       (Np.py_int (fst par / resol))
                       (Np.py_int (snd par / resol)) = Ok w) linea ws.
Proof.
  induction 1 as [| par linea Hpar _ IH].
  - exists []. constructor.
  - destruct (get2_on_grid kernel ppp resol par Hpar) as (w & Hw).
    destruct IH as (ws & Hws). exists (w :: ws). now constructor.
Qed.

Lemma thirty_on_grid : Extract.on_grid (3 * 4) 5 (30, 30).
Proof. unfold Extract.on_grid. simpl. lra. Qed.

Lemma escribeCoords_world_coordinates_witness :
  Extract.escribeCoords (map fst [(30, 30)]) (map snd [(30, 30)])
    500000 4000000 20 5 (Weights.computeWeights 3 4) 100 200 3 [] =
  ([] ++
     map (fun par =>
            (500000 + (INR 200 - (INR 3 - 1) / 2) * 20 + fst par,
             4000000 - (INR 100 - (INR 3 - 1) / 2) * 20 - snd par,
             Weights.cell (Weights.computeWeights 3 4)
                          (Extract.grid_cell 5 (fst par))
                          (Extract.grid_cell 5 (snd par))))
         [(30, 30)],
   Ok tt).
Proof.
  apply (escribeCoords_world_coordinates (3 * 4) [(30, 30)] 500000 4000000
           20 5 (Weights.computeWeights 3 4) 100 200 3 []).
  - lra.
  - apply computeWeights_rows.
  - intros i Hi. now apply computeWeights_cols.
  - constructor; [apply thirty_on_grid | constructor].
  - reflexivity.
Defined.

(** C9 (counterexample): with kernel 3 the record written for the vertex
    (30, 30) of the pixel at row 100, column 200 has x = 500000 +
    (200 - 1) * 20 + 30, one half pixel away from the claim's
    500000 + (200 - 3/2) * 20 + 30. *)
Lemma written_record_half_pixel_off :
  exists w,
    Extract.escribeCoords [30] [30] 500000 4000000 20 5
      (Weights.computeWeights 3 4) 100 200 3 []
    = ([(500000 + (200 - 1) * 20 + 30, 4000000 - (100 - 1) * 20 - 30, w)],
       Ok tt) /\
    (500000 + (200 - 1) * 20 + 30, 4000000 - (100 - 1) * 20 - 30, w)
    <> Extract.spec_record 500000 4000000 20 100 200 3 (30, 30) w /\
    fst (fst (Extract.spec_record 500000 4000000 20 100 200 3 (30, 30) w))
    - (500000 + (200 - 1) * 20 + 30) = - (20 / 2).
Proof.
  exists (Weights.cell (Weights.computeWeights 3 4)
                       (Extract.grid_cell 5 30) (Extract.grid_cell 5 30)).
  split; [| split].
  - change [30] with (map fst [(30, 30)]) at 1.
    change [30] with (map snd [(30, 30)]).
    rewrite (escribeCoords_cells (3 * 4));
      [| lra | apply computeWeights_rows
       | intros i Hi; now apply computeWeights_cols
       | constructor; [apply thirty_on_grid | constructor]].
    cbn [app map fst snd]. rewrite !INR_IZR_INZ. reflexivity.
  - unfold Extract.spec_record. intros E.
    apply (f_equal (fun r : line => fst (fst r))) in E. simpl in E. lra.
  - unfold Extract.spec_record. simpl. lra.
Qed.

(** ** The scan of the scene: [extractPoints] *)

Lemma mask_at_value (pl_data : list (list Z)) (f c : nat) (valor : Z) :
  Extract.mask_at pl_data f c = Ok valor ->
  nth c (nth f pl_data []) 0%Z = valor.
Proof.
  unfold Extract.mask_at.
  destruct (nth_error pl_data f) as [row |] eqn:Ef; [| discriminate].
  destruct (nth_error row c) as [x |] eqn:Ec; [| discriminate].
  intros [= <-]. rewrite (nth_error_nth _ _ _ Ef).
  now apply nth_error_nth.
Qed.

Lemma mask_at_shape (rows columns : nat) (pl_data : list (list Z))
    (f c : nat) :
  Extract.mask_shape rows columns pl_data ->
  (f < rows)%nat -> (c < columns)%nat ->
  Extract.mask_at pl_data f c = Ok (nth c (nth f pl_data []) 0%Z).
Proof.
  intros [Hrows Hcols] Hf Hc. unfold Extract.mask_at.
  destruct (nth_error pl_data f) as [row |] eqn:Ef.
  - assert (Hrow : length row = columns).
    { rewrite Forall_forall in Hcols. apply Hcols.
      eapply nth_error_In; eauto. }
    destruct (nth_error row c) as [x |] eqn:Ec.
    + rewrite (nth_error_nth _ _ _ Ef). now rewrite (nth_error_nth _ _ _ Ec).
    + apply nth_error_None in Ec. lia.
  - apply nth_error_None in Ef. lia.
Qed.

Section Scene.

Variable coeffs : Type.
Variable polyval2d : R -> R -> coeffs -> R.
Variable kernel_fit : nat -> nat -> Extract.pixel_fit coeffs.

Variable pl_data : list (list Z).
Variables minXimage maxYimage resol_orig resol : R.
Variables kernel ppp : nat.

Hypothesis resol_nonzero : resol <> 0.
Hypothesis fits : Extract.fits_on_grid coeffs kernel_fit kernel ppp resol.

Local Abbreviation wm := (Weights.computeWeights kernel ppp).
Local Abbreviation process_pixel :=
  (Extract.process_pixel coeffs polyval2d kernel_fit minXimage maxYimage
     resol_orig resol wm kernel).
Local Abbreviation scan_columns :=
  (Extract.scan_columns coeffs polyval2d kernel_fit pl_data minXimage
     maxYimage resol_orig resol wm kernel).
Local Abbreviation scan_rows :=
  (Extract.scan_rows coeffs polyval2d kernel_fit pl_data minXimage
     maxYimage resol_orig resol wm kernel).
Local Abbreviation has_contour := (Extract.has_contour coeffs kernel_fit).
Local Abbreviation white := (Extract.white pl_data).

Lemma process_pixel_ok nf nc file_coord :
  exists extra,
    process_pixel nf nc file_coord = (file_coord ++ extra, Ok tt) /\
    (extra <> [] <-> has_contour nf nc = true).
Proof.
  unfold Extract.process_pixel, Extract.has_contour.
  pose proof (fits nf nc) as Hfit.
  destruct (Extract.fit_v coeffs (kernel_fit nf nc)) as [[| curva v] |].
  - exists []. rewrite app_nil_r. simpl. split; [reflexivity |].
    split; [congruence | discriminate].
  - specialize (Hfit _ eq_refl).
    destruct (selection_on_grid coeffs polyval2d kernel ppp (curva :: v)
                (Extract.fit_dx coeffs (kernel_fit nf nc))
                (Extract.fit_dy coeffs (kernel_fit nf nc)) resol
                resol_nonzero ltac:(discriminate) Hfit)
      as (k & Hk & Hsel & Hneq & Hidx).
    change (length (curva :: v) =? 0)%nat with false. cbv iota.
    rewrite Hsel, Hneq, Hidx.
    assert (Hin : In (nth k (curva :: v) []) (curva :: v))
      by (apply nth_In; exact Hk).
    rewrite Forall_forall in Hfit. destruct (Hfit _ Hin) as [Hne Hgrid].
    destruct (lookups_on_grid kernel ppp resol _ Hgrid) as (ws & Hws).
    rewrite (escribeCoords_records _ ws) by assumption.
    eexists. split; [reflexivity |]. split; [reflexivity |]. intros _.
    pose proof (Forall2_length Hws) as Hlen.
    destruct (nth k (curva :: v) []) as [| par linea]; [congruence |].
    destruct ws as [| w ws]; [discriminate |]. discriminate.
  - exists []. rewrite app_nil_r. split; [reflexivity |].
    split; [congruence | discriminate].
Qed.

Lemma scan_columns_ok f cs wp file_coord :
  (forall c, In c cs ->
     Extract.mask_at pl_data f c = Ok (nth c (nth f pl_data []) 0%Z)) ->
  exists extra,
    scan_columns f cs (wp, file_coord) =
      ((wp || existsb (white f) cs, file_coord ++ extra), Ok tt) /\
    (extra <> [] <->
     existsb (fun c => white f c && has_contour f c) cs = true).
Proof.
  revert wp file_coord. induction cs as [| c cs IH];
    intros wp file_coord Hread.
  - exists []. rewrite app_nil_r, orb_false_r. split; [reflexivity |].
    split; [congruence | discriminate].
  - cbn [Extract.scan_columns existsb]. unfold Extract.white at 1 3.
    rewrite (Hread c (or_introl eq_refl)).
    assert (Hrest : forall c', In c' cs ->
              Extract.mask_at pl_data f c'
              = Ok (nth c' (nth f pl_data []) 0%Z))
      by (intros c' Hc'; apply Hread; now right).
    destruct (nth c (nth f pl_data []) 0 =? 255)%Z.
    + cbn [snd].
      destruct (process_pixel_ok f c file_coord) as (e1 & -> & He1).
      destruct (IH true (file_coord ++ e1) Hrest) as (e2 & -> & He2).
      exists (e1 ++ e2). rewrite app_assoc, orb_true_r. cbn [orb andb].
      split; [reflexivity |]. rewrite orb_true_iff, <- He1, <- He2.
      split.
      * intros H. destruct e1; [right; exact H | left; discriminate].
      * intros [H | H] E; apply app_eq_nil in E; destruct E; auto.
    + destruct (IH wp file_coord Hrest) as (e2 & -> & He2).
      exists e2. cbn [orb andb]. split; [reflexivity | exact He2].
Qed.

Lemma scan_rows_ok fs cs wp file_coord :
  (forall f c, In f fs -> In c cs ->
     Extract.mask_at pl_data f c = Ok (nth c (nth f pl_data []) 0%Z)) ->
  exists extra,
    scan_rows fs cs (wp, file_coord) =
      ((wp || existsb (fun f => existsb (white f) cs) fs,
        file_coord ++ extra), Ok tt) /\
    (extra <> [] <->
     existsb (fun f => existsb (fun c => white f c && has_contour f c) cs) fs
       = true).
Proof.
  revert wp file_coord. induction fs as [| f fs IH];
    intros wp file_coord Hread.
  - exists []. rewrite app_nil_r, orb_false_r. split; [reflexivity |].
    split; [congruence | discriminate].
  - cbn [Extract.scan_rows existsb].
    destruct (scan_columns_ok f cs wp file_coord) as (e1 & -> & He1).
    { intros c Hc. apply Hread; [now left | exact Hc]. }
    destruct (IH (wp || existsb (white f) cs) (file_coord ++ e1))
      as (e2 & -> & He2).
    { intros f' c Hf' Hc. apply Hread; [now right | exact Hc]. }
    exists (e1 ++ e2). rewrite app_assoc, orb_assoc.
    split; [reflexivity |]. rewrite orb_true_iff, <- He1, <- He2.
    split.
    + intros H. destruct e1; [right; exact H | left; discriminate].
    + intros [H | H] E; apply app_eq_nil in E; destruct E; auto.
Qed.

End Scene.

Lemma in_range a b x : In x (Extract.range a b) <-> (a <= x < b)%nat.
Proof. unfold Extract.range. rewrite in_seq. lia. Qed.

Lemma extractPoints_outcome (coeffs : Type)
    (polyval2d : R -> R -> coeffs -> R)
    (kernel_fit : nat -> nat -> Extract.pixel_fit coeffs)
    (pl_data : list (list Z)) (rows columns : nat)
    (minXimage maxYimage resol_orig : R) (kernel ppp : nat) :
  Extract.mask_shape rows columns pl_data ->
  resol_orig / INR ppp <> 0 ->
  Extract.fits_on_grid coeffs kernel_fit kernel ppp (resol_orig / INR ppp) ->
  exists file_coord flag,
    Extract.extractPoints coeffs polyval2d kernel_fit pl_data rows columns
      minXimage maxYimage resol_orig kernel ppp = (file_coord, Ok flag) /\
    (flag = true <->
     exists f c, Extract.inside rows columns f c /\
                 Extract.white pl_data f c = true) /\
    (file_coord <> [] <->
     exists f c, Extract.inside rows columns f c /\
                 Extract.white pl_data f c = true /\
                 Extract.has_contour coeffs kernel_fit f c = true).
Proof.
  intros Hshape Hr Hfits. unfold Extract.extractPoints. cbv zeta.
  destruct (scan_rows_ok coeffs polyval2d kernel_fit pl_data minXimage
              maxYimage resol_orig (resol_orig / INR ppp) kernel ppp Hr Hfits
              (Extract.range 10 (rows - 10)) (Extract.range 10 (columns - 10))
              false []) as (extra & -> & Hextra).
  { intros f c Hf Hc. apply in_range in Hf, Hc.
    apply (mask_at_shape rows columns); [exact Hshape | lia | lia]. }
  cbn [orb app].
  set (b := existsb (fun f => existsb (Extract.white pl_data f)
                                 (Extract.range 10 (columns - 10)))
                    (Extract.range 10 (rows - 10))).
  exists extra, b.
  split; [now destruct b |]. subst b. split.
  - rewrite existsb_exists. split.
    + intros (f & Hf & Hc). apply existsb_exists in Hc.
      destruct Hc as (c & Hc & Hw). exists f, c.
      apply in_range in Hf, Hc. unfold Extract.inside. auto.
    + intros (f & c & [Hf Hc] & Hw). exists f.
      split; [now apply in_range |]. apply existsb_exists. exists c.
      split; [now apply in_range | exact Hw].
  - rewrite Hextra, existsb_exists. split.
    + intros (f & Hf & Hc). apply existsb_exists in Hc.
      destruct Hc as (c & Hc & Hw). apply andb_true_iff in Hw.
      exists f, c. apply in_range in Hf, Hc. unfold Extract.inside. tauto.
    + intros (f & c & [Hf Hc] & Hw & Hh). exists f.
      split; [now apply in_range |]. apply existsb_exists. exists c.
      split; [now apply in_range |]. now rewrite Hw, Hh.
Qed.

(** C1 (what the code does): on a mask of the band's shape, when every fit
    returns branches on the kernel grid, extractPoints returns true exactly
    when some pixel inside the 10-pixel margin has mask value 255, whether
    or not a point was produced from it, and false otherwise; records are
    written exactly when one of those pixels has at least one contour
    branch.  A scene with a rough-line pixel and no contour therefore gives
    true with an empty file, where the claim asks for false. *)
Theorem extractPoints_flag (coeffs : Type)
    (polyval2d : R -> R -> coeffs -> R)
    (kernel_fit : nat -> nat -> Extract.pixel_fit coeffs)
    (pl_data : list (list Z)) (rows columns : nat)
    (minXimage maxYimage resol_orig : R) (kernel ppp : nat) :
  Extract.mask_shape rows columns pl_data ->
  resol_orig / INR ppp <> 0 ->
  Extract.fits_on_grid coeffs kernel_fit kernel ppp (resol_orig / INR ppp) ->
  exists file_coord flag,
    Extract.extractPoints coeffs polyval2d kernel_fit pl_data rows columns
      minXimage maxYimage resol_orig kernel ppp = (file_coord, Ok flag) /\
    (flag = true <->
     exists f c, Extract.inside rows columns f c /\
                 Extract.white pl_data f c = true) /\
    (file_coord <> [] <->
     exists f c, Extract.inside rows columns f c /\
                 Extract.white pl_data f c = true /\
                 Extract.has_contour coeffs kernel_fit f c = true).
Proof. apply extractPoints_outcome. Qed.

Lemma twenty_over_four : 20 / INR 4 <> 0.
Proof. simpl. lra. Qed.

Lemma no_contour_fits kernel ppp resol :
  Extract.fits_on_grid unit no_contour_fit kernel ppp resol.
Proof. intros f c v [= <-]. constructor. Qed.

Lemma centre_inside : Extract.inside 21 21 10 10.
Proof. unfold Extract.inside. lia. Qed.

Lemma lone_pixel_mask_shape : Extract.mask_shape 21 21 lone_pixel_mask.
Proof. split; [reflexivity |]. unfold lone_pixel_mask. repeat constructor. Qed.

(** C1 (failing input): on a 21 by 21 scene whose centre pixel is the only
    rough-line pixel and whose fit finds no contour, extractPoints writes
    no record and returns true. *)
Lemma true_with_empty_output :
  Extract.extractPoints unit unit_slope no_contour_fit lone_pixel_mask
    21 21 0 0 20 3 4 = ([], Ok true).
Proof.
  destruct (extractPoints_outcome unit unit_slope no_contour_fit
              lone_pixel_mask 21 21 0 0 20 3 4 lone_pixel_mask_shape
              twenty_over_four (no_contour_fits 3 4 _))
    as (file_coord & flag & -> & Hflag & Hfile).
  assert (Hf : flag = true).
  { apply Hflag. exists 10%nat, 10%nat. split; [apply centre_inside |].
    reflexivity. }
  assert (Hnil : file_coord = []).
  { destruct file_coord as [| l rest]; [reflexivity |]. exfalso.
    destruct (proj1 Hfile ltac:(discriminate)) as (f & c & _ & _ & Hc).
    discriminate Hc. }
  now rewrite Hf, Hnil.
Qed.

Lemma extractPoints_flag_witness :
  exists file_coord,
    Extract.extractPoints unit unit_slope one_vertex_fit lone_pixel_mask
      21 21 0 0 20 3 4 = (file_coord, Ok true) /\ file_coord <> [].
Proof.
  destruct (extractPoints_flag unit unit_slope one_vertex_fit
              lone_pixel_mask 21 21 0 0 20 3 4 lone_pixel_mask_shape
              twenty_over_four)
    as (file_coord & flag & E & Hflag & Hfile).
  - intros f c v [= <-]. constructor; [| constructor].
    split; [discriminate |]. constructor; [| constructor].
    unfold Extract.on_grid. simpl. lra.
  - exists file_coord.
    assert (Hf : flag = true).
    { apply Hflag. exists 10%nat, 10%nat. split; [apply centre_inside |].
      reflexivity. }
    rewrite Hf in E. split; [exact E |].
    apply Hfile. exists 10%nat, 10%nat.
    split; [apply centre_inside |]. split; reflexivity.
Defined.

(** ** Point cleaning: [cleanPoints2] *)

Section CleaningFacts.

Variable Delaunay : list point -> option (list (nat * nat * nat)).
Variable computeLST
  : list (nat * nat * nat) -> list point -> option (list nat).

Lemma guard_nonempty (points : list point) :
  Clean.guard points = true <-> points <> [].
Proof.
  unfold Clean.guard, Clean.ge4. rewrite length_map.
  destruct points; simpl; split; congruence.
Qed.

Lemma lineas_of_some (lst : list nat) (puntos : list point) :
  Forall (fun iden => (iden < length puntos)%nat) lst ->
  exists lineas, Clean.lineas_of lst puntos = Some lineas /\
                 length lineas = length lst.
Proof.
  induction 1 as [| iden lst Hi _ IH].
  - exists []. split; reflexivity.
  - destruct IH as (l & Hl & Hlen).
    destruct (nth_error puntos iden) as [pt |] eqn:E.
    + exists (pt :: l). cbn [Clean.lineas_of]. rewrite E, Hl.
      split; [reflexivity | simpl; now rewrite Hlen].
    + apply nth_error_None in E. lia.
Qed.

Lemma removeByAngle_nonempty (lineas : list point) (tol : R) :
  lineas <> [] ->
  exists pts, Angle.removeByAngle lineas tol = Some pts /\ pts <> [].
Proof.
  destruct lineas as [| p0 rest]; [congruence |]. intros _.
  eexists. split; [reflexivity | discriminate].
Qed.

(** C2 (the code at a group of fewer than 4 points): the test
    [len(points >= 4)] passes for every non-empty group, so when the
    triangulation of a 3-point group and the path search succeed, the group
    is cleaned and emitted as points and as a line. *)
Theorem small_group_emitted (group : list point) (identifier : Z)
    (tol_rba : option R) (lista_tri : list (nat * nat * nat))
    (lst : list nat) :
  length group = 3%nat ->
  Delaunay group = Some lista_tri ->
  computeLST lista_tri group = Some lst ->
  lst <> [] ->
  Forall (fun iden => (iden < length group)%nat) lst ->
  Clean.guard group = true /\
  exists clean_points,
    clean_points <> [] /\
    Clean.cleanPoints2 Delaunay computeLST [group] [identifier] tol_rba =
      [(clean_points, identifier)] /\
    Clean.makePointShp [(clean_points, identifier)] <> [] /\
    Clean.makeLineShp [(clean_points, identifier)] =
      [(clean_points, identifier)].
Proof.
  intros Hlen Htri Hlst Hne Hidx.
  assert (Hg : Clean.guard group = true).
  { apply guard_nonempty. destruct group; [discriminate | congruence]. }
  split; [exact Hg |].
  destruct (lineas_of_some lst group Hidx) as (lineas & Hl & Hll).
  assert (Hlne : lineas <> []).
  { destruct lineas; [| congruence]. destruct lst; [congruence | discriminate]. }
  assert (Hclean : exists pts,
             Clean.cleanPointsByAngle lst group tol_rba = Some pts /\
             pts <> []).
  { unfold Clean.cleanPointsByAngle. rewrite Hl.
    destruct tol_rba as [tol |].
    - now apply removeByAngle_nonempty.
    - exists lineas. split; [reflexivity | exact Hlne]. }
  destruct Hclean as (pts & Hpts & Hpne).
  exists pts. split; [exact Hpne |].
  unfold Clean.cleanPoints2, Clean.process_groups, Clean.try_group.
  rewrite Hg, Htri, Hlst, Hpts.
  split; [reflexivity |]. split; [| reflexivity].
  unfold Clean.makePointShp. simpl. destruct pts; [congruence | discriminate].
Qed.

End CleaningFacts.

Lemma small_group_emitted_witness :
  exists clean_points,
    clean_points <> [] /\
    Clean.cleanPoints2 one_triangle tree_path [small_group] [7%Z] (Some 150) =
      [(clean_points, 7%Z)].
Proof.
  destruct (small_group_emitted one_triangle tree_path small_group 7%Z
              (Some 150) [(0, 1, 2)%nat] [2; 0; 1]%nat)
    as (_ & pts & Hne & Hout & _).
  - reflexivity.
  - reflexivity.
  - reflexivity.
  - discriminate.
  - repeat constructor; simpl; lia.
  - exists pts. split; assumption.
Defined.

(** ** Cluster averaging: runs of the sorted coordinates *)

Lemma close_chain_snoc tol l a b :
  Cluster.close_chain tol (l ++ [a]) -> b - a <= tol ->
  Cluster.close_chain tol ((l ++ [a]) ++ [b]).
Proof.
  induction l as [| x l IH]; intros H Hab.
  - simpl. auto.
  - destruct l as [| y l].
    + simpl in *. destruct H as [H1 _]. auto.
    + change (Cluster.close_chain tol (x :: (y :: l) ++ [a])) with
        (y - x <= tol /\ Cluster.close_chain tol ((y :: l) ++ [a])) in H.
      change (Cluster.close_chain tol ((x :: (y :: l) ++ [a]) ++ [b])) with
        (y - x <= tol /\
         Cluster.close_chain tol (((y :: l) ++ [a]) ++ [b])).
      destruct H as [H1 H2]. split; [exact H1 |]. now apply IH.
Qed.

Lemma last_snoc (l : list R) (a d : R) : last (l ++ [a]) d = a.
Proof. apply last_last. Qed.

Lemma split_vals_cons tol current siguiente rest cluster :
  Cluster.split_vals tol (current :: siguiente :: rest) cluster =
  if Rleb (siguiente - current) tol
  then Cluster.split_vals tol (siguiente :: rest) (cluster ++ [siguiente])
  else cluster :: Cluster.split_vals tol (siguiente :: rest) [siguiente].
Proof. reflexivity. Qed.

Lemma split_runs_cons tol current siguiente rest i cluster :
  Cluster.split_runs tol (current :: siguiente :: rest) i cluster =
  if Rleb (siguiente - current) tol
  then Cluster.split_runs tol (siguiente :: rest) (S i) (cluster ++ [S i])
  else cluster :: Cluster.split_runs tol (siguiente :: rest) (S i) [S i].
Proof. reflexivity. Qed.

(** The value runs, from a loop state whose current run ends with the
    current coordinate. *)
Lemma split_vals_runs tol rest :
  forall cv current,
  Cluster.close_chain tol (cv ++ [current]) ->
  exists more runs,
    Cluster.split_vals tol (current :: rest) (cv ++ [current]) =
      ((cv ++ [current]) ++ more) :: runs /\
    concat (Cluster.split_vals tol (current :: rest) (cv ++ [current])) =
      cv ++ current :: rest /\
    Forall (fun r => r <> [] /\ Cluster.close_chain tol r)
           (Cluster.split_vals tol (current :: rest) (cv ++ [current])) /\
    Cluster.separated tol
           (Cluster.split_vals tol (current :: rest) (cv ++ [current])).
Proof.
  induction rest as [| siguiente rest IH]; intros cv current Hcv.
  - exists [], []. simpl. rewrite !app_nil_r. repeat split.
    constructor; [| constructor]. split; [| exact Hcv].
    destruct cv; discriminate.
  - rewrite split_vals_cons.
    destruct (Rleb (siguiente - current) tol) eqn:C;
      [apply Rleb_true in C | apply Rleb_false in C].
    + destruct (IH (cv ++ [current]) siguiente
                   (close_chain_snoc tol cv current siguiente Hcv C))
        as (more & runs & E & Hcat & Hall & Hsep).
      exists (siguiente :: more), runs. repeat split.
      * rewrite E. f_equal. now rewrite <- !app_assoc.
      * rewrite Hcat. now rewrite <- app_assoc.
      * exact Hall.
      * exact Hsep.
    + destruct (IH [] siguiente ltac:(simpl; exact I))
        as (more & runs & E & Hcat & Hall & Hsep).
      exists [], (Cluster.split_vals tol (siguiente :: rest) [siguiente]).
      change ([] ++ [siguiente]) with [siguiente] in *.
      repeat split.
      * now rewrite app_nil_r.
      * cbn [concat]. rewrite Hcat. now rewrite <- app_assoc.
      * constructor; [| exact Hall]. split; [| exact Hcv].
        destruct cv; discriminate.
      * rewrite E in Hsep |- *.
        change (Cluster.separated tol
                  ((cv ++ [current]) :: ([siguiente] ++ more) :: runs))
          with (tol < hd 0 ([siguiente] ++ more) - last (cv ++ [current]) 0 /\
                Cluster.separated tol (([siguiente] ++ more) :: runs)).
        split; [| exact Hsep]. rewrite last_snoc. simpl. lra.
Qed.

(** The index runs name the value runs. *)
Lemma split_runs_vals tol full :
  forall l i cluster,
  skipn i full = l ->
  map (map (fun k => nth k full 0)) (Cluster.split_runs tol l i cluster) =
  Cluster.split_vals tol l (map (fun k => nth k full 0) cluster).
Proof.
  induction l as [| current rest IH]; intros i cluster Hl; [reflexivity |].
  destruct rest as [| siguiente rest]; [reflexivity |].
  assert (Hrest : skipn (S i) full = siguiente :: rest).
  { replace (S i) with (1 + i)%nat by lia.
    rewrite <- skipn_skipn, Hl. reflexivity. }
  assert (Hsig : nth (S i) full 0 = siguiente).
  { rewrite <- (firstn_skipn (S i) full) at 1.
    assert (Hlen : length (firstn (S i) full) = S i).
    { apply firstn_length_le.
      apply (f_equal (@length R)) in Hrest. rewrite length_skipn in Hrest.
      simpl in Hrest. lia. }
    rewrite app_nth2 by lia. rewrite Hlen, Nat.sub_diag, Hrest. reflexivity. }
  rewrite split_runs_cons, split_vals_cons.
  destruct (Rleb (siguiente - current) tol).
  - rewrite (IH (S i) _ Hrest), map_app. cbn [map]. now rewrite Hsig.
  - cbn [map]. rewrite (IH (S i) _ Hrest). cbn [map]. now rewrite Hsig.
Qed.

Lemma split_runs_concat tol :
  forall l i cluster,
  concat (Cluster.split_runs tol l i cluster) =
  cluster ++ seq (S i) (length l - 1).
Proof.
  induction l as [| current rest IH]; intros i cluster.
  - simpl. reflexivity.
  - destruct rest as [| siguiente rest].
    + simpl. reflexivity.
    + rewrite split_runs_cons.
      replace (length (current :: siguiente :: rest) - 1)%nat
        with (S (length (siguiente :: rest) - 1)) by (simpl; lia).
      destruct (Rleb (siguiente - current) tol).
      * rewrite IH, <- app_assoc. reflexivity.
      * cbn [concat]. rewrite IH. reflexivity.
Qed.

(** ** Cluster averaging: sorting and index lookups *)

Lemma insert_length x l : length (Np.insert x l) = S (length l).
Proof.
  induction l as [| y l IH]; [reflexivity |].
  simpl. destruct (Rleb x y); simpl; [reflexivity | now rewrite IH].
Qed.

Lemma sort_length l : length (Np.sort l) = length l.
Proof.
  induction l as [| x l IH]; [reflexivity |].
  simpl. now rewrite insert_length, IH.
Qed.

Lemma insert_in v x l : In v (Np.insert x l) -> v = x \/ In v l.
Proof.
  induction l as [| y l IH]; simpl.
  - intros [<- | []]. now left.
  - destruct (Rleb x y); simpl.
    + intros [<- | [<- | H]]; auto.
    + intros [<- | H]; [auto |]. destruct (IH H); auto.
Qed.

Lemma sort_in v l : In v (Np.sort l) -> In v l.
Proof.
  induction l as [| x l IH]; simpl; [auto |].
  intros H. destruct (insert_in _ _ _ H) as [-> | H']; auto.
Qed.

Lemma first_index_some v a :
  In v a ->
  exists k, Np.first_index v a = Some k /\ nth_error a k = Some v.
Proof.
  induction a as [| x a IH]; [intros [] |]. intros Hin. simpl.
  destruct (Reqb x v) eqn:C;
    [apply Reqb_true in C | apply Reqb_false in C].
  - exists 0%nat. subst x. split; reflexivity.
  - destruct Hin as [-> | Hin]; [congruence |].
    destruct (IH Hin) as (k & -> & Hk). exists (S k). split; [reflexivity |].
    exact Hk.
Qed.

Lemma item_nth a k : (k < length a)%nat -> Cluster.item a k = Ok (nth k a 0).
Proof.
  intros Hk. unfold Cluster.item.
  destruct (nth_error a k) as [v |] eqn:E.
  - now rewrite (nth_error_nth _ _ _ E).
  - apply nth_error_None in E. lia.
Qed.

Lemma item_some a k v : nth_error a k = Some v -> Cluster.item a k = Ok v.
Proof. intros E. unfold Cluster.item. now rewrite E. Qed.

Lemma locate_values orig_coord coord c :
  (forall v, In v coord -> In v orig_coord) ->
  Forall (fun k => (k < length coord)%nat) c ->
  exists cp,
    Cluster.locate orig_coord coord c = Ok cp /\
    Cluster.fancy orig_coord cp = Ok (map (fun k => nth k coord 0) c) /\
    Forall (fun k => (k < length orig_coord)%nat) cp.
Proof.
  intros Hsub. induction 1 as [| iden c Hi _ IH].
  - exists []. repeat split; constructor.
  - destruct IH as (cp & Hcp & Hvals & Hlt).
    destruct (first_index_some (nth iden coord 0) orig_coord)
      as (a0 & Ha0 & Hnth).
    { apply Hsub, nth_In, Hi. }
    exists (a0 :: cp). cbn [Cluster.locate Cluster.fancy map].
    rewrite (item_nth _ _ Hi). cbn [bind]. rewrite Ha0, Hcp. cbn [bind].
    rewrite (item_some _ _ _ Hnth). cbn [bind]. rewrite Hvals. cbn [bind].
    repeat split. constructor; [| exact Hlt].
    apply nth_error_Some. congruence.
Qed.

Lemma locate_all_values orig_coord coord clusters :
  (forall v, In v coord -> In v orig_coord) ->
  Forall (Forall (fun k => (k < length coord)%nat)) clusters ->
  exists pos,
    Cluster.locate_all orig_coord coord clusters = Ok pos /\
    Forall2 (fun cp vals =>
               Cluster.fancy orig_coord cp = Ok vals /\
               Forall (fun k => (k < length orig_coord)%nat) cp)
            pos (map (map (fun k => nth k coord 0)) clusters).
Proof.
  intros Hsub. induction 1 as [| c clusters Hc _ IH].
  - exists []. split; [reflexivity | constructor].
  - destruct IH as (pos & Hpos & Hall).
    destruct (locate_values orig_coord coord c Hsub Hc)
      as (cp & Hcp & Hvals & Hlt).
    exists (cp :: pos). cbn [Cluster.locate_all map].
    rewrite Hcp. cbn [bind]. rewrite Hpos. cbn [bind].
    split; [reflexivity |]. constructor; auto.
Qed.

Lemma fancy_length a idx vals :
  Cluster.fancy a idx = Ok vals -> length vals = length idx.
Proof.
  revert vals. induction idx as [| k idx IH]; intros vals.
  - intros [= <-]. reflexivity.
  - cbn [Cluster.fancy]. destruct (Cluster.item a k); [| discriminate].
    cbn [bind]. destruct (Cluster.fancy a idx) as [l |]; [| discriminate].
    cbn [bind]. intros [= <-]. simpl. f_equal. now apply IH.
Qed.

Lemma fancy_weights pe cp :
  Forall (fun w => 0 < w) pe ->
  Forall (fun k => (k < length pe)%nat) cp ->
  exists ws, Cluster.fancy pe cp = Ok ws /\ Forall (fun w => 0 < w) ws.
Proof.
  intros Hpos. induction 1 as [| k cp Hk _ IH].
  - exists []. split; [reflexivity | constructor].
  - destruct IH as (ws & Hws & Hall).
    exists (nth k pe 0 :: ws). cbn [Cluster.fancy].
    rewrite (item_nth _ _ Hk). cbn [bind]. rewrite Hws. cbn [bind].
    split; [reflexivity |]. constructor; [| exact Hall].
    rewrite Forall_forall in Hpos. apply Hpos, nth_In, Hk.
Qed.

Lemma sum_pos ws : ws <> [] -> Forall (fun w => 0 < w) ws -> 0 < Np.sum ws.
Proof.
  intros Hne Hall. induction Hall as [| w ws Hw Hall IH]; [congruence |].
  unfold Np.sum in *. simpl. destruct ws as [| w' ws]; [simpl; lra |].
  specialize (IH ltac:(discriminate)). lra.
Qed.

Lemma average_w_ok r ws :
  ws <> [] -> Forall (fun w => 0 < w) ws ->
  Np.average_w r ws =
  Ok (Np.sum (map (fun aw => fst aw * snd aw) (combine r ws)) / Np.sum ws).
Proof.
  intros Hne Hall. unfold Np.average_w. cbv zeta.
  pose proof (sum_pos ws Hne Hall).
  rewrite (proj2 (Reqb_false (Np.sum ws) 0)) by lra. reflexivity.
Qed.

(** A run of one point is averaged to the point itself. *)
Lemma single_mean v m : Cluster.weighted_mean_of [v] m -> m = v.
Proof.
  intros (ws & Hlen & Hpos & ->).
  destruct ws as [| w [| w' ws]]; try discriminate.
  inversion Hpos; subst. unfold Np.sum. simpl. field. lra.
Qed.

Lemma average_runs_kept orig_coord pe min_cluster_size mk pos runs :
  length pe = length orig_coord ->
  Forall (fun w => 0 < w) pe ->
  Forall (fun r => r <> []) runs ->
  Forall2 (fun cp vals =>
             Cluster.fancy orig_coord cp = Ok vals /\
             Forall (fun k => (k < length orig_coord)%nat) cp) pos runs ->
  exists means,
    Forall2 Cluster.weighted_mean_of runs means /\
    Cluster.average_runs orig_coord pe min_cluster_size mk pos =
      Ok (Cluster.kept_runs min_cluster_size mk runs means).
Proof.
  intros Hlen Hpe Hne H. induction H as [| cp vals pos runs [Hv Hlt] _ IH].
  - exists []. split; [constructor | reflexivity].
  - inversion Hne as [| ? ? Hvne Hne']; subst.
    destruct (IH Hne') as (means & Hmeans & Hrest).
    rewrite <- Hlen in Hlt.
    destruct (fancy_weights pe cp Hpe Hlt) as (ws & Hws & Hwpos).
    pose proof (fancy_length _ _ _ Hv) as Hl1.
    pose proof (fancy_length _ _ _ Hws) as Hl2.
    assert (Hwne : ws <> []).
    { destruct ws; [| discriminate]. destruct vals; [congruence |].
      destruct cp; discriminate. }
    exists (Np.sum (map (fun aw => fst aw * snd aw) (combine vals ws))
              / Np.sum ws :: means).
    split.
    + constructor; [| exact Hmeans]. exists ws. repeat split; [lia | exact Hwpos].
    + cbn [Cluster.average_runs]. rewrite Hv. cbn [bind].
      unfold Cluster.kept_runs. cbn [combine flat_map fst snd].
      destruct (min_cluster_size <=? Z.of_nat (length vals))%Z.
      * rewrite Hws. cbn [bind]. rewrite (average_w_ok _ _ Hwne Hwpos).
        cbn [bind]. rewrite Hrest. cbn [bind]. reflexivity.
      * rewrite Hrest. reflexivity.
Qed.

(** ** Cluster averaging: one axis value *)

Lemma sharing_cons v o axis other x :
  Cluster.sharing (v :: axis) (o :: other) x =
  if Reqb v x then o :: Cluster.sharing axis other x
  else Cluster.sharing axis other x.
Proof.
  unfold Cluster.sharing. cbn [combine filter fst].
  destruct (Reqb v x); reflexivity.
Qed.

Lemma item_app pre o a : Cluster.item (pre ++ o :: a) (length pre) = Ok o.
Proof.
  apply item_some. rewrite nth_error_app2 by lia.
  now rewrite Nat.sub_diag.
Qed.

Lemma fancy_nonzero_eq axis x :
  forall a pre, length axis = length a ->
  Cluster.fancy (pre ++ a) (Cluster.nonzero_eq axis x (length pre)) =
  Ok (Cluster.sharing axis a x).
Proof.
  induction axis as [| v axis IH]; intros a pre Hlen.
  - reflexivity.
  - destruct a as [| o a]; [discriminate |].
    injection Hlen as Hlen. rewrite sharing_cons.
    cbn [Cluster.nonzero_eq].
    specialize (IH a (pre ++ [o]) Hlen).
    rewrite <- app_assoc, length_app in IH. cbn [app length] in IH.
    replace (length pre + 1)%nat with (S (length pre)) in IH by lia.
    destruct (Reqb v x).
    + cbn [Cluster.fancy]. rewrite item_app. cbn [bind]. rewrite IH.
      reflexivity.
    + exact IH.
Qed.

Lemma sharing_length axis a b x :
  length axis = length a -> length axis = length b ->
  length (Cluster.sharing axis a x) = length (Cluster.sharing axis b x).
Proof.
  revert a b. induction axis as [| v axis IH]; intros a b Ha Hb.
  - reflexivity.
  - destruct a as [| o a]; [discriminate |].
    destruct b as [| o' b]; [discriminate |].
    rewrite !sharing_cons. injection Ha as Ha. injection Hb as Hb.
    destruct (Reqb v x); simpl; rewrite (IH a b) by assumption; reflexivity.
Qed.

Lemma sharing_positive axis p x :
  Forall (fun w => 0 < w) p ->
  Forall (fun w => 0 < w) (Cluster.sharing axis p x).
Proof.
  intros Hp. apply Forall_forall. intros w Hw.
  unfold Cluster.sharing in Hw. apply in_map_iff in Hw.
  destruct Hw as ([a w'] & <- & Hin). apply filter_In in Hin.
  destruct Hin as [Hin _]. apply in_combine_r in Hin.
  rewrite Forall_forall in Hp. now apply Hp.
Qed.

Lemma getClusters_runs coord tol :
  (1 <= length coord)%nat ->
  exists pos runs,
    Cluster.getClusters coord tol = Ok (coord, pos) /\
    concat runs = Np.sort coord /\
    Forall (fun r => r <> [] /\ Cluster.close_chain tol r) runs /\
    Cluster.separated tol runs /\
    Forall2 (fun cp vals =>
               Cluster.fancy coord cp = Ok vals /\
               Forall (fun k => (k < length coord)%nat) cp) pos runs.
Proof.
  intros Hlen. unfold Cluster.getClusters. cbv zeta.
  pose proof (sort_length coord) as Hsl.
  destruct (Np.sort coord) as [| s0 rest] eqn:Es; [simpl in Hsl; lia |].
  assert (Hidx : Forall (Forall (fun k => (k < length (s0 :: rest))%nat))
                        (Cluster.split_runs tol (s0 :: rest) 0 [0%nat])).
  { apply Forall_forall. intros c Hc. apply Forall_forall. intros k Hk.
    assert (Hin : In k (concat (Cluster.split_runs tol (s0 :: rest) 0
                                                   [0%nat]))).
    { apply in_concat. eauto. }
    rewrite split_runs_concat in Hin. cbn [app length] in Hin.
    destruct Hin as [<- | Hin]; [simpl; lia |].
    apply in_seq in Hin. simpl in *. lia. }
  destruct (locate_all_values coord (s0 :: rest) _
              ltac:(intros v Hv; apply sort_in; rewrite Es; exact Hv) Hidx)
    as (pos & Hpos & Hall).
  rewrite Hpos. cbn [bind].
  rewrite (split_runs_vals tol (s0 :: rest) (s0 :: rest) 0 [0%nat] eq_refl)
    in Hall.
  change (map (fun k => nth k (s0 :: rest) 0) [0%nat]) with ([] ++ [s0])
    in Hall.
  destruct (split_vals_runs tol rest [] s0 ltac:(simpl; exact I))
    as (_ & _ & _ & Hcat & Hchain & Hsep).
  exists pos, (Cluster.split_vals tol (s0 :: rest) ([] ++ [s0])).
  repeat split; assumption.
Qed.

Lemma cluster_axis_lonely (axis other p : list R) (tol : R)
    (min_cluster_size : Z) (mk : R -> R -> point) (ex : list R) :
  length axis = length other -> length axis = length p ->
  (forall x, (length (Cluster.sharing axis other x) < 2)%nat) ->
  Cluster.cluster_axis axis other p tol min_cluster_size mk ex = Ok [].
Proof.
  intros Ho Hp Hlone. induction ex as [| x ex IH]; [reflexivity |].
  cbn [Cluster.cluster_axis].
  pose proof (fancy_nonzero_eq axis x other [] Ho) as E1.
  pose proof (fancy_nonzero_eq axis x p [] Hp) as E2.
  cbn [app length] in E1, E2.
  unfold Cluster.cluster_value. cbv zeta. rewrite E1. cbn [bind].
  rewrite E2. cbn [bind].
  replace (2 <=? length (Cluster.sharing axis other x))%nat with false
    by (symmetry; apply Nat.leb_gt; apply Hlone).
  cbn [bind]. rewrite IH. reflexivity.
Qed.

(** A point set in which no axis value is shared is clustered to
    nothing. *)
Lemma creaCluster_lonely (d : list point) (p ex ey : list R)
    (cluster_distance : R) (min_cluster_size : Z) :
  length p = length d ->
  (forall x, (length (Cluster.sharing (map fst d) (map snd d) x) < 2)%nat) ->
  (forall y, (length (Cluster.sharing (map snd d) (map fst d) y) < 2)%nat) ->
  Cluster.creaCluster d p ex ey cluster_distance min_cluster_size = Ok [].
Proof.
  intros Hp Hx Hy. unfold Cluster.creaCluster. cbv zeta.
  rewrite !cluster_axis_lonely; try assumption;
    rewrite ?length_map; auto.
Qed.

Lemma sharing_le axis other x :
  (length (Cluster.sharing axis other x) <= length axis)%nat.
Proof.
  unfold Cluster.sharing. rewrite length_map.
  etransitivity; [apply filter_length_le |].
  rewrite length_combine. lia.
Qed.

(** C6 (amended): for one axis value x, when fewer than 2 points share it
    nothing is produced whatever min_cluster_size is; when at least 2 points
    share it, their sorted coordinates are cut into non-empty runs whose
    consecutive values differ by at most cluster_distance while neighbouring
    runs are further apart, each run has a mean under positive weights, a
    run of one point has that point's coordinate as mean, and the output
    holds one point per run of length at least min_cluster_size (so a
    run of one point is dropped when min_cluster_size > 1 and kept as the
    point itself when min_cluster_size <= 1). *)
Theorem cluster_value_contribution (axis other p : list R) (tol : R)
    (min_cluster_size : Z) (mk : R -> point) (x : R) :
  length axis = length other -> length axis = length p ->
  Forall (fun w => 0 < w) p ->
  ((length (Cluster.sharing axis other x) < 2)%nat ->
     Cluster.cluster_value axis other p tol min_cluster_size mk x = Ok []) /\
  ((2 <= length (Cluster.sharing axis other x))%nat ->
     exists runs means,
       concat runs = Np.sort (Cluster.sharing axis other x) /\
       Forall (fun r => r <> [] /\ Cluster.close_chain tol r) runs /\
       Cluster.separated tol runs /\
       Forall2 Cluster.weighted_mean_of runs means /\
       Forall2 (fun r m => forall v, r = [v] -> m = v) runs means /\
       Cluster.cluster_value axis other p tol min_cluster_size mk x =
         Ok (flat_map (fun rm =>
                         if (min_cluster_size <=? Z.of_nat (length (fst rm)))%Z
                         then [mk (snd rm)] else [])
                      (combine runs means))).
Proof.
  intros Ho Hp Hpos.
  unfold Cluster.cluster_value. cbv zeta.
  pose proof (fancy_nonzero_eq axis x other [] Ho) as E1.
  pose proof (fancy_nonzero_eq axis x p [] Hp) as E2.
  cbn [app length] in E1, E2. rewrite E1. cbn [bind]. rewrite E2.
  cbn [bind]. split.
  - intros Hlt. apply Nat.leb_gt in Hlt.
    replace (2 <=? length (Cluster.sharing axis other x))%nat with false
      by (symmetry; exact Hlt).
    reflexivity.
  - intros Hge.
    replace (2 <=? length (Cluster.sharing axis other x))%nat with true
      by (symmetry; apply Nat.leb_le; exact Hge).
    destruct (getClusters_runs (Cluster.sharing axis other x) tol
                ltac:(lia))
      as (pos & runs & -> & Hcat & Hchain & Hsep & Hall).
    cbn [bind fst snd].
    destruct (average_runs_kept (Cluster.sharing axis other x)
                (Cluster.sharing axis p x) min_cluster_size mk pos runs)
      as (means & Hmeans & Hout).
    + symmetry. now apply sharing_length.
    + now apply sharing_positive.
    + eapply Forall_impl; [| exact Hchain]. intros r [Hr _]. exact Hr.
    + exact Hall.
    + unfold Cluster.kept_runs in Hout.
      exists runs, means. repeat split; try assumption.
      clear - Hmeans. induction Hmeans as [| r m runs means Hm _ IH];
        constructor; [| exact IH].
      intros v ->. now apply single_mean.
Qed.

Lemma sharing_pair x a b :
  Cluster.sharing [x; x] [a; b] x = [a; b].
Proof.
  rewrite !sharing_cons, (proj2 (Reqb_true x x)) by reflexivity.
  reflexivity.
Qed.

Lemma cluster_value_contribution_witness :
  exists runs means,
    concat runs = Np.sort [10; 11] /\
    Cluster.cluster_value [100; 100] [10; 11] [1; 1] 3 1
                          (fun m => (100, m)) 100 =
      Ok (flat_map (fun rm =>
                      if (1 <=? Z.of_nat (length (fst rm)))%Z
                      then [(100, snd rm)] else [])
                   (combine runs means)).
Proof.
  destruct (cluster_value_contribution [100; 100] [10; 11] [1; 1] 3 1
              (fun m => (100, m)) 100) as [_ H].
  - reflexivity.
  - reflexivity.
  - repeat constructor; lra.
  - rewrite sharing_pair in H.
    destruct (H ltac:(simpl; lia))
      as (runs & means & Hcat & _ & _ & _ & _ & Hout).
    exists runs, means. split; assumption.
Defined.

(** C6 (counterexample): a single point, whose axis values are shared by no
    other point, yields no averaged point even with min_cluster_size 1. *)
Lemma lonely_point_dropped :
  Cluster.averagePoints [(100, 10, 1)] 50 1 = Ok [].
Proof.
  unfold Cluster.averagePoints. cbv zeta.
  apply creaCluster_lonely.
  - reflexivity.
  - intros x. pose proof (sharing_le (map fst [(100, 10)])
                            (map snd [(100, 10)]) x). simpl in *. lia.
  - intros y. pose proof (sharing_le (map snd [(100, 10)])
                            (map fst [(100, 10)]) y). simpl in *. lia.
Qed.

(** C7 (amended): clustering is not idempotent; what holds is that a point
    set in which no X value and no Y value is shared by two points is
    clustered to the empty set, and that the mean of a run of one point is
    that point's coordinate. *)
Theorem recluster_unshared (d : list point) (p ex ey : list R)
    (cluster_distance : R) (min_cluster_size : Z) :
  length p = length d ->
  (forall x, (length (Cluster.sharing (map fst d) (map snd d) x) < 2)%nat) ->
  (forall y, (length (Cluster.sharing (map snd d) (map fst d) y) < 2)%nat) ->
  Cluster.creaCluster d p ex ey cluster_distance min_cluster_size = Ok [] /\
  (forall v m, Cluster.weighted_mean_of [v] m -> m = v).
Proof.
  intros Hp Hx Hy. split; [now apply creaCluster_lonely |].
  apply single_mean.
Qed.

Lemma recluster_unshared_witness :
  Cluster.creaCluster [(100, 11)] [1] [100] [11] 50 3 = Ok [].
Proof.
  apply (recluster_unshared [(100, 11)] [1] [100] [11] 50 3).
  - reflexivity.
  - intros x. pose proof (sharing_le (map fst [(100, 11)])
                            (map snd [(100, 11)]) x). simpl in *. lia.
  - intros y. pose proof (sharing_le (map snd [(100, 11)])
                            (map fst [(100, 11)]) y). simpl in *. lia.
Defined.

(** *** Clustering a clustered set again *)

Ltac rstep :=
  match goal with
  | |- context [Rleb ?a ?b] =>
      first [ rewrite (proj2 (Rleb_true a b)) by lra
            | rewrite (proj2 (Rleb_false a b)) by lra ]
  | |- context [Rltb ?a ?b] =>
      first [ rewrite (proj2 (Rltb_true a b)) by lra
            | rewrite (proj2 (Rltb_false a b)) by lra ]
  | |- context [Reqb ?a ?b] =>
      first [ rewrite (proj2 (Reqb_true a b)) by lra
            | rewrite (proj2 (Reqb_false a b)) by lra ]
  end.

Ltac rsimpl := cbn -[Rplus Rmult Rminus Rdiv Rinv Ropp IZR INR].

Ltac rrun := repeat (rsimpl; rstep); rsimpl.

(** C7 (counterexample): three raw points at x = 100 with y = 10, 11, 12 and
    equal weights are averaged, with distance 50 and minimum size 3, to the
    single point (100, 11); averaging that output again with the same
    parameters gives no point at all. *)
Lemma recluster_loses_points :
  Cluster.averagePoints [(100, 10, 1); (100, 11, 1); (100, 12, 1)] 50 3 =
    Ok [(100, 11)] /\
  forall w, Cluster.averagePoints [(100, 11, w)] 50 3 = Ok [].
Proof.
  split.
  - unfold Cluster.averagePoints, Cluster.creaCluster, Np.unique,
      Cluster.cluster_axis, Cluster.cluster_value, Cluster.getClusters,
      Np.average_w, Np.sum.
    rrun.
    rewrite average_w_ok; [| discriminate | repeat constructor; lra].
    rsimpl. unfold Np.sum. cbn [combine map fold_right fst snd].
    do 3 f_equal. field.
  - intros w. unfold Cluster.averagePoints. cbv zeta.
    apply creaCluster_lonely.
    + reflexivity.
    + intros x. pose proof (sharing_le (map fst [(100, 11)])
                              (map snd [(100, 11)]) x). simpl in *. lia.
    + intros y. pose proof (sharing_le (map snd [(100, 11)])
                              (map fst [(100, 11)]) y). simpl in *. lia.
Qed.

(** ** The weight matrix: [erfcc] decreases *)

Lemma horner_lim cs t :
  derivable_pt_lim (Weights.horner cs) t (Weights.horner_deriv cs t).
Proof.
  induction cs as [| c cs IH].
  - apply (derivable_pt_lim_const 0).
  - change (Weights.horner (c :: cs))
      with (fct_cte c + id * Weights.horner cs)%F.
    replace (Weights.horner_deriv (c :: cs) t)
      with (0 + (1 * Weights.horner cs t + id t * Weights.horner_deriv cs t))
      by (unfold id; simpl; ring).
    apply derivable_pt_lim_plus; [apply derivable_pt_lim_const |].
    apply derivable_pt_lim_mult; [apply derivable_pt_lim_id | exact IH].
Qed.

Lemma horner_derivable cs : derivable (Weights.horner cs).
Proof.
  intros t. exists (Weights.horner_deriv cs t). apply horner_lim.
Qed.

(** The derivative of the exponent polynomial in the Bernstein basis of
    degree 8 on [0, 1]: every coefficient is positive. *)
Lemma erf_deriv_bernstein t :
  Weights.horner_deriv Weights.erf_coeffs t =
     (1562537 / 1562500) * (t ^ 0 * (1 - t) ^ 8) +
     (109354667 / 12500000) * (t ^ 1 * (1 - t) ^ 7) +
     (1676415151 / 50000000) * (t ^ 2 * (1 - t) ^ 6) +
     (363550757 / 5000000) * (t ^ 3 * (1 - t) ^ 5) +
     (1964239241 / 20000000) * (t ^ 4 * (1 - t) ^ 4) +
     (198273573 / 2500000) * (t ^ 5 * (1 - t) ^ 3) +
     (3896827261 / 100000000) * (t ^ 6 * (1 - t) ^ 2) +
     (532976251 / 50000000) * (t ^ 7 * (1 - t) ^ 1) +
     (25135451 / 20000000) * (t ^ 8 * (1 - t) ^ 0).
Proof.
  unfold Weights.erf_coeffs. cbn [Weights.horner Weights.horner_deriv]. lra.
Qed.

Lemma erf_deriv_pos t :
  0 <= t < 1 -> 0 < Weights.horner_deriv Weights.erf_coeffs t.
Proof.
  intros [H0 H1]. rewrite erf_deriv_bernstein.
  assert (Hu : 0 < 1 - t) by lra.
  assert (Hm : forall i j, 0 <= t ^ i * (1 - t) ^ j).
  { intros i j. apply Rmult_le_pos; apply pow_le; lra. }
  assert (H8 : 0 < t ^ 0 * (1 - t) ^ 8).
  { rewrite pow_O, Rmult_1_l. apply pow_lt. lra. }
  pose proof (Hm 1%nat 7%nat). pose proof (Hm 2%nat 6%nat).
  pose proof (Hm 3%nat 5%nat). pose proof (Hm 4%nat 4%nat).
  pose proof (Hm 5%nat 3%nat). pose proof (Hm 6%nat 2%nat).
  pose proof (Hm 7%nat 1%nat). pose proof (Hm 8%nat 0%nat).
  set (m0 := t ^ 0 * (1 - t) ^ 8) in *. set (m1 := t ^ 1 * (1 - t) ^ 7) in *.
  set (m2 := t ^ 2 * (1 - t) ^ 6) in *. set (m3 := t ^ 3 * (1 - t) ^ 5) in *.
  set (m4 := t ^ 4 * (1 - t) ^ 4) in *. set (m5 := t ^ 5 * (1 - t) ^ 3) in *.
  set (m6 := t ^ 6 * (1 - t) ^ 2) in *. set (m7 := t ^ 7 * (1 - t) ^ 1) in *.
  set (m8 := t ^ 8 * (1 - t) ^ 0) in *.
  lra.
Qed.

Lemma erf_poly_increasing s t :
  0 <= s -> s < t -> t <= 1 ->
  Weights.horner Weights.erf_coeffs s < Weights.horner Weights.erf_coeffs t.
Proof.
  intros Hs Hst Ht.
  apply (derive_increasing_interv 0 1 (Weights.horner Weights.erf_coeffs)
           (horner_derivable Weights.erf_coeffs)); try lra.
  intros u Hu.
  rewrite (derive_pt_eq_0 _ _ _ _ (horner_lim Weights.erf_coeffs u)).
  apply erf_deriv_pos. lra.
Qed.

(** [erfcc] on a non-negative argument, with the polynomial named. *)
Lemma erfcc_nonneg_form x :
  0 <= x ->
  Weights.erfcc x =
  1 / (1 + 0.5 * x) *
  exp (- x * x - 1.26551223 +
       Weights.horner Weights.erf_coeffs (1 / (1 + 0.5 * x))).
Proof.
  intros Hx. unfold Weights.erfcc. cbv zeta.
  rewrite (proj2 (Rleb_true 0 x)) by assumption.
  rewrite (Rabs_pos_eq x) by assumption.
  f_equal. f_equal. unfold Weights.erf_coeffs. cbn [Weights.horner].
  set (t := 1 / (1 + 0.5 * x)). lra.
Qed.

Lemma erfcc_decreasing x y :
  0 <= x -> x < y -> Weights.erfcc y < Weights.erfcc x.
Proof.
  intros Hx Hxy. rewrite !erfcc_nonneg_form by lra.
  assert (Hty : 0 < 1 / (1 + 0.5 * y)) by (apply Rdiv_lt_0_compat; lra).
  assert (Htxy : 1 / (1 + 0.5 * y) < 1 / (1 + 0.5 * x)).
  { unfold Rdiv. rewrite !Rmult_1_l. apply Rinv_lt_contravar; nra. }
  assert (Htx : 1 / (1 + 0.5 * x) <= 1).
  { unfold Rdiv. rewrite Rmult_1_l. rewrite <- Rinv_1 at 2.
    apply Rinv_le_contravar; lra. }
  pose proof (erf_poly_increasing _ _ (Rlt_le _ _ Hty) Htxy Htx) as Hp.
  apply Rmult_le_0_lt_compat; try lra.
  - left. apply exp_pos.
  - apply exp_increasing. nra.
Qed.

Lemma erfcc_0 : Weights.erfcc 0 = exp (3 / 100000000).
Proof.
  rewrite erfcc_nonneg_form by lra.
  replace (1 + 0.5 * 0) with 1 by lra.
  replace (1 / 1) with 1 by lra.
  rewrite Rmult_1_l. f_equal.
  unfold Weights.erf_coeffs. cbn [Weights.horner]. lra.
Qed.

Lemma exp_small_lt_2 : exp (3 / 100000000) < 2.
Proof.
  pose proof (exp_ineq1 (- (3 / 100000000)) ltac:(lra)) as H.
  pose proof (exp_pos (3 / 100000000)) as Hp.
  assert (E : exp (3 / 100000000) * exp (- (3 / 100000000)) = 1).
  { rewrite <- exp_plus, Rplus_opp_r. apply exp_0. }
  nra.
Qed.

Lemma exp_small_gt_1 : 1 < exp (3 / 100000000).
Proof. pose proof (exp_ineq1 (3 / 100000000) ltac:(lra)). lra. Qed.

Lemma erfcc_le_0 x : 0 <= x -> Weights.erfcc x <= Weights.erfcc 0.
Proof.
  intros [Hx | <-]; [| lra]. left. apply erfcc_decreasing; lra.
Qed.

Lemma erfcc_sixth : Weights.erfcc (1 / 6) <= 1.
Proof.
  rewrite erfcc_nonneg_form by lra.
  replace (1 + 0.5 * (1 / 6)) with (13 / 12) by lra.
  replace (1 / (13 / 12)) with (12 / 13) by (field; lra).
  assert (HE : - (1 / 6) * (1 / 6) - 1.26551223 +
               Weights.horner Weights.erf_coeffs (12 / 13) <= 0).
  { unfold Weights.erf_coeffs. cbn [Weights.horner]. lra. }
  assert (Hexp : exp (- (1 / 6) * (1 / 6) - 1.26551223 +
                      Weights.horner Weights.erf_coeffs (12 / 13)) <= 1).
  { destruct HE as [HE | HE].
    - apply exp_increasing in HE. rewrite exp_0 in HE. lra.
    - rewrite HE, exp_0. lra. }
  pose proof (exp_pos (- (1 / 6) * (1 / 6) - 1.26551223 +
                       Weights.horner Weights.erf_coeffs (12 / 13))).
  nra.
Qed.

(** ** The weight matrix as a function of the distance to the centre *)

Lemma weight_at_erfcc f c ci cj :
  Weights.weight_at f c ci cj =
  Weights.erfcc (sqrt ((ci - (INR f + 1) / 2) ^ 2 +
                       (cj - (INR c + 1) / 2) ^ 2) / (3 * sqrt 2)).
Proof.
  unfold Weights.weight_at, Weights.normcdf. cbv zeta.
  rewrite normcdf_arg. set (d := sqrt _).
  assert (Hz : 0 <= d / (3 * sqrt 2)).
  { pose proof sqrt2_pos. apply Rle_mult_inv_pos; [apply sqrt_pos | lra]. }
  pose proof (erfcc_le_0 _ Hz) as Hle. rewrite erfcc_0 in Hle.
  pose proof exp_small_lt_2.
  rewrite (proj2 (Rltb_false 1 (0.5 * Weights.erfcc (d / (3 * sqrt 2)))))
    by lra.
  lra.
Qed.

Lemma computeWeights_dist kernel ppp i j :
  (i < kernel * ppp)%nat -> (j < kernel * ppp)%nat ->
  Weights.cell (Weights.computeWeights kernel ppp) i j =
  Weights.erfcc (Weights.centre_dist (kernel * ppp) i j / (3 * sqrt 2)).
Proof.
  intros Hi Hj. rewrite computeWeights_cell by assumption.
  rewrite weight_at_erfcc. unfold Weights.centre_dist.
  do 3 f_equal; f_equal; lra.
Qed.

Lemma offset_IZR (n i : nat) :
  INR i + 1 - (INR n + 1) / 2 =
  IZR (2 * Z.of_nat i + 1 - Z.of_nat n) / 2.
Proof.
  rewrite minus_IZR, plus_IZR, mult_IZR, <- !INR_IZR_INZ. simpl. lra.
Qed.

Lemma centre_dist_sq (n i j : nat) :
  Weights.centre_dist n i j ^ 2 =
  IZR ((2 * Z.of_nat i + 1 - Z.of_nat n) * (2 * Z.of_nat i + 1 - Z.of_nat n) +
       (2 * Z.of_nat j + 1 - Z.of_nat n) * (2 * Z.of_nat j + 1 - Z.of_nat n))
  / 4.
Proof.
  unfold Weights.centre_dist.
  rewrite pow2_sqrt by (apply Rplus_le_le_0_compat; apply pow2_ge_0).
  rewrite !offset_IZR, plus_IZR, !mult_IZR. field.
Qed.

Lemma centre_dist_nonneg n i j : 0 <= Weights.centre_dist n i j.
Proof. apply sqrt_pos. Qed.

Lemma centre_dist_le_sq n i j i' j' :
  Weights.centre_dist n i j ^ 2 <= Weights.centre_dist n i' j' ^ 2 ->
  Weights.centre_dist n i j <= Weights.centre_dist n i' j'.
Proof.
  intros H. pose proof (centre_dist_nonneg n i j).
  pose proof (centre_dist_nonneg n i' j'). nra.
Qed.

Lemma centre_dist_sym n i j :
  (i < n)%nat -> (j < n)%nat ->
  Weights.centre_dist n (n - 1 - i) (n - 1 - j) = Weights.centre_dist n i j.
Proof.
  intros Hi Hj. unfold Weights.centre_dist. f_equal.
  rewrite !minus_INR by lia. simpl. lra.
Qed.

(** The cell (n / 2, n / 2) is as close to the centre as a cell can be. *)
Lemma centre_dist_min n i j :
  Weights.centre_dist n (n / 2) (n / 2) <= Weights.centre_dist n i j.
Proof.
  apply centre_dist_le_sq. rewrite !centre_dist_sq.
  pose proof (Nat.div_mod_eq n 2) as Hdm.
  pose proof (Nat.mod_upper_bound n 2 ltac:(lia)) as Hm.
  set (c := (2 * Z.of_nat (n / 2) + 1 - Z.of_nat n)%Z).
  set (a := (2 * Z.of_nat i + 1 - Z.of_nat n)%Z).
  set (b := (2 * Z.of_nat j + 1 - Z.of_nat n)%Z).
  assert (Hc : (c = 0 \/ c = 1)%Z) by (unfold c; lia).
  assert (Ha : (c * c <= a * a)%Z).
  { destruct Hc as [-> | Hc1]; [nia |].
    assert (a <> 0)%Z by (unfold a, c in *; lia). nia. }
  assert (Hb : (c * c <= b * b)%Z).
  { destruct Hc as [-> | Hc1]; [nia |].
    assert (b <> 0)%Z by (unfold b, c in *; lia). nia. }
  assert (H : (c * c + c * c <= a * a + b * b)%Z) by lia.
  apply IZR_le in H. lra.
Qed.

(** Off the exact centre the squared distance is at least one half. *)
Lemma centre_dist_off n i j :
  Weights.centre_dist n i j <> 0 -> 1 / 2 <= Weights.centre_dist n i j ^ 2.
Proof.
  intros Hne. rewrite centre_dist_sq.
  set (a := (2 * Z.of_nat i + 1 - Z.of_nat n)%Z).
  set (b := (2 * Z.of_nat j + 1 - Z.of_nat n)%Z).
  assert (Hnz : (a <> 0 \/ b <> 0)%Z).
  { destruct (Z.eq_dec a 0) as [Ea | Ea]; [| now left].
    destruct (Z.eq_dec b 0) as [Eb | Eb]; [| now right].
    exfalso. apply Hne.
    pose proof (centre_dist_sq n i j) as Hsq. fold a b in Hsq.
    rewrite Ea, Eb in Hsq. simpl in Hsq.
    pose proof (centre_dist_nonneg n i j). nra. }
  assert (Hpar : exists k, (a = b + 2 * k)%Z).
  { exists (Z.of_nat i - Z.of_nat j)%Z. unfold a, b. lia. }
  destruct Hpar as (k & Hk).
  assert (H : (2 <= a * a + b * b)%Z).
  { destruct (Z.eq_dec a 0) as [Ea | Ea];
      destruct (Z.eq_dec b 0) as [Eb | Eb]; try nia; lia. }
  apply IZR_le in H. lra.
Qed.

Lemma erfcc_nonincreasing x y :
  0 <= x -> x <= y -> Weights.erfcc y <= Weights.erfcc x.
Proof.
  intros Hx [Hxy | <-]; [| lra]. left. now apply erfcc_decreasing.
Qed.

Lemma scaled_dist_lt d e :
  d < e -> d / (3 * sqrt 2) < e / (3 * sqrt 2).
Proof.
  intros H. pose proof sqrt2_pos.
  apply Rmult_lt_compat_r; [apply Rinv_0_lt_compat; lra | exact H].
Qed.

Lemma scaled_dist_nonneg n i j :
  0 <= Weights.centre_dist n i j / (3 * sqrt 2).
Proof.
  pose proof sqrt2_pos.
  apply Rle_mult_inv_pos; [apply centre_dist_nonneg | lra].
Qed.

Lemma scaled_dist_sixth n i j :
  Weights.centre_dist n i j <> 0 ->
  1 / 6 <= Weights.centre_dist n i j / (3 * sqrt 2).
Proof.
  intros Hne. pose proof (centre_dist_off n i j Hne) as Hsq.
  pose proof (scaled_dist_nonneg n i j) as Hz.
  pose proof sqrt2_pos as H2.
  pose proof (sqrt_sqrt 2 ltac:(lra)) as Hs.
  set (d := Weights.centre_dist n i j) in *.
  set (z := d / (3 * sqrt 2)) in *.
  assert (Hd : d = z * (3 * sqrt 2)) by (unfold z; field; lra).
  assert (Hzz : 1 / 36 <= z * z).
  { assert (d ^ 2 = 18 * (z * z)).
    { rewrite Hd. replace ((z * (3 * sqrt 2)) ^ 2)
        with (9 * (z * z) * (sqrt 2 * sqrt 2)) by ring.
      rewrite Hs. ring. }
    lra. }
  nra.
Qed.

(** The centre cell of a matrix of odd side holds erfcc(0) = exp(3e-8),
    twice the value of normcdf at its mean. *)
Lemma centre_cell_value (kernel ppp : nat) :
  Nat.odd (kernel * ppp) = true ->
  Weights.cell (Weights.computeWeights kernel ppp)
               (kernel * ppp / 2) (kernel * ppp / 2) = exp (3 / 100000000) /\
  1 < Weights.cell (Weights.computeWeights kernel ppp)
                   (kernel * ppp / 2) (kernel * ppp / 2).
Proof.
  intros Hodd. set (n := (kernel * ppp)%nat) in *.
  assert (Hn : (n = 2 * (n / 2) + 1)%nat).
  { pose proof (Nat.div_mod_eq n 2) as Hdm.
    rewrite <- Nat.bit0_mod in Hdm. rewrite Nat.bit0_odd, Hodd in Hdm.
    exact Hdm. }
  assert (Hhalf : (n / 2 < n)%nat) by lia.
  assert (E : Weights.cell (Weights.computeWeights kernel ppp) (n / 2) (n / 2)
              = exp (3 / 100000000)).
  { rewrite computeWeights_dist by exact Hhalf. fold n.
    assert (Hd : Weights.centre_dist n (n / 2) (n / 2) = 0).
    { unfold Weights.centre_dist.
      assert (Hr : INR n = 2 * INR (n / 2) + 1).
      { rewrite Hn at 1. rewrite plus_INR, mult_INR. simpl. lra. }
      replace (INR (n / 2) + 1 - (INR n + 1) / 2) with 0 by lra.
      replace (0 ^ 2 + 0 ^ 2) with 0 by ring. apply sqrt_0. }
    rewrite Hd. replace (0 / (3 * sqrt 2)) with 0
      by (pose proof sqrt2_pos; field; lra).
    apply erfcc_0. }
  split; [exact E |]. rewrite E. apply exp_small_gt_1.
Qed.

(** C8 (amended): for every odd kernel and every ppp >= 1 the matrix of
    computeWeights is a square of side kernel * ppp, symmetric under the
    half turn about its centre; its value at a cell depends only on the
    cell's distance to the centre and strictly decreases as that distance
    grows; the cell (n / 2, n / 2) holds the maximum; every value is positive
    and at most exp(3e-8), and at most 1 at every cell that is not exactly
    at the centre; when the side is odd the centre cell holds exactly
    exp(3e-8), which is above 1. *)
Theorem computeWeights_profile (kernel ppp : nat) :
  Nat.odd kernel = true -> (1 <= ppp)%nat ->
  let n := (kernel * ppp)%nat in
  let p := Weights.computeWeights kernel ppp in
  length p = n /\
  (forall i, (i < n)%nat -> length (nth i p []) = n) /\
  (forall i j, (i < n)%nat -> (j < n)%nat ->
     Weights.cell p (n - 1 - i) (n - 1 - j) = Weights.cell p i j) /\
  (forall i j, (i < n)%nat -> (j < n)%nat ->
     Weights.cell p i j <= Weights.cell p (n / 2) (n / 2)) /\
  (forall i j, (i < n)%nat -> (j < n)%nat ->
     0 < Weights.cell p i j <= exp (3 / 100000000) /\
     (Weights.centre_dist n i j <> 0 -> Weights.cell p i j <= 1)) /\
  (forall i j i' j',
     (i < n)%nat -> (j < n)%nat -> (i' < n)%nat -> (j' < n)%nat ->
     (Weights.centre_dist n i j < Weights.centre_dist n i' j' ->
      Weights.cell p i' j' < Weights.cell p i j) /\
     (Weights.centre_dist n i j = Weights.centre_dist n i' j' ->
      Weights.cell p i' j' = Weights.cell p i j)) /\
  (Nat.odd n = true ->
   Weights.cell p (n / 2) (n / 2) = exp (3 / 100000000) /\
   1 < Weights.cell p (n / 2) (n / 2)).
Proof.
  intros Hodd Hppp n p.
  assert (Hn : (1 <= n)%nat).
  { destruct kernel as [| k]; [discriminate |]. unfold n. nia. }
  assert (Hhalf : (n / 2 < n)%nat) by (apply Nat.div_lt; lia).
  split; [apply computeWeights_rows |].
  split; [apply computeWeights_cols |].
  split; [| split; [| split; [| split]]];
    [| | | | intros Hoddn; unfold p, n; now apply centre_cell_value].
  - intros i j Hi Hj. unfold p, n.
    rewrite !computeWeights_dist by lia.
    fold n. now rewrite centre_dist_sym.
  - intros i j Hi Hj. unfold p, n.
    rewrite !computeWeights_dist by assumption. fold n.
    apply erfcc_nonincreasing; [apply scaled_dist_nonneg |].
    pose proof (centre_dist_min n i j) as Hmin.
    pose proof sqrt2_pos.
    apply Rmult_le_compat_r; [| exact Hmin].
    left. apply Rinv_0_lt_compat. lra.
  - intros i j Hi Hj. unfold p, n.
    rewrite computeWeights_dist by assumption. fold n.
    pose proof (scaled_dist_nonneg n i j) as Hz.
    split; [split |].
    + now apply erfcc_pos.
    + rewrite <- erfcc_0. now apply erfcc_le_0.
    + intros Hne. apply Rle_trans with (Weights.erfcc (1 / 6));
        [| apply erfcc_sixth].
      apply erfcc_nonincreasing; [lra |]. now apply scaled_dist_sixth.
  - intros i j i' j' Hi Hj Hi' Hj'. unfold p, n.
    rewrite !computeWeights_dist by assumption. fold n. split.
    + intros Hlt. apply erfcc_decreasing; [apply scaled_dist_nonneg |].
      now apply scaled_dist_lt.
    + intros ->. reflexivity.
Qed.

Lemma computeWeights_profile_witness :
  length (Weights.computeWeights 3 4) = 12%nat /\
  Weights.cell (Weights.computeWeights 3 4) 11 11 =
  Weights.cell (Weights.computeWeights 3 4) 0 0.
Proof.
  destruct (computeWeights_profile 3 4 eq_refl ltac:(lia))
    as (Hlen & _ & Hsym & _).
  split; [exact Hlen |].
  apply (Hsym 0%nat 0%nat); simpl; lia.
Defined.

(** C8 (counterexample): with kernel 3 and ppp 1 the centre cell (1, 1) of
    the weight matrix is exp(3e-8), which is greater than 1. *)
Lemma centre_weight_above_one :
  Nat.odd 3 = true /\ (1 <= 1)%nat /\
  Weights.cell (Weights.computeWeights 3 1) 1 1 = exp (3 / 100000000) /\
  1 < Weights.cell (Weights.computeWeights 3 1) 1 1.
Proof.
  assert (E : Weights.cell (Weights.computeWeights 3 1) 1 1 =
              exp (3 / 100000000)).
  { rewrite computeWeights_dist by (simpl; lia).
    assert (Hd : Weights.centre_dist (3 * 1) 1 1 = 0).
    { unfold Weights.centre_dist.
      replace ((INR 1 + 1 - (INR (3 * 1) + 1) / 2) ^ 2 +
               (INR 1 + 1 - (INR (3 * 1) + 1) / 2) ^ 2) with 0
        by (simpl; lra).
      apply sqrt_0. }
    rewrite Hd. unfold Rdiv. rewrite Rmult_0_l. apply erfcc_0. }
  repeat split; try reflexivity; try lia; [exact E |].
  rewrite E. apply exp_small_gt_1.
Qed.

(** * Further properties *)

(** ** [removeByAngle]: short paths, extreme tolerances, direction *)

Lemma interior_scan_cons3 a b c l tol :
  Angle.interior_scan (a :: b :: c :: l) tol =
  (if Rleb tol (Angle.turning_angle a b c) then [b] else [])
    ++ Angle.interior_scan (b :: c :: l) tol.
Proof. reflexivity. Qed.

Lemma interior_scan_bound (puntos : list point) (tol : R) :
  (length (Angle.interior_scan puntos tol) <= length puntos - 2)%nat /\
  incl (Angle.interior_scan puntos tol) puntos.
Proof.
  induction puntos as [| a rest IH]; [split; [simpl; lia | apply incl_nil_l] |].
  destruct rest as [| b [| c l]];
    [split; [simpl; lia | apply incl_nil_l] ..|].
  rewrite interior_scan_cons3. destruct IH as [IHlen IHin]. split.
  - rewrite length_app. simpl length in *.
    destruct (Rleb tol (Angle.turning_angle a b c)); simpl; lia.
  - apply incl_app.
    + destruct (Rleb tol (Angle.turning_angle a b c));
        [| apply incl_nil_l].
      intros q [<- | []]. right. now left.
    + apply incl_tl. exact IHin.
Qed.

Lemma last_default (l : list point) (d e : point) :
  l <> [] -> last l d = last l e.
Proof.
  induction l as [| a l IH]; [congruence |]. intros _.
  destruct l as [| b l]; [reflexivity |].
  change (last (a :: b :: l) d) with (last (b :: l) d).
  change (last (a :: b :: l) e) with (last (b :: l) e).
  apply IH. discriminate.
Qed.

Lemma last_in (l : list point) (d : point) : l <> [] -> In (last l d) l.
Proof.
  induction l as [| a l IH]; [congruence |]. intros _.
  destruct l as [| b l]; [now left |].
  right. change (last (a :: b :: l) d) with (last (b :: l) d).
  apply IH. discriminate.
Qed.

(** X1: On every non-empty path removeByAngle returns between 2 and
    max(2, len) points, all taken from the path, beginning with the first
    point and ending with the last; a path of one point comes back as that
    point twice, and the empty path raises. *)
Theorem removeByAngle_shape (puntos : list point) (tol : R) (p0 : point) :
  Angle.removeByAngle [] tol = None /\
  Angle.removeByAngle [p0] tol = Some [p0; p0] /\
  (puntos <> [] ->
   exists out,
     Angle.removeByAngle puntos tol = Some out /\
     hd p0 out = hd p0 puntos /\ last out p0 = last puntos p0 /\
     incl out puntos /\
     (2 <= length out <= Nat.max 2 (length puntos))%nat).
Proof.
  split; [reflexivity |]. split; [reflexivity |]. intros Hne.
  destruct puntos as [| a rest]; [congruence |].
  destruct (interior_scan_bound (a :: rest) tol) as [Hlen Hin].
  eexists. split; [reflexivity |]. repeat split.
  - change (a :: Angle.interior_scan (a :: rest) tol ++ [last (a :: rest) a])
      with ((a :: Angle.interior_scan (a :: rest) tol)
              ++ [last (a :: rest) a]).
    rewrite last_last. apply last_default. discriminate.
  - intros q [<- | Hq]; [now left |]. apply in_app_or in Hq.
    destruct Hq as [Hq | [<- | []]]; [now apply Hin |].
    apply last_in. discriminate.
  - cbn [length]. rewrite length_app. cbn [length]. lia.
  - cbn [length] in *. rewrite length_app. cbn [length].
    destruct (length rest); lia.
Qed.

Lemma removeByAngle_shape_witness :
  exists out,
    Angle.removeByAngle [(0, 0); (1, 0); (1, 1)] 150 = Some out /\
    (2 <= length out <= 3)%nat.
Proof.
  destruct (removeByAngle_shape [(0, 0); (1, 0); (1, 1)] 150 (0, 0))
    as (_ & _ & H).
  destruct (H ltac:(discriminate)) as (out & Hout & _ & _ & _ & Hlen).
  exists out. split; [exact Hout | exact Hlen].
Defined.

Lemma interior_scan_all (puntos : list point) (tol : R) :
  tol <= 0 -> Angle.interior_scan puntos tol = removelast (tl puntos).
Proof.
  intros Htol. induction puntos as [| a rest IH]; [reflexivity |].
  destruct rest as [| b [| c l]]; [reflexivity | reflexivity |].
  rewrite interior_scan_cons3, IH.
  pose proof (turning_angle_range a b c).
  rewrite (proj2 (Rleb_true tol (Angle.turning_angle a b c))) by lra.
  reflexivity.
Qed.

Lemma interior_scan_none (puntos : list point) (tol : R) :
  360 <= tol -> Angle.interior_scan puntos tol = [].
Proof.
  intros Htol. induction puntos as [| a rest IH]; [reflexivity |].
  destruct rest as [| b [| c l]]; [reflexivity | reflexivity |].
  rewrite interior_scan_cons3, IH.
  pose proof (turning_angle_range a b c).
  rewrite (proj2 (Rleb_false tol (Angle.turning_angle a b c))) by lra.
  reflexivity.
Qed.

(** X2: With a tolerance of 0 or less removeByAngle returns a path of two or
    more points unchanged; with a tolerance of 360 or more it returns only
    the first and the last point. *)
Theorem removeByAngle_extremes (puntos : list point) (tol : R) :
  (tol <= 0 -> (2 <= length puntos)%nat ->
   Angle.removeByAngle puntos tol = Some puntos) /\
  (360 <= tol -> forall p0 rest, puntos = p0 :: rest ->
   Angle.removeByAngle puntos tol = Some [p0; last puntos p0]).
Proof.
  split.
  - intros Htol Hlen.
    destruct puntos as [| a [| b rest]]; [simpl in Hlen; lia .. |].
    unfold Angle.removeByAngle. rewrite interior_scan_all by assumption.
    change (tl (a :: b :: rest)) with (b :: rest).
    change (last (a :: b :: rest) a) with (last (b :: rest) a).
    rewrite <- app_removelast_last by congruence. reflexivity.
  - intros Htol p0 rest ->. unfold Angle.removeByAngle.
    rewrite interior_scan_none by assumption. reflexivity.
Qed.

Lemma removeByAngle_extremes_witness :
  Angle.removeByAngle [(0, 0); (1, 0); (1, 1)] 0 =
    Some [(0, 0); (1, 0); (1, 1)] /\
  Angle.removeByAngle [(0, 0); (1, 0); (1, 1)] 360 =
    Some [(0, 0); (1, 1)].
Proof.
  destruct (removeByAngle_extremes [(0, 0); (1, 0); (1, 1)] 0) as [H0 _].
  destruct (removeByAngle_extremes [(0, 0); (1, 0); (1, 1)] 360) as [_ H1].
  split.
  - apply H0; [lra | simpl; lia].
  - apply (H1 ltac:(lra) (0, 0) [(1, 0); (1, 1)] eq_refl).
Defined.

Lemma interior_scan_monotone (puntos : list point) (tol1 tol2 : R) :
  tol1 <= tol2 ->
  (length (Angle.interior_scan puntos tol2) <=
   length (Angle.interior_scan puntos tol1))%nat /\
  incl (Angle.interior_scan puntos tol2) (Angle.interior_scan puntos tol1).
Proof.
  intros Htol. induction puntos as [| a rest IH];
    [split; [simpl; lia | apply incl_refl] |].
  destruct rest as [| b [| c l]];
    [split; [simpl; lia | apply incl_refl] ..|].
  rewrite !interior_scan_cons3. destruct IH as [IHlen IHin].
  destruct (Rleb tol2 (Angle.turning_angle a b c)) eqn:C2;
    [apply Rleb_true in C2 | apply Rleb_false in C2].
  - rewrite (proj2 (Rleb_true tol1 (Angle.turning_angle a b c))) by lra.
    split.
    + rewrite !length_app. cbn [length]. lia.
    + apply incl_app; [apply incl_appl, incl_refl | apply incl_appr, IHin].
  - split.
    + rewrite !length_app. cbn [length]. lia.
    + apply incl_app; [apply incl_nil_l | apply incl_appr, IHin].
Qed.

Lemma removeByAngle_cons a rest tol :
  Angle.removeByAngle (a :: rest) tol =
  Some (a :: Angle.interior_scan (a :: rest) tol ++ [last (a :: rest) a]).
Proof. reflexivity. Qed.

(** X3: Raising the tolerance never keeps more: for tol1 <= tol2 the output
    with tol2 is no longer than the output with tol1 and every point of it
    is in the output with tol1. *)
Theorem removeByAngle_monotone (puntos out1 out2 : list point)
    (tol1 tol2 : R) :
  tol1 <= tol2 ->
  Angle.removeByAngle puntos tol1 = Some out1 ->
  Angle.removeByAngle puntos tol2 = Some out2 ->
  (length out2 <= length out1)%nat /\ incl out2 out1.
Proof.
  intros Htol H1 H2. destruct puntos as [| a rest]; [discriminate |].
  rewrite removeByAngle_cons in H1, H2.
  assert (E1 : out1 = a :: Angle.interior_scan (a :: rest) tol1
                         ++ [last (a :: rest) a]) by congruence.
  assert (E2 : out2 = a :: Angle.interior_scan (a :: rest) tol2
                         ++ [last (a :: rest) a]) by congruence.
  clear H1 H2. subst out1 out2.
  destruct (interior_scan_monotone (a :: rest) tol1 tol2 Htol) as [Hlen Hin].
  split.
  - cbn [length]. rewrite !length_app. cbn [length]. lia.
  - intros q [<- | Hq]; [now left |]. right.
    apply in_app_or in Hq. apply in_or_app.
    destruct Hq as [Hq | Hq]; [left; now apply Hin | now right].
Qed.

Lemma corner_path_all :
  Angle.removeByAngle [(0, 0); (1, 0); (1, 1)] 0 =
    Some [(0, 0); (1, 0); (1, 1)].
Proof.
  rewrite removeByAngle_cons, interior_scan_all by lra. reflexivity.
Qed.

Lemma corner_path_ends :
  Angle.removeByAngle [(0, 0); (1, 0); (1, 1)] 360 = Some [(0, 0); (1, 1)].
Proof.
  rewrite removeByAngle_cons, interior_scan_none by lra. reflexivity.
Qed.

Lemma removeByAngle_monotone_witness :
  (length [(0, 0); (1, 1)] <= length [(0, 0); (1, 0); (1, 1)])%nat.
Proof.
  apply (removeByAngle_monotone [(0, 0); (1, 0); (1, 1)] _ _ 0 360
           ltac:(lra) corner_path_all corner_path_ends).
Defined.

Lemma degrees_opp r : degrees (- r) = - degrees r.
Proof. pose proof PI_RGT_0. unfold degrees. field. lra. Qed.

(** X4: Walking the path the other way turns every non-zero turning angle t
    into 360 - t (and leaves 0 at 0), so which points pass the test depends
    on the direction of travel. *)
Theorem turning_angle_reverse (a b c : point) :
  (Angle.turning_angle a b c = 0 -> Angle.turning_angle c b a = 0) /\
  (Angle.turning_angle a b c <> 0 ->
   Angle.turning_angle c b a = 360 - Angle.turning_angle a b c).
Proof.
  unfold Angle.turning_angle. cbv zeta.
  set (u := atan2 (snd c - snd b) (fst c - fst b)).
  set (w := atan2 (snd a - snd b) (fst a - fst b)).
  replace (w - u) with (- (u - w)) by lra. rewrite degrees_opp.
  pose proof (atan2_bound (snd c - snd b) (fst c - fst b)) as Hu.
  pose proof (atan2_bound (snd a - snd b) (fst a - fst b)) as Hw.
  fold u in Hu. fold w in Hw.
  assert (H1 : degrees (-2 * PI) < degrees (u - w)) by (apply degrees_lt; lra).
  assert (H2 : degrees (u - w) < degrees (2 * PI)) by (apply degrees_lt; lra).
  rewrite degrees_PI in H1, H2.
  set (D := degrees (u - w)) in *.
  destruct (Rltb D 0) eqn:C1;
    [apply Rltb_true in C1 | apply Rltb_false in C1];
    (destruct (Rltb (- D) 0) eqn:C2;
      [apply Rltb_true in C2 | apply Rltb_false in C2]);
    split; intros H; lra.
Qed.

(** ** [dist] is a metric *)

Lemma dist_sq p q :
  Geometry.dist p q ^ 2 = (fst q - fst p) ^ 2 + (snd q - snd p) ^ 2.
Proof.
  unfold Geometry.dist.
  apply pow2_sqrt. apply Rplus_le_le_0_compat; apply pow2_ge_0.
Qed.

Lemma dist_nonneg p q : 0 <= Geometry.dist p q.
Proof. apply sqrt_pos. Qed.

(** X5: dist is non-negative, symmetric, zero exactly on equal points, and
    satisfies the triangle inequality. *)
Theorem dist_metric (p q r : point) :
  0 <= Geometry.dist p q /\
  Geometry.dist p q = Geometry.dist q p /\
  (Geometry.dist p q = 0 <-> p = q) /\
  Geometry.dist p r <= Geometry.dist p q + Geometry.dist q r.
Proof.
  split; [apply dist_nonneg |]. split; [| split].
  - unfold Geometry.dist. f_equal. ring.
  - split.
    + intros H. pose proof (dist_sq p q) as Hsq. rewrite H in Hsq.
      destruct p as [px py], q as [qx qy]. simpl in Hsq.
      assert (Hz : Rsqr (qx - px) + Rsqr (qy - py) = 0)
        by (unfold Rsqr; lra).
      apply Rplus_sqr_eq_0 in Hz. destruct Hz as [Hx Hy].
      f_equal; lra.
    + intros ->. unfold Geometry.dist.
      replace ((fst q - fst q) ^ 2 + (snd q - snd q) ^ 2) with 0 by ring.
      apply sqrt_0.
  - pose proof (dist_nonneg p q) as H1. pose proof (dist_nonneg q r) as H2.
    pose proof (dist_nonneg p r) as H3.
    pose proof (dist_sq p q) as S1. pose proof (dist_sq q r) as S2.
    pose proof (dist_sq p r) as S3.
    set (a := Geometry.dist p q) in *. set (b := Geometry.dist q r) in *.
    set (c := Geometry.dist p r) in *.
    set (u1 := fst q - fst p) in *. set (u2 := snd q - snd p) in *.
    set (v1 := fst r - fst q) in *. set (v2 := snd r - snd q) in *.
    replace (fst r - fst p) with (u1 + v1) in S3 by (unfold u1, v1; ring).
    replace (snd r - snd p) with (u2 + v2) in S3 by (unfold u2, v2; ring).
    (* Cauchy-Schwarz: u.v <= a b *)
    assert (CS : u1 * v1 + u2 * v2 <= a * b).
    { destruct (Rle_dec (u1 * v1 + u2 * v2) 0) as [Hneg | Hpos].
      - apply Rle_trans with 0; [exact Hneg | now apply Rmult_le_pos].
      - assert (Hsq : (u1 * v1 + u2 * v2) ^ 2 <= (a * b) ^ 2).
        { replace ((a * b) ^ 2) with (a ^ 2 * b ^ 2) by ring.
          rewrite S1, S2.
          assert (0 <= (u1 * v2 - u2 * v1) ^ 2) by apply pow2_ge_0.
          nra. }
        assert (0 <= a * b) by now apply Rmult_le_pos.
        nra. }
    assert (Hc : c ^ 2 <= (a + b) ^ 2) by nra.
    nra.
Qed.

(** ** Point cleaning: what [cleanPointsByAngle] and [cleanPoints2] emit *)

Lemma lineas_of_inv (lst : list nat) (puntos lineas : list point) :
  Clean.lineas_of lst puntos = Some lineas ->
  Forall (fun iden => (iden < length puntos)%nat) lst /\
  lineas = map (fun iden => nth iden puntos (0, 0)) lst.
Proof.
  revert lineas. induction lst as [| iden lst IH]; intros lineas.
  - intros [= <-]. split; [constructor | reflexivity].
  - cbn [Clean.lineas_of].
    destruct (nth_error puntos iden) as [pt |] eqn:E; [| discriminate].
    destruct (Clean.lineas_of lst puntos) as [l |]; [| discriminate].
    intros [= <-]. destruct (IH l eq_refl) as [Hall ->]. split.
    + constructor; [| exact Hall]. apply nth_error_Some. congruence.
    + cbn [map]. f_equal. symmetry. now apply nth_error_nth.
Qed.

Lemma lineas_of_out_of_range (lst : list nat) (puntos : list point) :
  Exists (fun iden => (length puntos <= iden)%nat) lst ->
  Clean.lineas_of lst puntos = None.
Proof.
  induction 1 as [iden lst Hi | iden lst _ IH].
  - cbn [Clean.lineas_of].
    now rewrite (proj2 (nth_error_None puntos iden) Hi).
  - cbn [Clean.lineas_of]. rewrite IH.
    now destruct (nth_error puntos iden).
Qed.

Lemma map_nth_incl (lst : list nat) (puntos : list point) :
  Forall (fun iden => (iden < length puntos)%nat) lst ->
  incl (map (fun iden => nth iden puntos (0, 0)) lst) puntos.
Proof.
  intros Hall q Hq. apply in_map_iff in Hq. destruct Hq as (i & <- & Hi).
  rewrite Forall_forall in Hall. apply nth_In. now apply Hall.
Qed.

Lemma cleanPointsByAngle_inv (lst : list nat) (puntos out : list point)
    (tol_rba : option R) :
  Clean.cleanPointsByAngle lst puntos tol_rba = Some out ->
  Forall (fun iden => (iden < length puntos)%nat) lst /\
  incl out puntos /\
  (forall tol, tol_rba = Some tol -> lst <> [] /\ (2 <= length out)%nat) /\
  (tol_rba = None -> out = map (fun iden => nth iden puntos (0, 0)) lst).
Proof.
  unfold Clean.cleanPointsByAngle.
  destruct (Clean.lineas_of lst puntos) as [lineas |] eqn:El;
    [| discriminate].
  destruct (lineas_of_inv _ _ _ El) as [Hall ->].
  pose proof (map_nth_incl lst puntos Hall) as Hincl.
  destruct tol_rba as [tol |].
  - intros Hout. split; [exact Hall |].
    destruct (map (fun iden => nth iden puntos (0, 0)) lst)
      as [| a rest] eqn:Em; [discriminate |].
    rewrite removeByAngle_cons in Hout.
    assert (E : out = a :: Angle.interior_scan (a :: rest) tol
                        ++ [last (a :: rest) a]) by congruence.
    clear Hout. subst out.
    destruct (interior_scan_bound (a :: rest) tol) as [_ Hin].
    split; [| split].
    + intros q [<- | Hq]; [apply Hincl; now left |].
      apply in_app_or in Hq. destruct Hq as [Hq | [<- | []]].
      * apply Hincl. now apply Hin.
      * apply Hincl. apply last_in. discriminate.
    + intros tol' _. split.
      * destruct lst; [discriminate | discriminate].
      * cbn [length]. rewrite length_app. cbn [length]. lia.
    + discriminate.
  - intros [= <-]. split; [exact Hall |]. split; [exact Hincl |].
    split; [discriminate | reflexivity].
Qed.

(** X6: When cleanPointsByAngle returns, every index of the path is in range
    and every returned point is one of the group's points; with a tolerance
    the path was not empty and at least two points come back; without one
    the path's points come back unchanged.  An index outside the group makes
    it raise. *)
Theorem cleanPointsByAngle_points (lst : list nat) (puntos : list point)
    (tol_rba : option R) :
  (forall out, Clean.cleanPointsByAngle lst puntos tol_rba = Some out ->
     Forall (fun iden => (iden < length puntos)%nat) lst /\
     incl out puntos /\
     (forall tol, tol_rba = Some tol -> lst <> [] /\ (2 <= length out)%nat) /\
     (tol_rba = None ->
      out = map (fun iden => nth iden puntos (0, 0)) lst)) /\
  (Exists (fun iden => (length puntos <= iden)%nat) lst ->
   Clean.cleanPointsByAngle lst puntos tol_rba = None).
Proof.
  split.
  - intros out. apply cleanPointsByAngle_inv.
  - intros Hex. unfold Clean.cleanPointsByAngle.
    now rewrite lineas_of_out_of_range.
Qed.

Section GroupLoop.

Variable Delaunay : list point -> option (list (nat * nat * nat)).
Variable computeLST
  : list (nat * nat * nat) -> list point -> option (list nat).

Local Abbreviation cleanPoints2 := (Clean.cleanPoints2 Delaunay computeLST).
Local Abbreviation try_group := (Clean.try_group Delaunay computeLST).

Lemma process_groups_cons group groups identifier identifiers tol_rba :
  cleanPoints2 (group :: groups) (identifier :: identifiers) tol_rba =
  (if Clean.guard group then
     match try_group group tol_rba with
     | Some clean_points => [(clean_points, identifier)]
     | None => []
     end
   else []) ++ cleanPoints2 groups identifiers tol_rba.
Proof.
  unfold Clean.cleanPoints2. cbn [Clean.process_groups].
  destruct (Clean.guard group); [| reflexivity].
  now destruct (Clean.try_group Delaunay computeLST group tol_rba).
Qed.

Lemma cleanPoints2_app_gen groups1 identifiers1 groups2 identifiers2 tol_rba :
  length groups1 = length identifiers1 ->
  cleanPoints2 (groups1 ++ groups2) (identifiers1 ++ identifiers2) tol_rba =
  cleanPoints2 groups1 identifiers1 tol_rba ++
  cleanPoints2 groups2 identifiers2 tol_rba.
Proof.
  revert identifiers1.
  induction groups1 as [| g groups1 IH]; intros [| i identifiers1] Hlen;
    try discriminate.
  - reflexivity.
  - cbn [app]. rewrite !process_groups_cons, IH by (simpl in Hlen; lia).
    now rewrite app_assoc.
Qed.

(** X7: The groups are cleaned independently: the output for a list of groups
    is the concatenation of the outputs of its parts, a group whose
    triangulation or path search raises contributes nothing, and so does an
    empty group, without stopping the others. *)
Theorem cleanPoints2_independent
    (groups1 groups2 : list (list point)) (identifiers1 identifiers2 : list Z)
    (group : list point) (identifier : Z) (tol_rba : option R) :
  (length groups1 = length identifiers1 ->
   cleanPoints2 (groups1 ++ groups2) (identifiers1 ++ identifiers2) tol_rba =
   cleanPoints2 groups1 identifiers1 tol_rba ++
   cleanPoints2 groups2 identifiers2 tol_rba) /\
  (group = [] \/ try_group group tol_rba = None ->
   cleanPoints2 (group :: groups2) (identifier :: identifiers2) tol_rba =
   cleanPoints2 groups2 identifiers2 tol_rba).
Proof.
  split; [apply cleanPoints2_app_gen |].
  intros H. rewrite process_groups_cons.
  destruct H as [-> | ->]; [reflexivity |].
  now destruct (Clean.guard group).
Qed.

(** X8: Every entry cleanPoints2 emits pairs points of one input group with
    that group's identifier; there are at most as many entries as groups,
    and when an angle tolerance is given every emitted line has at least
    two vertices. *)
Theorem cleanPoints2_entries (groups : list (list point))
    (identifiers : list Z) (tol_rba : option R) :
  (length (cleanPoints2 groups identifiers tol_rba) <= length groups)%nat /\
  forall pts identifier,
    In (pts, identifier) (cleanPoints2 groups identifiers tol_rba) ->
    exists k group,
      nth_error groups k = Some group /\
      nth_error identifiers k = Some identifier /\
      incl pts group /\
      (forall tol, tol_rba = Some tol -> (2 <= length pts)%nat).
Proof.
  revert identifiers. induction groups as [| g groups IH];
    intros identifiers.
  - split; [simpl; lia | intros pts i []].
  - destruct identifiers as [| i identifiers].
    + split; [simpl; lia | intros pts i' []].
    + rewrite process_groups_cons. destruct (IH identifiers) as [IHlen IHin].
      split.
      * rewrite length_app. cbn [length].
        destruct (Clean.guard g); [| simpl; lia].
        destruct (try_group g tol_rba); simpl; lia.
      * intros pts i' Hin. apply in_app_or in Hin.
        destruct Hin as [Hin | Hin].
        -- destruct (Clean.guard g); [| destruct Hin].
           destruct (try_group g tol_rba) as [cp |] eqn:Et;
             [| destruct Hin].
           destruct Hin as [[= <- <-] | []].
           exists 0%nat, g. split; [reflexivity |]. split; [reflexivity |].
           unfold Clean.try_group in Et.
           destruct (Delaunay g) as [tri |]; [| discriminate].
           destruct (computeLST tri g) as [lst |]; [| discriminate].
           destruct (cleanPointsByAngle_inv _ _ _ _ Et)
             as (_ & Hincl & Htol & _).
           split; [exact Hincl |]. intros tol Ht.
           now destruct (Htol tol Ht).
        -- destruct (IHin pts i' Hin) as (k & group & H1 & H2 & H3).
           exists (S k), group. auto.
Qed.

End GroupLoop.

(** ** [getClusters]: which positions it returns *)

Lemma first_index_sound v a k :
  Np.first_index v a = Some k -> nth_error a k = Some v.
Proof.
  revert k. induction a as [| x a IH]; intros k; [discriminate |].
  simpl. destruct (Reqb x v) eqn:C.
  - intros [= <-]. apply Reqb_true in C. now subst.
  - destruct (Np.first_index v a) as [k' |]; [| discriminate].
    intros [= <-]. now apply IH.
Qed.

Lemma locate_first orig_coord coord c cp :
  Cluster.locate orig_coord coord c = Ok cp ->
  Forall (fun k => Np.first_index (nth k orig_coord 0) orig_coord = Some k)
         cp /\
  length cp = length c.
Proof.
  revert cp. induction c as [| iden c IH]; intros cp.
  - intros [= <-]. split; [constructor | reflexivity].
  - cbn [Cluster.locate].
    destruct (Cluster.item coord iden) as [v |]; [| discriminate].
    cbn [bind].
    destruct (Np.first_index v orig_coord) as [a0 |] eqn:Ea;
      [| discriminate].
    destruct (Cluster.locate orig_coord coord c) as [l |]; [| discriminate].
    cbn [bind]. intros [= <-]. destruct (IH l eq_refl) as [Hall Hlen].
    split; [| simpl; now rewrite Hlen].
    constructor; [| exact Hall].
    rewrite (nth_error_nth _ _ _ (first_index_sound _ _ _ Ea)). exact Ea.
Qed.

Lemma locate_all_first orig_coord coord clusters pos :
  Cluster.locate_all orig_coord coord clusters = Ok pos ->
  Forall (fun k => Np.first_index (nth k orig_coord 0) orig_coord = Some k)
         (concat pos) /\
  map (@length nat) pos = map (@length nat) clusters.
Proof.
  revert pos. induction clusters as [| c clusters IH]; intros pos.
  - intros [= <-]. split; [constructor | reflexivity].
  - cbn [Cluster.locate_all].
    destruct (Cluster.locate orig_coord coord c) as [cp |] eqn:Ec;
      [| discriminate].
    cbn [bind].
    destruct (Cluster.locate_all orig_coord coord clusters) as [ps |];
      [| discriminate].
    cbn [bind]. intros [= <-].
    destruct (locate_first _ _ _ _ Ec) as [H1 L1].
    destruct (IH ps eq_refl) as [H2 L2]. split.
    + cbn [concat]. apply Forall_app. auto.
    + cbn [map]. now rewrite L1, L2.
Qed.

Lemma fancy_values a idx vals :
  Cluster.fancy a idx = Ok vals -> vals = map (fun k => nth k a 0) idx.
Proof.
  revert vals. induction idx as [| k idx IH]; intros vals.
  - now intros [= <-].
  - cbn [Cluster.fancy]. unfold Cluster.item at 1.
    destruct (nth_error a k) as [v |] eqn:E; [| discriminate].
    cbn [bind]. destruct (Cluster.fancy a idx) as [l |]; [| discriminate].
    cbn [bind]. intros [= <-]. cbn [map]. f_equal.
    + symmetry. now apply nth_error_nth.
    + now apply IH.
Qed.

Lemma fancy_concat a pos runs :
  Forall2 (fun cp vals =>
             Cluster.fancy a cp = Ok vals /\
             Forall (fun k => (k < length a)%nat) cp) pos runs ->
  map (fun k => nth k a 0) (concat pos) = concat runs.
Proof.
  induction 1 as [| cp vals pos runs [Hv _] _ IH]; [reflexivity |].
  cbn [concat]. rewrite map_app, IH. f_equal.
  symmetry. now apply fancy_values.
Qed.

(** X9: getClusters raises on an empty array.  On a non-empty one it returns
    the array and index groups such that the coordinates at the returned
    positions, read in order, are the sorted coordinates, no group is empty,
    and every returned position is the first position holding its
    coordinate: a coordinate that occurs twice is represented both times by
    its first position, and the later position is never returned. *)
Theorem getClusters_positions (coord : list R) (tol : R) :
  Cluster.getClusters [] tol = Raise IndexError /\
  ((1 <= length coord)%nat ->
   exists pos,
     Cluster.getClusters coord tol = Ok (coord, pos) /\
     map (fun k => nth k coord 0) (concat pos) = Np.sort coord /\
     Forall (fun cp => cp <> []) pos /\
     Forall (fun k => Np.first_index (nth k coord 0) coord = Some k)
            (concat pos)).
Proof.
  split; [reflexivity |]. intros Hlen.
  destruct (getClusters_runs coord tol Hlen)
    as (pos & runs & Hget & Hcat & Hchain & _ & Hall).
  exists pos. split; [exact Hget |]. split; [| split].
  - rewrite <- Hcat. now apply (fancy_concat coord pos runs).
  - clear - Hall Hchain. induction Hall as [| cp vals pos runs [Hv _] _ IH];
      [constructor |].
    inversion Hchain as [| ? ? [Hne _] Hrest]; subst.
    constructor; [| now apply IH].
    intros ->. cbn in Hv. injection Hv as <-. congruence.
  - unfold Cluster.getClusters in Hget. cbv zeta in Hget.
    destruct (Cluster.locate_all coord (Np.sort coord)
                (Cluster.split_runs tol (Np.sort coord) 0 [0%nat]))
      as [pos' |] eqn:El; [| discriminate].
    cbn [bind] in Hget. injection Hget as <-.
    now destruct (locate_all_first _ _ _ _ El).
Qed.

Lemma getClusters_positions_witness :
  exists pos,
    Cluster.getClusters [5; 5] 3 = Ok ([5; 5], pos) /\
    Forall (fun k => Np.first_index (nth k [5; 5] 0) [5; 5] = Some k)
           (concat pos).
Proof.
  destruct (getClusters_positions [5; 5] 3) as [_ H].
  destruct (H ltac:(simpl; lia)) as (pos & Hget & _ & _ & Hfirst).
  exists pos. split; assumption.
Defined.

(** ** [creaCluster]: where the averaged points lie *)

Lemma ascending_cons a b l :
  ascending (a :: b :: l) <-> a <= b /\ ascending (b :: l).
Proof. reflexivity. Qed.

Lemma insert_ascending x l : ascending l -> ascending (Np.insert x l).
Proof.
  induction l as [| y l IH]; intros Hl; [exact I |].
  cbn [Np.insert].
  destruct (Rleb x y) eqn:C;
    [apply Rleb_true in C | apply Rleb_false in C].
  - apply ascending_cons. auto.
  - destruct l as [| z l].
    + cbn [Np.insert]. apply ascending_cons. split; [lra | exact I].
    + apply ascending_cons in Hl. destruct Hl as [Hyz Hl].
      specialize (IH Hl). cbn [Np.insert] in *.
      destruct (Rleb x z) eqn:C2;
        [apply Rleb_true in C2 | apply Rleb_false in C2];
        apply ascending_cons; split; try lra; exact IH.
Qed.

Lemma sort_ascending l : ascending (Np.sort l).
Proof.
  induction l as [| x l IH]; [exact I |].
  cbn [Np.sort]. now apply insert_ascending.
Qed.

Lemma ascending_tail a l : ascending (a :: l) -> ascending l.
Proof. destruct l as [| b l]; [intros; exact I | intros [_ H]; exact H]. Qed.

Lemma ascending_app l1 l2 :
  ascending (l1 ++ l2) -> ascending l1 /\ ascending l2.
Proof.
  induction l1 as [| a l1 IH]; intros H; [split; [exact I | exact H] |].
  destruct (IH (ascending_tail _ _ H)) as [H1 H2]. split; [| exact H2].
  destruct l1 as [| b l1]; [exact I |].
  apply ascending_cons. split; [| exact H1].
  cbn [app] in H. now destruct H.
Qed.

Lemma ascending_concat runs r :
  ascending (concat runs) -> In r runs -> ascending r.
Proof.
  induction runs as [| r0 runs IH]; [intros _ [] |].
  cbn [concat]. intros H Hin. destruct (ascending_app _ _ H) as [H1 H2].
  destruct Hin as [<- | Hin]; [exact H1 | now apply IH].
Qed.

Lemma concat_length_le (runs : list (list R)) r :
  In r runs -> (length r <= length (concat runs))%nat.
Proof.
  induction runs as [| r0 runs IH]; [intros [] |].
  cbn [concat]. rewrite length_app. intros [<- | Hin]; [lia |].
  specialize (IH Hin). lia.
Qed.

Lemma cluster_value_structure (axis other p : list R) (tol : R)
    (min_cluster_size : Z) (mk : R -> point) (x : R) :
  length axis = length other -> length axis = length p ->
  Forall (fun w => 0 < w) p ->
  exists runs means,
    (forall r, In r runs -> r <> [] /\ Cluster.close_chain tol r /\
                            incl r (Cluster.sharing axis other x) /\
                            ascending r /\
                            (length r <=
                             length (Cluster.sharing axis other x))%nat) /\
    (exists l, Np.sort (Cluster.sharing axis other x) = l /\
               ((2 <= length (Cluster.sharing axis other x))%nat ->
                concat runs = l)) /\
    Forall2 Cluster.weighted_mean_of runs means /\
    Cluster.cluster_value axis other p tol min_cluster_size mk x =
      Ok (Cluster.kept_runs min_cluster_size mk runs means).
Proof.
  intros Ho Hp Hpos.
  unfold Cluster.cluster_value. cbv zeta.
  pose proof (fancy_nonzero_eq axis x other [] Ho) as E1.
  pose proof (fancy_nonzero_eq axis x p [] Hp) as E2.
  cbn [app length] in E1, E2. rewrite E1. cbn [bind]. rewrite E2.
  cbn [bind].
  destruct (2 <=? length (Cluster.sharing axis other x))%nat eqn:Hn.
  - apply Nat.leb_le in Hn.
    destruct (getClusters_runs (Cluster.sharing axis other x) tol
                ltac:(lia))
      as (pos & runs & -> & Hcat & Hchain & Hsep & Hall).
    cbn [bind fst snd].
    destruct (average_runs_kept (Cluster.sharing axis other x)
                (Cluster.sharing axis p x) min_cluster_size mk pos runs)
      as (means & Hmeans & Hout).
    + symmetry. now apply sharing_length.
    + now apply sharing_positive.
    + eapply Forall_impl; [| exact Hchain]. intros r [Hr _]. exact Hr.
    + exact Hall.
    + exists runs, means. split; [| split; [| split]]; try assumption.
      * intros r Hr. rewrite Forall_forall in Hchain.
        destruct (Hchain r Hr) as [Hne Hc]. split; [exact Hne |].
        split; [exact Hc |]. split; [| split].
        -- intros v Hv. apply sort_in.
           rewrite <- Hcat. apply in_concat. eauto.
        -- apply (ascending_concat runs); [| exact Hr].
           rewrite Hcat. apply sort_ascending.
        -- rewrite <- (sort_length (Cluster.sharing axis other x)), <- Hcat.
           now apply concat_length_le.
      * eexists. split; [reflexivity |]. intros _. exact Hcat.
  - exists [], []. split; [intros r [] |]. split.
    + eexists. split; [reflexivity |]. apply Nat.leb_gt in Hn. lia.
    + split; [constructor | reflexivity].
Qed.

Lemma list_min (r : list R) :
  r <> [] -> exists lo, In lo r /\ Forall (fun v => lo <= v) r.
Proof.
  induction r as [| a r IH]; [congruence |]. intros _.
  destruct r as [| b r].
  - exists a. split; [now left |]. constructor; [lra | constructor].
  - destruct (IH ltac:(discriminate)) as (lo & Hin & Hall).
    destruct (Rle_dec a lo) as [Hle | Hgt].
    + exists a. split; [now left |]. constructor; [lra |].
      eapply Forall_impl; [| exact Hall]. intros v Hv. simpl in Hv. lra.
    + exists lo. split; [now right |]. constructor; [lra | exact Hall].
Qed.

Lemma list_max (r : list R) :
  r <> [] -> exists hi, In hi r /\ Forall (fun v => v <= hi) r.
Proof.
  induction r as [| a r IH]; [congruence |]. intros _.
  destruct r as [| b r].
  - exists a. split; [now left |]. constructor; [lra | constructor].
  - destruct (IH ltac:(discriminate)) as (hi & Hin & Hall).
    destruct (Rle_dec hi a) as [Hle | Hgt].
    + exists a. split; [now left |]. constructor; [lra |].
      eapply Forall_impl; [| exact Hall]. intros v Hv. simpl in Hv. lra.
    + exists hi. split; [now right |]. constructor; [lra | exact Hall].
Qed.

Lemma weighted_sum_bounds (r ws : list R) (lo hi : R) :
  length ws = length r ->
  Forall (fun w => 0 < w) ws ->
  Forall (fun v => lo <= v) r -> Forall (fun v => v <= hi) r ->
  lo * Np.sum ws <= Np.sum (map (fun aw => fst aw * snd aw) (combine r ws))
  /\ Np.sum (map (fun aw => fst aw * snd aw) (combine r ws))
     <= hi * Np.sum ws.
Proof.
  revert ws. induction r as [| v r IH]; intros ws Hlen Hw Hlo Hhi.
  - destruct ws; [| discriminate]. unfold Np.sum. simpl. lra.
  - destruct ws as [| w ws]; [discriminate |].
    inversion Hw as [| ? ? Hw0 Hws]; subst.
    inversion Hlo as [| ? ? Hv1 Hlo']; subst.
    inversion Hhi as [| ? ? Hv2 Hhi']; subst.
    destruct (IH ws) as [B1 B2]; try assumption; [simpl in Hlen; lia |].
    unfold Np.sum in *. cbn [combine map fold_right fst snd]. nra.
Qed.

Lemma weighted_mean_between (r : list R) (m : R) :
  r <> [] -> Cluster.weighted_mean_of r m ->
  exists lo hi, In lo r /\ In hi r /\ lo <= m <= hi.
Proof.
  intros Hne (ws & Hlen & Hw & ->).
  destruct (list_min r Hne) as (lo & Hlo & Hall_lo).
  destruct (list_max r Hne) as (hi & Hhi & Hall_hi).
  exists lo, hi. split; [exact Hlo |]. split; [exact Hhi |].
  destruct (weighted_sum_bounds r ws lo hi Hlen Hw Hall_lo Hall_hi)
    as [H1 H2].
  assert (Hpos : 0 < Np.sum ws).
  { apply sum_pos; [| exact Hw]. destruct ws; [| discriminate].
    destruct r; [congruence | discriminate]. }
  split.
  - apply Rmult_le_reg_r with (Np.sum ws); [exact Hpos |].
    unfold Rdiv. rewrite Rmult_assoc, Rinv_l by lra. lra.
  - apply Rmult_le_reg_r with (Np.sum ws); [exact Hpos |].
    unfold Rdiv. rewrite Rmult_assoc, Rinv_l by lra. lra.
Qed.

Lemma kept_runs_in mcs mk runs means q :
  Forall2 Cluster.weighted_mean_of runs means ->
  In q (Cluster.kept_runs mcs mk runs means) ->
  exists r m, In r runs /\ Cluster.weighted_mean_of r m /\ q = mk m /\
              (mcs <= Z.of_nat (length r))%Z.
Proof.
  unfold Cluster.kept_runs.
  induction 1 as [| r m runs means Hm _ IH]; [intros [] |].
  cbn [combine flat_map fst snd]. intros Hin. apply in_app_or in Hin.
  destruct Hin as [Hin | Hin].
  - destruct (mcs <=? Z.of_nat (length r))%Z eqn:C; [| destruct Hin].
    destruct Hin as [<- | []]. exists r, m.
    split; [now left |]. split; [exact Hm |]. split; [reflexivity |].
    now apply Z.leb_le.
  - destruct (IH Hin) as (r' & m' & H1 & H2 & H3 & H4).
    exists r', m'. split; [now right | auto].
Qed.

Lemma sharing_in_cols (d : list point) (x v : R) :
  In v (Cluster.sharing (map fst d) (map snd d) x) -> In (x, v) d.
Proof.
  induction d as [| [a b] d IH]; [intros [] |].
  cbn [map fst snd]. rewrite sharing_cons.
  destruct (Reqb a x) eqn:C.
  - apply Reqb_true in C. subst a. intros [<- | H]; [now left |].
    right. now apply IH.
  - intros H. right. now apply IH.
Qed.

Lemma sharing_in_rows (d : list point) (y v : R) :
  In v (Cluster.sharing (map snd d) (map fst d) y) -> In (v, y) d.
Proof.
  induction d as [| [a b] d IH]; [intros [] |].
  cbn [map fst snd]. rewrite sharing_cons.
  destruct (Reqb b y) eqn:C.
  - apply Reqb_true in C. subst b. intros [<- | H]; [now left |].
    right. now apply IH.
  - intros H. right. now apply IH.
Qed.

(** The points one axis pass produces, for any list [ex] of axis values. *)
Lemma cluster_axis_points (axis other p : list R) (tol : R)
    (min_cluster_size : Z) (mk : R -> R -> point) (ex : list R) :
  length axis = length other -> length axis = length p ->
  Forall (fun w => 0 < w) p ->
  exists out,
    Cluster.cluster_axis axis other p tol min_cluster_size mk ex = Ok out /\
    forall q, In q out ->
      exists x r m lo hi,
        In x ex /\ q = mk x m /\ incl r (Cluster.sharing axis other x) /\
        (min_cluster_size <= Z.of_nat (length r))%Z /\
        (Cluster.close_chain tol r /\ ascending r /\
         (length r <= length axis)%nat) /\
        In lo r /\ In hi r /\ lo <= m <= hi.
Proof.
  intros Ho Hp Hpos. induction ex as [| x ex IH].
  - exists []. split; [reflexivity | intros q []].
  - destruct IH as (rest & Hrest & Hin_rest).
    destruct (cluster_value_structure axis other p tol min_cluster_size
                (mk x) x Ho Hp Hpos)
      as (runs & means & Hruns & _ & Hmeans & Hhere).
    eexists. cbn [Cluster.cluster_axis]. rewrite Hhere. cbn [bind].
    rewrite Hrest. cbn [bind]. split; [reflexivity |].
    intros q Hq. apply in_app_or in Hq. destruct Hq as [Hq | Hq].
    + destruct (kept_runs_in _ _ _ _ _ Hmeans Hq)
        as (r & m & Hr & Hm & -> & Hsize).
      destruct (Hruns r Hr) as (Hne & Hchain & Hincl & Hasc & Hlen).
      destruct (weighted_mean_between r m Hne Hm)
        as (lo & hi & Hlo & Hhi & Hbetween).
      exists x, r, m, lo, hi.
      split; [now left |]. split; [reflexivity |]. split; [exact Hincl |].
      split; [exact Hsize |].
      split; [split; [exact Hchain |]; split; [exact Hasc |];
              pose proof (sharing_le axis other x); lia |].
      split; [exact Hlo |]. split; [exact Hhi | exact Hbetween].
    + destruct (Hin_rest q Hq)
        as (x' & r & m & lo & hi & Hx & H).
      exists x', r, m, lo, hi. split; [now right | exact H].
Qed.

Lemma creaCluster_points (d : list point) (p ex ey : list R)
    (cluster_distance : R) (min_cluster_size : Z) :
  length p = length d -> Forall (fun w => 0 < w) p ->
  exists out,
    Cluster.creaCluster d p ex ey cluster_distance min_cluster_size
      = Ok out /\
    forall q, In q out ->
      (In (fst q) ex /\
       exists y1 y2, In (fst q, y1) d /\ In (fst q, y2) d /\
                     y1 <= snd q <= y2) \/
      (In (snd q) ey /\
       exists x1 x2, In (x1, snd q) d /\ In (x2, snd q) d /\
                     x1 <= fst q <= x2).
Proof.
  intros Hp Hpos. unfold Cluster.creaCluster. cbv zeta.
  destruct (cluster_axis_points (map fst d) (map snd d) p cluster_distance
              min_cluster_size (fun x media_y => (x, media_y)) ex)
    as (inx & -> & Hinx); rewrite ?length_map; auto.
  destruct (cluster_axis_points (map snd d) (map fst d) p cluster_distance
              min_cluster_size (fun y media_x => (media_x, y)) ey)
    as (iny & -> & Hiny); rewrite ?length_map; auto.
  cbn [bind]. eexists. split; [reflexivity |].
  intros q Hq. apply in_app_or in Hq. destruct Hq as [Hq | Hq].
  - left. destruct (Hinx q Hq)
      as (x & r & m & lo & hi & Hx & -> & Hincl & _ & _ & Hlo & Hhi & Hb).
    cbn [fst snd]. split; [exact Hx |]. exists lo, hi.
    split; [apply sharing_in_cols, Hincl, Hlo |].
    split; [apply sharing_in_cols, Hincl, Hhi | exact Hb].
  - right. destruct (Hiny q Hq)
      as (y & r & m & lo & hi & Hy & -> & Hincl & _ & _ & Hlo & Hhi & Hb).
    cbn [fst snd]. split; [exact Hy |]. exists lo, hi.
    split; [apply sharing_in_rows, Hincl, Hlo |].
    split; [apply sharing_in_rows, Hincl, Hhi | exact Hb].
Qed.

(** X10: With as many weights as points and every weight positive, creaCluster
    never raises. *)
Theorem creaCluster_returns (d : list point) (p ex ey : list R)
    (cluster_distance : R) (min_cluster_size : Z) :
  length p = length d -> Forall (fun w => 0 < w) p ->
  exists out,
    Cluster.creaCluster d p ex ey cluster_distance min_cluster_size = Ok out.
Proof.
  intros Hp Hpos.
  destruct (creaCluster_points d p ex ey cluster_distance min_cluster_size
              Hp Hpos) as (out & Hout & _).
  now exists out.
Qed.

Lemma creaCluster_returns_witness :
  exists out,
    Cluster.creaCluster [(100, 10); (100, 11)] [1; 1] [100] [10; 11] 3 1
      = Ok out.
Proof.
  apply (creaCluster_returns [(100, 10); (100, 11)] [1; 1] [100] [10; 11]
           3 1); [reflexivity | repeat constructor; lra].
Defined.

(** X11: Every averaged point lies between two input points: a point of the
    X pass has the X of two input points and its Y between theirs, a point
    of the Y pass has the Y of two input points and its X between
    theirs. *)
Theorem creaCluster_between_inputs (d : list point) (p ex ey : list R)
    (cluster_distance : R) (min_cluster_size : Z) (out : list point) :
  length p = length d -> Forall (fun w => 0 < w) p ->
  Cluster.creaCluster d p ex ey cluster_distance min_cluster_size = Ok out ->
  forall q, In q out ->
    (In (fst q) ex /\
     exists y1 y2, In (fst q, y1) d /\ In (fst q, y2) d /\
                   y1 <= snd q <= y2) \/
    (In (snd q) ey /\
     exists x1 x2, In (x1, snd q) d /\ In (x2, snd q) d /\
                   x1 <= fst q <= x2).
Proof.
  intros Hp Hpos Hout.
  destruct (creaCluster_points d p ex ey cluster_distance min_cluster_size
              Hp Hpos) as (out' & Hout' & H).
  rewrite Hout in Hout'. injection Hout' as <-. exact H.
Qed.

Lemma creaCluster_between_inputs_witness :
  exists out,
    Cluster.creaCluster [(100, 10); (100, 11)] [1; 1] [100] [10; 11] 3 1
      = Ok out /\
    forall q, In q out ->
      (In (fst q) [100] /\
       exists y1 y2, In (fst q, y1) [(100, 10); (100, 11)] /\
                     In (fst q, y2) [(100, 10); (100, 11)] /\
                     y1 <= snd q <= y2) \/
      (In (snd q) [10; 11] /\
       exists x1 x2, In (x1, snd q) [(100, 10); (100, 11)] /\
                     In (x2, snd q) [(100, 10); (100, 11)] /\
                     x1 <= fst q <= x2).
Proof.
  assert (Hw : Forall (fun w => 0 < w) [1; 1]) by (repeat constructor; lra).
  destruct (creaCluster_points [(100, 10); (100, 11)] [1; 1] [100] [10; 11]
              3 1 eq_refl Hw) as (out & Hout & _).
  exists out. split; [exact Hout |].
  apply (creaCluster_between_inputs [(100, 10); (100, 11)] [1; 1] [100]
           [10; 11] 3 1 out eq_refl Hw Hout).
Defined.

Lemma cluster_axis_too_small (axis other p : list R) (tol : R)
    (min_cluster_size : Z) (mk : R -> R -> point) (ex : list R) :
  length axis = length other -> length axis = length p ->
  Forall (fun w => 0 < w) p ->
  (forall r, Cluster.close_chain tol r -> ascending r ->
             (length r <= length axis)%nat ->
             (Z.of_nat (length r) < min_cluster_size)%Z) ->
  Cluster.cluster_axis axis other p tol min_cluster_size mk ex = Ok [].
Proof.
  intros Ho Hp Hpos Hsmall.
  destruct (cluster_axis_points axis other p tol min_cluster_size mk ex
              Ho Hp Hpos) as (out & -> & Hin).
  destruct out as [| q out]; [reflexivity |]. exfalso.
  destruct (Hin q ltac:(now left))
    as (x & r & m & lo & hi & _ & _ & _ & Hsize & (Hc & Ha & Hl) & _).
  specialize (Hsmall r Hc Ha Hl). lia.
Qed.

Lemma creaCluster_too_small (d : list point) (p ex ey : list R)
    (cluster_distance : R) (min_cluster_size : Z) :
  length p = length d -> Forall (fun w => 0 < w) p ->
  (forall r, Cluster.close_chain cluster_distance r -> ascending r ->
             (length r <= length d)%nat ->
             (Z.of_nat (length r) < min_cluster_size)%Z) ->
  Cluster.creaCluster d p ex ey cluster_distance min_cluster_size = Ok [].
Proof.
  intros Hp Hpos Hsmall. unfold Cluster.creaCluster. cbv zeta.
  rewrite !cluster_axis_too_small; rewrite ?length_map; auto.
Qed.

(** X12: When min_cluster_size exceeds the number of points, no cluster is large
    enough and creaCluster returns no point. *)
Theorem creaCluster_size_above_count (d : list point) (p ex ey : list R)
    (cluster_distance : R) (min_cluster_size : Z) :
  length p = length d -> Forall (fun w => 0 < w) p ->
  (Z.of_nat (length d) < min_cluster_size)%Z ->
  Cluster.creaCluster d p ex ey cluster_distance min_cluster_size = Ok [].
Proof.
  intros Hp Hpos Hbig. apply creaCluster_too_small; try assumption.
  intros r _ _ Hlen. lia.
Qed.

Lemma creaCluster_size_above_count_witness :
  Cluster.creaCluster [(100, 10); (100, 11)] [1; 1] [100] [10; 11] 3 3
    = Ok [].
Proof.
  apply (creaCluster_size_above_count [(100, 10); (100, 11)] [1; 1] [100]
           [10; 11] 3 3); [reflexivity | repeat constructor; lra |
                            simpl; lia].
Defined.

(** X13: With a negative cluster_distance no two sorted coordinates are close
    enough to share a run, so with min_cluster_size 2 or more creaCluster
    returns no point. *)
Theorem creaCluster_negative_distance (d : list point) (p ex ey : list R)
    (cluster_distance : R) (min_cluster_size : Z) :
  length p = length d -> Forall (fun w => 0 < w) p ->
  cluster_distance < 0 -> (2 <= min_cluster_size)%Z ->
  Cluster.creaCluster d p ex ey cluster_distance min_cluster_size = Ok [].
Proof.
  intros Hp Hpos Htol Hmcs. apply creaCluster_too_small; try assumption.
  intros r Hc Ha _. destruct r as [| a [| b r]]; [simpl; lia .. |].
  exfalso. apply ascending_cons in Ha. destruct Ha as [Hab _].
  destruct Hc as [Hba _]. lra.
Qed.

Lemma creaCluster_negative_distance_witness :
  Cluster.creaCluster [(100, 10); (100, 11)] [1; 1] [100] [10; 11] (-1) 2
    = Ok [].
Proof.
  apply (creaCluster_negative_distance [(100, 10); (100, 11)] [1; 1] [100]
           [10; 11] (-1) 2); [reflexivity | repeat constructor; lra |
                               lra | lia].
Defined.

(** ** [creaCluster]: the weight of a repeated point *)

Lemma sharing_app a1 a2 o1 o2 x :
  length a1 = length o1 ->
  Cluster.sharing (a1 ++ a2) (o1 ++ o2) x =
  Cluster.sharing a1 o1 x ++ Cluster.sharing a2 o2 x.
Proof.
  revert o1. induction a1 as [| v a1 IH]; intros [| o o1] Hlen;
    try discriminate; [reflexivity |].
  cbn [app]. rewrite !sharing_cons, IH by (simpl in Hlen; lia).
  now destruct (Reqb v x).
Qed.

Lemma sharing_member a1 o1 x v :
  length a1 = length o1 -> In (x, v) (combine a1 o1) ->
  In v (Cluster.sharing a1 o1 x).
Proof.
  intros _ Hin. unfold Cluster.sharing. apply in_map_iff.
  exists (x, v). split; [reflexivity |]. apply filter_In.
  split; [exact Hin |]. cbn [fst]. now apply Reqb_true.
Qed.

Lemma first_index_app_in v a b :
  In v a ->
  exists k, Np.first_index v (a ++ b) = Some k /\ (k < length a)%nat.
Proof.
  induction a as [| x a IH]; [intros [] |]. intros Hin.
  cbn [app Np.first_index].
  destruct (Reqb x v) eqn:C;
    [apply Reqb_true in C | apply Reqb_false in C].
  - exists 0%nat. split; [reflexivity | simpl; lia].
  - destruct Hin as [-> | Hin]; [congruence |].
    destruct (IH Hin) as (k & -> & Hk). exists (S k).
    split; [reflexivity | simpl; lia].
Qed.

Lemma fancy_agree a a' idx :
  (forall k, In k idx -> nth_error a k = nth_error a' k) ->
  Cluster.fancy a idx = Cluster.fancy a' idx.
Proof.
  induction idx as [| k idx IH]; intros H; [reflexivity |].
  cbn [Cluster.fancy]. unfold Cluster.item.
  rewrite (H k ltac:(now left)), IH; [reflexivity |].
  intros j Hj. apply H. now right.
Qed.

Lemma average_runs_agree orig_coord pe pe' min_cluster_size mk pos :
  (forall k, In k (concat pos) -> nth_error pe k = nth_error pe' k) ->
  Cluster.average_runs orig_coord pe min_cluster_size mk pos =
  Cluster.average_runs orig_coord pe' min_cluster_size mk pos.
Proof.
  induction pos as [| cp pos IH]; intros H; [reflexivity |].
  cbn [Cluster.average_runs].
  rewrite (fancy_agree pe pe' cp), IH; [reflexivity | |].
  - intros k Hk. apply H. cbn [concat]. apply in_or_app. now right.
  - intros k Hk. apply H. cbn [concat]. apply in_or_app. now left.
Qed.

Lemma getClusters_first coord tol c pos :
  Cluster.getClusters coord tol = Ok (c, pos) ->
  c = coord /\
  Forall (fun k => Np.first_index (nth k coord 0) coord = Some k)
         (concat pos).
Proof.
  unfold Cluster.getClusters. cbv zeta.
  destruct (Cluster.locate_all coord (Np.sort coord)
              (Cluster.split_runs tol (Np.sort coord) 0 [0%nat]))
    as [pos' |] eqn:El; [| discriminate].
  cbn [bind]. intros [= <- <-]. split; [reflexivity |].
  now destruct (locate_all_first _ _ _ _ El).
Qed.

Lemma nth_error_middle (l1 l2 : list R) (w w' : R) (k : nat) :
  k <> length l1 ->
  nth_error (l1 ++ w :: l2) k = nth_error (l1 ++ w' :: l2) k.
Proof.
  intros Hk. destruct (Nat.lt_ge_cases k (length l1)) as [Hlt | Hge].
  - now rewrite !nth_error_app1 by assumption.
  - rewrite !nth_error_app2 by assumption.
    destruct (k - length l1)%nat as [| n] eqn:E; [lia | reflexivity].
Qed.

Lemma cluster_value_repeat (a1 a2 o1 o2 p1 p2 : list R) (xa v w w' : R)
    (tol : R) (min_cluster_size : Z) (mk : R -> point) (x : R) :
  length a1 = length o1 -> length a1 = length p1 ->
  length a2 = length o2 -> length a2 = length p2 ->
  In (xa, v) (combine a1 o1) ->
  Cluster.cluster_value (a1 ++ xa :: a2) (o1 ++ v :: o2) (p1 ++ w :: p2)
                        tol min_cluster_size mk x =
  Cluster.cluster_value (a1 ++ xa :: a2) (o1 ++ v :: o2) (p1 ++ w' :: p2)
                        tol min_cluster_size mk x.
Proof.
  intros Ho1 Hp1 Ho2 Hp2 Hin.
  assert (Ho : length (a1 ++ xa :: a2) = length (o1 ++ v :: o2))
    by (rewrite !length_app; simpl; lia).
  assert (Hp : forall u, length (a1 ++ xa :: a2) = length (p1 ++ u :: p2))
    by (intros u; rewrite !length_app; simpl; lia).
  unfold Cluster.cluster_value. cbv zeta.
  pose proof (fancy_nonzero_eq (a1 ++ xa :: a2) x _ [] Ho) as E1.
  pose proof (fancy_nonzero_eq (a1 ++ xa :: a2) x _ [] (Hp w)) as E2.
  pose proof (fancy_nonzero_eq (a1 ++ xa :: a2) x _ [] (Hp w')) as E3.
  cbn [app length] in E1, E2, E3. rewrite E1, E2, E3. cbn [bind].
  destruct (2 <=? length (Cluster.sharing (a1 ++ xa :: a2)
                                          (o1 ++ v :: o2) x))%nat;
    [| reflexivity].
  destruct (Cluster.getClusters
              (Cluster.sharing (a1 ++ xa :: a2) (o1 ++ v :: o2) x) tol)
    as [[c pos] |] eqn:Eg; [| reflexivity].
  cbn [bind fst snd].
  destruct (getClusters_first _ _ _ _ Eg) as [-> Hfirst].
  rewrite !sharing_app, !sharing_cons by assumption.
  destruct (Reqb xa x) eqn:C; [| reflexivity].
  apply Reqb_true in C. subst xa.
  apply average_runs_agree. intros k Hk.
  apply nth_error_middle. intros ->.
  rewrite Forall_forall in Hfirst. specialize (Hfirst _ Hk).
  rewrite sharing_app, sharing_cons, (proj2 (Reqb_true x x) eq_refl)
    in Hfirst by assumption.
  rewrite (sharing_length a1 p1 o1 x) in Hfirst by lia.
  rewrite app_nth2, Nat.sub_diag in Hfirst by lia. cbn [nth] in Hfirst.
  destruct (first_index_app_in v (Cluster.sharing a1 o1 x)
              (v :: Cluster.sharing a2 o2 x)
              (sharing_member a1 o1 x v Ho1 Hin)) as (k' & Hk' & Hlt).
  rewrite Hk' in Hfirst. injection Hfirst as ->. lia.
Qed.

Lemma cluster_axis_repeat (a1 a2 o1 o2 p1 p2 : list R) (xa v w w' : R)
    (tol : R) (min_cluster_size : Z) (mk : R -> R -> point) (ex : list R) :
  length a1 = length o1 -> length a1 = length p1 ->
  length a2 = length o2 -> length a2 = length p2 ->
  In (xa, v) (combine a1 o1) ->
  Cluster.cluster_axis (a1 ++ xa :: a2) (o1 ++ v :: o2) (p1 ++ w :: p2)
                       tol min_cluster_size mk ex =
  Cluster.cluster_axis (a1 ++ xa :: a2) (o1 ++ v :: o2) (p1 ++ w' :: p2)
                       tol min_cluster_size mk ex.
Proof.
  intros Ho1 Hp1 Ho2 Hp2 Hin. induction ex as [| x ex IH]; [reflexivity |].
  cbn [Cluster.cluster_axis].
  now rewrite (cluster_value_repeat a1 a2 o1 o2 p1 p2 xa v w w'), IH.
Qed.

Lemma combine_fst_snd (d : list point) (pt : point) :
  In pt d -> In (fst pt, snd pt) (combine (map fst d) (map snd d)).
Proof.
  induction d as [| q d IH]; [intros [] |].
  intros [-> | Hin]; cbn [map combine]; [now left | right; now apply IH].
Qed.

Lemma combine_snd_fst (d : list point) (pt : point) :
  In pt d -> In (snd pt, fst pt) (combine (map snd d) (map fst d)).
Proof.
  induction d as [| q d IH]; [intros [] |].
  intros [-> | Hin]; cbn [map combine]; [now left | right; now apply IH].
Qed.

(** X14: When a point occurs a second time in the input, the weight given to the
    later occurrence is never used: replacing it by any other value leaves
    the result of creaCluster, error or not, unchanged. *)
Theorem creaCluster_repeat_weight_unused (d1 d2 : list point) (pt : point)
    (p1 p2 ex ey : list R) (w w' : R) (cluster_distance : R)
    (min_cluster_size : Z) :
  length p1 = length d1 -> length p2 = length d2 -> In pt d1 ->
  Cluster.creaCluster (d1 ++ pt :: d2) (p1 ++ w :: p2) ex ey
                      cluster_distance min_cluster_size =
  Cluster.creaCluster (d1 ++ pt :: d2) (p1 ++ w' :: p2) ex ey
                      cluster_distance min_cluster_size.
Proof.
  intros H1 H2 Hin. unfold Cluster.creaCluster. cbv zeta.
  rewrite !map_app. cbn [map].
  rewrite (cluster_axis_repeat (map fst d1) (map fst d2) (map snd d1)
             (map snd d2) p1 p2 (fst pt) (snd pt) w w');
    rewrite ?length_map; auto; [| now apply combine_fst_snd].
  rewrite (cluster_axis_repeat (map snd d1) (map snd d2) (map fst d1)
             (map fst d2) p1 p2 (snd pt) (fst pt) w w');
    rewrite ?length_map; auto. now apply combine_snd_fst.
Qed.

Lemma creaCluster_repeat_weight_unused_witness :
  Cluster.creaCluster ([(100, 10)] ++ (100, 10) :: [(100, 13)])
                      ([1] ++ 1 :: [1]) [100] [10; 13] 50 3 =
  Cluster.creaCluster ([(100, 10)] ++ (100, 10) :: [(100, 13)])
                      ([1] ++ 1000 :: [1]) [100] [10; 13] 50 3.
Proof.
  apply (creaCluster_repeat_weight_unused [(100, 10)] [(100, 13)] (100, 10)
           [1] [1] [100] [10; 13] 1 1000 50 3);
    [reflexivity | reflexivity | now left].
Defined.

(** ** [erfcc], [normcdf] and the symmetries of the weight matrix *)

Lemma erfcc_neg_form x :
  0 < x -> Weights.erfcc (- x) = 2 - Weights.erfcc x.
Proof.
  intros Hx. unfold Weights.erfcc. cbv zeta.
  rewrite Rabs_Ropp.
  rewrite (proj2 (Rleb_false 0 (- x))) by lra.
  rewrite (proj2 (Rleb_true 0 x)) by lra. reflexivity.
Qed.

Lemma erfcc_range_nonneg x : 0 <= x -> 0 < Weights.erfcc x < 2.
Proof.
  intros Hx. split; [now apply erfcc_pos |].
  pose proof (erfcc_le_0 x Hx) as Hle. rewrite erfcc_0 in Hle.
  pose proof exp_small_lt_2. lra.
Qed.

Lemma erfcc_range_all x : 0 < Weights.erfcc x < 2.
Proof.
  destruct (Rle_dec 0 x) as [Hx | Hx]; [now apply erfcc_range_nonneg |].
  replace x with (- - x) by lra. rewrite erfcc_neg_form by lra.
  pose proof (erfcc_range_nonneg (- x) ltac:(lra)). lra.
Qed.

(** X15: erfcc takes values strictly between 0 and 2, satisfies
    erfcc(-x) = 2 - erfcc(x) for x > 0, is strictly decreasing on x >= 0,
    and at 0 is exp(3e-8), not 1. *)
Theorem erfcc_profile (x y : R) :
  0 < Weights.erfcc x < 2 /\
  (0 < x -> Weights.erfcc (- x) = 2 - Weights.erfcc x) /\
  (0 <= x -> x < y -> Weights.erfcc y < Weights.erfcc x) /\
  Weights.erfcc 0 = exp (3 / 100000000).
Proof.
  split; [apply erfcc_range_all |]. split; [apply erfcc_neg_form |].
  split; [apply erfcc_decreasing | apply erfcc_0].
Qed.

Lemma normcdf_unclamped x mu sigma :
  Weights.normcdf x mu sigma =
  0.5 * Weights.erfcc (- (x - mu) / (sigma * sqrt 2)).
Proof.
  unfold Weights.normcdf. cbv zeta.
  pose proof (erfcc_range_all (- (x - mu) / (sigma * sqrt 2))).
  rewrite (proj2 (Rltb_false 1 (0.5 * Weights.erfcc
                                        (- (x - mu) / (sigma * sqrt 2)))))
    by lra.
  reflexivity.
Qed.

(** X16: For a positive sigma, normcdf lies strictly between 0 and 1, so its
    clamp at 1 never acts; the values at mu + t and mu - t add up to 1 for
    t <> 0; at the mean it is exp(3e-8)/2, above one half; and it is
    strictly increasing up to the mean. *)
Theorem normcdf_profile (x x' mu sigma t : R) :
  0 < sigma ->
  0 < Weights.normcdf x mu sigma < 1 /\
  (t <> 0 ->
   Weights.normcdf (mu + t) mu sigma + Weights.normcdf (mu - t) mu sigma
   = 1) /\
  Weights.normcdf mu mu sigma = exp (3 / 100000000) / 2 /\
  (x < x' -> x' <= mu ->
   Weights.normcdf x mu sigma < Weights.normcdf x' mu sigma).
Proof.
  intros Hs. pose proof sqrt2_pos as H2.
  assert (Hd : 0 < sigma * sqrt 2) by now apply Rmult_lt_0_compat.
  rewrite !normcdf_unclamped. split; [| split; [| split]].
  - pose proof (erfcc_range_all (- (x - mu) / (sigma * sqrt 2))). lra.
  - intros Ht.
    replace (- (mu + t - mu) / (sigma * sqrt 2))
      with (- (t / (sigma * sqrt 2))) by (field; lra).
    replace (- (mu - t - mu) / (sigma * sqrt 2))
      with (t / (sigma * sqrt 2)) by (field; lra).
    destruct (Rtotal_order t 0) as [Hneg | [Hz | Hpos]]; [| lra |].
    + assert (Hq : 0 < - (t / (sigma * sqrt 2))).
      { replace (- (t / (sigma * sqrt 2))) with ((- t) / (sigma * sqrt 2))
          by (field; lra).
        apply Rdiv_lt_0_compat; lra. }
      pose proof (erfcc_neg_form _ Hq) as E.
      rewrite Ropp_involutive in E. rewrite E. lra.
    + assert (Hq : 0 < t / (sigma * sqrt 2))
        by (apply Rdiv_lt_0_compat; lra).
      rewrite (erfcc_neg_form _ Hq). lra.
  - replace (- (mu - mu) / (sigma * sqrt 2)) with 0 by (field; lra).
    rewrite erfcc_0. lra.
  - intros Hlt Hle.
    assert (Ha : 0 <= - (x' - mu) / (sigma * sqrt 2)).
    { apply Rle_mult_inv_pos; lra. }
    assert (Hb : - (x' - mu) / (sigma * sqrt 2)
                 < - (x - mu) / (sigma * sqrt 2)).
    { apply Rmult_lt_compat_r; [apply Rinv_0_lt_compat; lra | lra]. }
    pose proof (erfcc_decreasing _ _ Ha Hb). lra.
Qed.

Lemma normcdf_profile_witness :
  0 < Weights.normcdf (-1) 0 3 < 1.
Proof.
  apply (normcdf_profile (-1) 0 0 3 1). lra.
Defined.

Lemma centre_dist_swap n i j :
  Weights.centre_dist n i j = Weights.centre_dist n j i.
Proof. unfold Weights.centre_dist. f_equal. ring. Qed.

Lemma centre_dist_mirror n i j :
  (i < n)%nat ->
  Weights.centre_dist n (n - 1 - i) j = Weights.centre_dist n i j.
Proof.
  intros Hi. unfold Weights.centre_dist. f_equal.
  rewrite !minus_INR by lia. simpl. lra.
Qed.

(** X17: The weight matrix equals its transpose and its mirror images: for
    in-range i and j the entries (i, j), (j, i), (n-1-i, j) and (i, n-1-j)
    are equal, so the order of the two indices in a lookup does not
    matter. *)
Theorem computeWeights_symmetries (kernel ppp i j : nat) :
  (i < kernel * ppp)%nat -> (j < kernel * ppp)%nat ->
  let n := (kernel * ppp)%nat in
  let p := Weights.computeWeights kernel ppp in
  Weights.cell p j i = Weights.cell p i j /\
  Weights.cell p (n - 1 - i) j = Weights.cell p i j /\
  Weights.cell p i (n - 1 - j) = Weights.cell p i j.
Proof.
  intros Hi Hj n p. unfold p, n.
  rewrite !computeWeights_dist by lia.
  split; [now rewrite centre_dist_swap |]. split.
  - now rewrite centre_dist_mirror.
  - rewrite (centre_dist_swap _ i (kernel * ppp - 1 - j)),
      centre_dist_mirror by assumption.
    now rewrite centre_dist_swap.
Qed.

Lemma computeWeights_symmetries_witness :
  Weights.cell (Weights.computeWeights 3 4) 5 2 =
  Weights.cell (Weights.computeWeights 3 4) 2 5.
Proof.
  apply (computeWeights_symmetries 3 4 2 5); simpl; lia.
Defined.

(** ** [escribeCoords] and [extractPoints]: what reaches the file *)

Lemma index_in_range n k r : Np.index n k = Ok r -> (r < n)%nat.
Proof.
  unfold Np.index.
  destruct ((0 <=? k) && (k <? Z.of_nat n))%Z eqn:C1.
  - intros [= <-]. apply andb_true_iff in C1. destruct C1 as [H1 H2].
    apply Z.leb_le in H1. apply Z.ltb_lt in H2. lia.
  - destruct ((- Z.of_nat n <=? k) && (k <? 0))%Z eqn:C2; [| discriminate].
    intros [= <-]. apply andb_true_iff in C2. destruct C2 as [H1 H2].
    apply Z.leb_le in H1. apply Z.ltb_lt in H2. lia.
Qed.

Lemma get2_in_range m i j w :
  Np.get2 m i j = Ok w ->
  exists a b, (a < length m)%nat /\ (b < length (nth a m []))%nat /\
              w = Weights.cell m a b.
Proof.
  unfold Np.get2.
  destruct (Np.index (length m) i) as [r |] eqn:Er; [| discriminate].
  cbn [bind].
  destruct (Np.index (length (nth r m [])) j) as [c |] eqn:Ec;
    [| discriminate].
  cbn [bind]. intros [= <-]. exists r, c.
  split; [now apply index_in_range in Er |].
  split; [now apply index_in_range in Ec | reflexivity].
Qed.

Lemma get2_weight_pos kernel ppp i j w :
  Np.get2 (Weights.computeWeights kernel ppp) i j = Ok w -> 0 < w.
Proof.
  intros H. destruct (get2_in_range _ _ _ _ H) as (a & b & Ha & Hb & ->).
  rewrite computeWeights_rows in Ha.
  rewrite computeWeights_cols in Hb by assumption.
  rewrite computeWeights_cell by assumption. apply weight_at_pos.
Qed.

(** Whatever happens, escribeCoords only appends records, and each carries
    a weight read from the matrix. *)
Lemma escribeCoords_appends kernel ppp x y xmin ymax resol_orig resol
    fil col k output_file :
  exists extra,
    fst (Extract.escribeCoords x y xmin ymax resol_orig resol
           (Weights.computeWeights kernel ppp) fil col k output_file)
    = output_file ++ extra /\
    Forall (fun rec : line => 0 < snd rec) extra.
Proof.
  revert y output_file. induction x as [| xi xs IH]; intros y output_file.
  - exists []. rewrite app_nil_r. split; [reflexivity | constructor].
  - destruct y as [| yi ys].
    + exists []. rewrite app_nil_r. split; [reflexivity | constructor].
    + cbn [Extract.escribeCoords]. cbv zeta.
      destruct (Reqb resol 0).
      * exists []. rewrite app_nil_r. split; [reflexivity | constructor].
      * destruct (Np.get2 (Weights.computeWeights kernel ppp)
                          (Np.py_int (xi / resol)) (Np.py_int (yi / resol)))
          as [peso |] eqn:Eg.
        -- destruct (IH ys (output_file ++
                [(xmin + IZR (Z.of_nat col - Np.py_int (INR k / 2))
                           * resol_orig + xi,
                  ymax - IZR (Z.of_nat fil - Np.py_int (INR k / 2))
                           * resol_orig - yi, peso)]))
             as (extra & -> & Hall).
           eexists. rewrite <- app_assoc. split; [reflexivity |].
           constructor; [| exact Hall]. cbn [snd].
           now apply get2_weight_pos in Eg.
        -- exists []. rewrite app_nil_r. split; [reflexivity | constructor].
Qed.

Section SceneFacts.

Variable coeffs : Type.
Variable polyval2d : R -> R -> coeffs -> R.
Variable kernel_fit : nat -> nat -> Extract.pixel_fit coeffs.

Local Abbreviation extractPoints :=
  (Extract.extractPoints coeffs polyval2d kernel_fit).
Local Abbreviation process_pixel :=
  (Extract.process_pixel coeffs polyval2d kernel_fit).
Local Abbreviation scan_columns :=
  (Extract.scan_columns coeffs polyval2d kernel_fit).
Local Abbreviation scan_rows :=
  (Extract.scan_rows coeffs polyval2d kernel_fit).

Lemma process_pixel_appends minX maxY resol_orig resol kernel ppp k nf nc
    file :
  exists extra,
    fst (process_pixel minX maxY resol_orig resol
           (Weights.computeWeights kernel ppp) k nf nc file)
    = file ++ extra /\ positive_weights extra.
Proof.
  unfold Extract.process_pixel.
  assert (Hnil : exists extra : list line,
             file = file ++ extra /\ positive_weights extra).
  { exists []. rewrite app_nil_r. split; [reflexivity | constructor]. }
  destruct (Extract.fit_v coeffs (kernel_fit nf nc)) as [v |];
    [| exact Hnil].
  destruct (length v =? 0)%nat; [exact Hnil |].
  destruct (Extract.mejor_curva_pendiente3 coeffs polyval2d v _ _ _ resol)
    as [indice |]; [| exact Hnil].
  destruct (indice =? -1)%Z; [exact Hnil |].
  destruct (Np.index (length v) indice) as [q |]; [| exact Hnil].
  apply escribeCoords_appends.
Qed.

Lemma scan_columns_appends pl_data minX maxY resol_orig resol kernel ppp k f
    cs wp file :
  exists wp' extra res,
    scan_columns pl_data minX maxY resol_orig resol
      (Weights.computeWeights kernel ppp) k f cs (wp, file)
    = ((wp', file ++ extra), res) /\
    positive_weights extra /\
    (wp = true -> wp' = true) /\
    (wp' = false -> extra = []) /\
    (wp' = false -> res = Ok tt ->
     forall c, In c cs -> Extract.white pl_data f c = false).
Proof.
  revert wp file. induction cs as [| c cs IH]; intros wp file.
  - exists wp, [], (Ok tt). rewrite app_nil_r.
    split; [reflexivity |]. split; [constructor |]. split; [auto |].
    split; [reflexivity |]. intros _ _ c [].
  - cbn [Extract.scan_columns].
    destruct (Extract.mask_at pl_data f c) as [valor | e] eqn:Em.
    + apply mask_at_value in Em.
      destruct (valor =? 255)%Z eqn:Ew.
      * cbn [snd].
        destruct (process_pixel_appends minX maxY resol_orig resol kernel
                    ppp k f c file) as (e1 & He1 & Hp1).
        destruct (process_pixel minX maxY resol_orig resol
                    (Weights.computeWeights kernel ppp) k f c file)
          as [file' [[] | e]]; cbn [fst] in He1; subst file'.
        -- destruct (IH true (file ++ e1))
             as (wp' & e2 & res & -> & Hp2 & Htrue & _).
           exists wp', (e1 ++ e2), res. rewrite app_assoc.
           split; [reflexivity |]. split; [now apply Forall_app |].
           split; [intros _; now apply Htrue |].
           split; intros Hf; rewrite (Htrue eq_refl) in Hf; discriminate.
        -- exists true, e1, (Raise e). split; [reflexivity |].
           split; [exact Hp1 |]. split; [auto |].
           split; discriminate.
      * destruct (IH wp file)
          as (wp' & e2 & res & -> & Hp2 & Htrue & Hnil & Hfalse).
        exists wp', e2, res. split; [reflexivity |]. split; [exact Hp2 |].
        split; [exact Htrue |]. split; [exact Hnil |].
        intros Hf Hres c' [<- | Hc'].
        -- unfold Extract.white. now rewrite Em.
        -- now apply Hfalse.
    + exists wp, [], (Raise e). rewrite app_nil_r.
      split; [reflexivity |]. split; [constructor |]. split; [auto |].
      split; [reflexivity | discriminate].
Qed.

Lemma scan_rows_appends pl_data minX maxY resol_orig resol kernel ppp k fs
    cs wp file :
  exists wp' extra res,
    scan_rows pl_data minX maxY resol_orig resol
      (Weights.computeWeights kernel ppp) k fs cs (wp, file)
    = ((wp', file ++ extra), res) /\
    positive_weights extra /\
    (wp = true -> wp' = true) /\
    (wp' = false -> extra = []) /\
    (wp' = false -> res = Ok tt ->
       forall f c, In f fs -> In c cs ->
                   Extract.white pl_data f c = false).
Proof.
  revert wp file. induction fs as [| f fs IH]; intros wp file.
  - exists wp, [], (Ok tt). rewrite app_nil_r.
    split; [reflexivity |]. split; [constructor |]. split; [auto |].
    split; [reflexivity |]. intros _ _ f c [].
  - cbn [Extract.scan_rows].
    destruct (scan_columns_appends pl_data minX maxY resol_orig resol kernel
                ppp k f cs wp file)
      as (wp1 & e1 & res1 & -> & Hp1 & Ht1 & Hn1 & Hf1).
    destruct res1 as [[] | e].
    + destruct (IH wp1 (file ++ e1))
        as (wp' & e2 & res & -> & Hp2 & Ht2 & Hn2 & Hf2).
      assert (Hwp1 : wp' = false -> wp1 = false).
      { intros Hf. destruct wp1; [| reflexivity].
        rewrite (Ht2 eq_refl) in Hf. discriminate. }
      exists wp', (e1 ++ e2), res. rewrite app_assoc.
      split; [reflexivity |]. split; [now apply Forall_app |].
      split; [auto |]. split.
      * intros Hf. now rewrite (Hn1 (Hwp1 Hf)), (Hn2 Hf).
      * intros Hf Hres f' c [<- | Hf'] Hc.
        -- now apply (Hf1 (Hwp1 Hf) eq_refl).
        -- now apply (Hf2 Hf Hres).
    + exists wp1, e1, (Raise e). split; [reflexivity |].
      split; [exact Hp1 |]. split; [exact Ht1 |].
      split; [exact Hn1 | discriminate].
Qed.

(** X18: Every record extractPoints writes carries a positive weight, whether
    the scan ends or raises.  So averagePoints, run on the written file,
    never fails in the clustering (no zero weight sum, no index out of
    range): it raises only when the file is empty, an IndexError, and
    returns the averaged points otherwise. *)
Theorem extractPoints_then_averagePoints (pl_data : list (list Z))
    (rows columns : nat) (minXimage maxYimage resol_orig : R)
    (kernel ppp : nat) (cluster_distance : R) (min_cluster_size : Z) :
  (0 < ppp)%nat ->
  let file_coord :=
    fst (extractPoints pl_data rows columns minXimage maxYimage resol_orig
           kernel ppp) in
  Forall (fun rec : line => 0 < snd rec) file_coord /\
  (file_coord = [] ->
   Files.averagePoints file_coord cluster_distance min_cluster_size
   = Raise IndexError) /\
  (file_coord <> [] ->
   exists medias,
     Files.averagePoints file_coord cluster_distance min_cluster_size
     = Ok medias).
Proof.
  intros _. cbv zeta.
  assert (Hpos : positive_weights
            (fst (extractPoints pl_data rows columns minXimage maxYimage
                    resol_orig kernel ppp))).
  { unfold Extract.extractPoints. cbv zeta.
    destruct (scan_rows_appends pl_data minXimage maxYimage resol_orig
                (resol_orig / INR ppp) kernel ppp kernel
                (Extract.range 10 (rows - 10))
                (Extract.range 10 (columns - 10)) false [])
      as (wp' & extra & res & -> & Hp & _).
    destruct res; exact Hp. }
  set (file := fst (extractPoints pl_data rows columns minXimage maxYimage
                      resol_orig kernel ppp)) in *.
  split; [exact Hpos |]. split; [intros ->; reflexivity |].
  intros Hne.
  destruct (creaCluster_points (map fst file) (map snd file)
              (Np.unique (map fst (map fst file)))
              (Np.unique (map snd (map fst file)))
              cluster_distance min_cluster_size) as (out & Hout & _).
  - now rewrite !length_map.
  - unfold positive_weights in Hpos. rewrite Forall_forall in Hpos.
    apply Forall_forall. intros w Hw. apply in_map_iff in Hw.
    destruct Hw as (rec & <- & Hrec). now apply Hpos.
  - exists out. destruct file as [| rec file']; [congruence |].
    exact Hout.
Qed.

(** X19: When extractPoints returns false it has written nothing and no pixel
    inside the margin is a rough-line pixel; this holds for any fit. *)
Theorem extractPoints_false_empty (pl_data : list (list Z))
    (rows columns : nat) (minXimage maxYimage resol_orig : R)
    (kernel ppp : nat) (file_coord : list line) :
  (0 < ppp)%nat ->
  extractPoints pl_data rows columns minXimage maxYimage resol_orig
                kernel ppp = (file_coord, Ok false) ->
  file_coord = [] /\
  forall f c, Extract.inside rows columns f c ->
              Extract.white pl_data f c = false.
Proof.
  unfold Extract.extractPoints. cbv zeta.
  destruct (scan_rows_appends pl_data minXimage maxYimage resol_orig
              (resol_orig / INR ppp) kernel ppp kernel
              (Extract.range 10 (rows - 10))
              (Extract.range 10 (columns - 10)) false [])
    as (wp' & extra & res & -> & _ & _ & Hnil & Hfalse).
  intros _. destruct res as [[] | e]; [| discriminate].
  intros [= <- Hwp].
  assert (Hw : wp' = false) by (now destruct wp').
  rewrite (Hnil Hw).
  split; [reflexivity |]. intros f c [Hf Hc].
  apply (Hfalse Hw eq_refl); apply in_range; assumption.
Qed.

(** X20: With at least one point per pixel, a scene of at most 20 rows or at
    most 20 columns has no pixel inside the margin: extractPoints writes
    nothing and returns false, whatever the mask and the fit. *)
Theorem extractPoints_small_scene (pl_data : list (list Z))
    (rows columns : nat) (minXimage maxYimage resol_orig : R)
    (kernel ppp : nat) :
  (0 < ppp)%nat -> (rows <= 20)%nat \/ (columns <= 20)%nat ->
  extractPoints pl_data rows columns minXimage maxYimage resol_orig
                kernel ppp = ([], Ok false).
Proof.
  intros _ Hsmall. unfold Extract.extractPoints. cbv zeta.
  destruct (scan_rows_appends pl_data minXimage maxYimage resol_orig
              (resol_orig / INR ppp) kernel ppp kernel
              (Extract.range 10 (rows - 10))
              (Extract.range 10 (columns - 10)) false [])
    as (wp' & extra & res & E & _).
  assert (Hscan : scan_rows pl_data minXimage maxYimage resol_orig
                    (resol_orig / INR ppp)
                    (Weights.computeWeights kernel ppp) kernel
                    (Extract.range 10 (rows - 10))
                    (Extract.range 10 (columns - 10)) (false, [])
                  = ((false, []), Ok tt)).
  { clear E. destruct Hsmall as [Hr | Hc].
    - unfold Extract.range at 1.
      replace (rows - 10 - 10)%nat with 0%nat by lia. reflexivity.
    - unfold Extract.range at 2.
      replace (columns - 10 - 10)%nat with 0%nat by lia.
      cbn [seq]. induction (Extract.range 10 (rows - 10)) as [| f fs IH];
        [reflexivity |].
      cbn [Extract.scan_rows Extract.scan_columns]. exact IH. }
  rewrite Hscan. reflexivity.
Qed.

Lemma scan_columns_mask m1 m2 minX maxY resol_orig resol wm k f cs st :
  (forall c, In c cs -> Extract.mask_at m1 f c = Ok (nth c (nth f m1 []) 0%Z)
                        /\ Extract.mask_at m2 f c
                           = Ok (nth c (nth f m2 []) 0%Z)
                        /\ Extract.white m1 f c = Extract.white m2 f c) ->
  scan_columns m1 minX maxY resol_orig resol wm k f cs st
  = scan_columns m2 minX maxY resol_orig resol wm k f cs st.
Proof.
  revert st. induction cs as [| c cs IH]; intros st Hm; [reflexivity |].
  cbn [Extract.scan_columns].
  destruct (Hm c (or_introl eq_refl)) as (-> & -> & Hc).
  unfold Extract.white in Hc. rewrite Hc.
  destruct (nth c (nth f m2 []) 0 =? 255)%Z.
  - destruct (process_pixel minX maxY resol_orig resol wm k f c (snd st))
      as [file' [[] | e]]; [| reflexivity].
    apply IH. intros c' Hc'. apply Hm. now right.
  - apply IH. intros c' Hc'. apply Hm. now right.
Qed.

Lemma scan_rows_mask m1 m2 minX maxY resol_orig resol wm k fs cs st :
  (forall f c, In f fs -> In c cs ->
     Extract.mask_at m1 f c = Ok (nth c (nth f m1 []) 0%Z)
     /\ Extract.mask_at m2 f c = Ok (nth c (nth f m2 []) 0%Z)
     /\ Extract.white m1 f c = Extract.white m2 f c) ->
  scan_rows m1 minX maxY resol_orig resol wm k fs cs st
  = scan_rows m2 minX maxY resol_orig resol wm k fs cs st.
Proof.
  revert st. induction fs as [| f fs IH]; intros st Hm; [reflexivity |].
  cbn [Extract.scan_rows].
  rewrite (scan_columns_mask m1 m2)
    by (intros c Hc; apply Hm; [now left | exact Hc]).
  destruct (scan_columns m2 minX maxY resol_orig resol wm k f cs st)
    as [st' [[] | e]]; [| reflexivity].
  apply IH. intros f' c Hf' Hc. apply Hm; [now right | exact Hc].
Qed.

(** X21: extractPoints never looks at the mask in the 10-pixel margin: two
    masks of the band's shape that mark the same pixels inside the margin
    give the same records, the same flag and the same exception. *)
Theorem extractPoints_margin_ignored (m1 m2 : list (list Z))
    (rows columns : nat) (minXimage maxYimage resol_orig : R)
    (kernel ppp : nat) :
  Extract.mask_shape rows columns m1 ->
  Extract.mask_shape rows columns m2 ->
  (forall f c, Extract.inside rows columns f c ->
               Extract.white m1 f c = Extract.white m2 f c) ->
  extractPoints m1 rows columns minXimage maxYimage resol_orig kernel ppp
  = extractPoints m2 rows columns minXimage maxYimage resol_orig kernel ppp.
Proof.
  intros Hs1 Hs2 Hm. unfold Extract.extractPoints. cbv zeta.
  rewrite (scan_rows_mask m1 m2); [reflexivity |].
  intros f c Hf Hc. apply in_range in Hf, Hc.
  split; [apply (mask_at_shape rows columns); [exact Hs1 | lia | lia] |].
  split; [apply (mask_at_shape rows columns); [exact Hs2 | lia | lia] |].
  apply Hm. unfold Extract.inside. auto.
Qed.

End SceneFacts.

Lemma extractPoints_false_empty_witness :
  (@nil line) = [] /\
  forall f c, Extract.inside 21 21 f c ->
              Extract.white dark_mask f c = false.
Proof.
  apply (extractPoints_false_empty unit unit_slope one_vertex_fit dark_mask
           21 21 0 0 20 3 4 []); [lia |].
  reflexivity.
Defined.

Lemma extractPoints_small_scene_witness :
  Extract.extractPoints unit unit_slope one_vertex_fit lone_pixel_mask
    20 100 0 0 20 3 4 = ([], Ok false).
Proof.
  apply (extractPoints_small_scene unit unit_slope one_vertex_fit
           lone_pixel_mask 20 100 0 0 20 3 4); [lia |].
  left. lia.
Defined.

Lemma extractPoints_margin_ignored_witness :
  Extract.extractPoints unit unit_slope one_vertex_fit dark_mask
    21 21 0 0 20 3 4
  = Extract.extractPoints unit unit_slope one_vertex_fit corner_pixel_mask
      21 21 0 0 20 3 4.
Proof.
  apply (extractPoints_margin_ignored unit unit_slope one_vertex_fit
           dark_mask corner_pixel_mask 21 21 0 0 20 3 4).
  - split; [reflexivity |]. unfold dark_mask. repeat constructor.
  - split; [reflexivity |]. unfold corner_pixel_mask. repeat constructor.
  - intros f c [Hf Hc].
    assert (Ef : f = 10%nat) by lia. assert (Ec : c = 10%nat) by lia.
    subst f c. reflexivity.
Defined.

Lemma extractPoints_then_averagePoints_witness :
  fst (Extract.extractPoints unit unit_slope no_contour_fit lone_pixel_mask
         21 21 0 0 20 3 4) = [] /\
  Files.averagePoints
    (fst (Extract.extractPoints unit unit_slope no_contour_fit
            lone_pixel_mask 21 21 0 0 20 3 4)) 5 2 = Raise IndexError /\
  exists medias,
    Files.averagePoints
      (fst (Extract.extractPoints unit unit_slope one_vertex_fit
              lone_pixel_mask 21 21 0 0 20 3 4)) 5 2 = Ok medias.
Proof.
  assert (E : fst (Extract.extractPoints unit unit_slope no_contour_fit
                     lone_pixel_mask 21 21 0 0 20 3 4) = [])
    by reflexivity.
  split; [exact E |]. split.
  - apply (extractPoints_then_averagePoints unit unit_slope no_contour_fit
             lone_pixel_mask 21 21 0 0 20 3 4 5 2); [lia | exact E].
  - apply (extractPoints_then_averagePoints unit unit_slope one_vertex_fit
             lone_pixel_mask 21 21 0 0 20 3 4 5 2); [lia |].
    destruct (extractPoints_outcome unit unit_slope one_vertex_fit
                lone_pixel_mask 21 21 0 0 20 3 4 lone_pixel_mask_shape
                twenty_over_four)
      as (file_coord & flag & E' & _ & Hfile).
    + intros f c v [= <-]. constructor; [| constructor].
      split; [discriminate |]. constructor; [| constructor].
      unfold Extract.on_grid. simpl. lra.
    + rewrite E'. cbn [fst]. apply Hfile. exists 10%nat, 10%nat.
      split; [apply centre_inside |]. split; reflexivity.
Defined.

(** ** Coefficient matrices: [deriva] and the Laplacian *)

Lemma times_factors_length row k :
  length (Fit.times_factors row k) = length row.
Proof.
  revert k. induction row as [| r row IH]; intros k; [reflexivity |].
  cbn [Fit.times_factors length]. now rewrite IH.
Qed.

Lemma scale_rows_length nm k : length (Fit.scale_rows nm k) = length nm.
Proof.
  revert k. induction nm as [| row nm IH]; intros k; [reflexivity |].
  cbn [Fit.scale_rows length]. now rewrite IH.
Qed.

Lemma scale_rows_cols c nm k :
  Forall (fun row => length row = c) nm ->
  Forall (fun row => length row = c) (Fit.scale_rows nm k).
Proof.
  intros H. revert k. induction H as [| row nm Hrow _ IH]; intros k.
  - constructor.
  - cbn [Fit.scale_rows]. constructor; [| apply IH].
    now rewrite length_map.
Qed.

Lemma axis_x_not_y : String.eqb AxisName.x AxisName.y = false.
Proof. reflexivity. Qed.

Lemma deriva_x m :
  Fit.deriva m AxisName.x
  = Some (map (fun row => row ++ [0])
              (map (fun row => Fit.times_factors (tl row) 1) m)).
Proof. reflexivity. Qed.

Lemma deriva_y m :
  Fit.deriva m AxisName.y
  = Some (Fit.scale_rows (tl m) 1 ++ [repeat 0 (length (hd [] m))]).
Proof. reflexivity. Qed.

Lemma deriva_x_shape f c m :
  Fit.rectangular f c m -> (0 < c)%nat ->
  Fit.rectangular f c
    (map (fun row => row ++ [0])
         (map (fun row => Fit.times_factors (tl row) 1) m)).
Proof.
  intros [Hf Hc] Hpos. split; [now rewrite !length_map |].
  rewrite map_map. apply Forall_map.
  eapply Forall_impl; [| exact Hc]. cbv beta. intros row Hrow.
  rewrite length_app, times_factors_length. cbn [length].
  destruct row as [| r row]; cbn [tl length] in *; lia.
Qed.

Lemma deriva_y_shape f c m :
  Fit.rectangular f c m -> (0 < f)%nat ->
  Fit.rectangular f c
    (Fit.scale_rows (tl m) 1 ++ [repeat 0 (length (hd [] m))]).
Proof.
  intros [Hf Hc] Hpos. destruct m as [| row m]; cbn [length] in Hf;
    [lia |].
  inversion Hc as [| ? ? Hrow Hrest]; subst. cbn [tl hd]. split.
  - rewrite length_app, scale_rows_length. cbn [length]. lia.
  - apply Forall_app. split; [now apply scale_rows_cols |].
    constructor; [apply repeat_length | constructor].
Qed.

(** X22: deriva keeps the shape of a matrix that has at least one row and one
    column, for both axis names; for any other axis name it returns
    nothing at all. *)
Theorem deriva_shape (f c : nat) (m : Np.matrix) (axis : String.string) :
  Fit.rectangular f c m -> (0 < f)%nat -> (0 < c)%nat ->
  match Fit.deriva m axis with
  | Some nm => Fit.rectangular f c nm /\
               (axis = AxisName.x \/ axis = AxisName.y)
  | None => axis <> AxisName.x /\ axis <> AxisName.y
  end.
Proof.
  intros Hm Hf Hc. unfold Fit.deriva. cbv zeta.
  destruct (String.eqb axis AxisName.x) eqn:Ex.
  - apply String.eqb_eq in Ex. split; [| now left].
    now apply deriva_x_shape.
  - destruct (String.eqb axis AxisName.y) eqn:Ey.
    + apply String.eqb_eq in Ey. split; [| now right].
      now apply deriva_y_shape.
    + apply String.eqb_neq in Ex, Ey. split; assumption.
Qed.

Lemma deriva_shape_witness :
  Fit.rectangular 2 2 [[5; 3]; [2; 4]] /\
  Fit.deriva [[5; 3]; [2; 4]] AxisName.z = None /\
  match Fit.deriva [[5; 3]; [2; 4]] AxisName.y with
  | Some nm => Fit.rectangular 2 2 nm /\
               (AxisName.y = AxisName.x \/ AxisName.y = AxisName.y)
  | None => AxisName.y <> AxisName.x /\ AxisName.y <> AxisName.y
  end.
Proof.
  assert (H : Fit.rectangular 2 2 [[5; 3]; [2; 4]]).
  { split; [reflexivity |]. repeat constructor. }
  split; [exact H |]. split; [reflexivity |].
  apply (deriva_shape 2 2 [[5; 3]; [2; 4]] AxisName.y H); lia.
Defined.

Lemma horner_app_zero l t :
  Weights.horner (l ++ [0]) t = Weights.horner l t.
Proof.
  induction l as [| a l IH]; cbn [app Weights.horner]; [ring |].
  now rewrite IH.
Qed.

Lemma horner_times_factors cs k t :
  Weights.horner (Fit.times_factors cs k) t
  = INR k * Weights.horner cs t + t * Weights.horner_deriv cs t.
Proof.
  revert k. induction cs as [| c cs IH]; intros k.
  - cbn [Fit.times_factors Weights.horner Weights.horner_deriv]. ring.
  - cbn [Fit.times_factors Weights.horner Weights.horner_deriv].
    rewrite IH, S_INR. ring.
Qed.

Lemma horner_shift cs t :
  Weights.horner (Fit.times_factors (tl cs) 1 ++ [0]) t
  = Weights.horner_deriv cs t.
Proof.
  rewrite horner_app_zero, horner_times_factors.
  destruct cs as [| c cs]; cbn [tl Weights.horner Weights.horner_deriv INR];
    ring.
Qed.

Lemma horner_scaled row k v :
  Weights.horner (map (fun r => r * INR k) row) v
  = Weights.horner row v * INR k.
Proof.
  induction row as [| r row IH]; cbn [map Weights.horner]; [ring |].
  rewrite IH. ring.
Qed.

Lemma horner_zeros c v : Weights.horner (repeat 0 c) v = 0.
Proof.
  induction c as [| c IH]; cbn [repeat Weights.horner]; [reflexivity |].
  rewrite IH. ring.
Qed.

Lemma scale_rows_values nm k v :
  map (fun row => Weights.horner row v) (Fit.scale_rows nm k)
  = Fit.times_factors (map (fun row => Weights.horner row v) nm) k.
Proof.
  revert k. induction nm as [| row nm IH]; intros k; [reflexivity |].
  cbn [Fit.scale_rows map Fit.times_factors].
  now rewrite horner_scaled, IH.
Qed.

Lemma eval_cons row m u v :
  Fit.eval (row :: m) u v = Weights.horner row v + u * Fit.eval m u v.
Proof. reflexivity. Qed.

Lemma eval_deriva_x m u v :
  Fit.eval (map (fun row => row ++ [0])
                (map (fun row => Fit.times_factors (tl row) 1) m)) u v
  = Weights.horner (map (fun row => Weights.horner_deriv row v) m) u.
Proof.
  induction m as [| row m IH]; [reflexivity |].
  cbn [map]. rewrite eval_cons, IH, horner_shift. reflexivity.
Qed.

Lemma eval_deriva_y m u v :
  Fit.eval (Fit.scale_rows (tl m) 1 ++ [repeat 0 (length (hd [] m))]) u v
  = Weights.horner_deriv (map (fun row => Weights.horner row v) m) u.
Proof.
  unfold Fit.eval.
  rewrite map_app, scale_rows_values. cbn [map].
  rewrite horner_zeros, <- (horner_shift _ u).
  now destruct m.
Qed.

Lemma eval_lim_columns m u v :
  derivable_pt_lim (fun t => Fit.eval m u t) v
    (Weights.horner (map (fun row => Weights.horner_deriv row v) m) u).
Proof.
  induction m as [| row m IH].
  - apply (derivable_pt_lim_const 0).
  - cbn [map Weights.horner].
    change (fun t => Fit.eval (row :: m) u t)
      with (Weights.horner row + mult_real_fct u (fun t => Fit.eval m u t))%F.
    apply derivable_pt_lim_plus; [apply horner_lim |].
    apply derivable_pt_lim_scal. exact IH.
Qed.

(** X23: deriva is differentiation of the polynomial the matrix stands for,
    with entry (i, j) the coefficient of u^i v^j: axis 'x' differentiates in
    the variable of the column index and axis 'y' in the variable of the
    row index, at every point and for every matrix. *)
Theorem deriva_is_derivative (m : Np.matrix) (u v : R) :
  exists dx dy,
    Fit.deriva m AxisName.x = Some dx /\
    Fit.deriva m AxisName.y = Some dy /\
    derivable_pt_lim (fun t => Fit.eval m u t) v (Fit.eval dx u v) /\
    derivable_pt_lim (fun t => Fit.eval m t v) u (Fit.eval dy u v).
Proof.
  eexists. eexists.
  split; [apply deriva_x |]. split; [apply deriva_y |]. split.
  - rewrite eval_deriva_x. apply eval_lim_columns.
  - rewrite eval_deriva_y. apply horner_lim.
Qed.

Lemma horner_add_rows r1 r2 v :
  length r1 = length r2 ->
  Weights.horner (Fit.add_rows r1 r2) v
  = Weights.horner r1 v + Weights.horner r2 v.
Proof.
  revert r2. induction r1 as [| a r1 IH]; intros [| b r2] H;
    try discriminate.
  - cbn. ring.
  - unfold Fit.add_rows in *. cbn [combine map Weights.horner fst snd].
    rewrite IH by (cbn [length] in H; lia). ring.
Qed.

Lemma eval_add f c m1 m2 u v :
  Fit.rectangular f c m1 -> Fit.rectangular f c m2 ->
  Fit.eval (Fit.add m1 m2) u v = Fit.eval m1 u v + Fit.eval m2 u v.
Proof.
  intros [H1 F1] [H2 F2]. subst f. revert m2 H2 F2.
  induction F1 as [| r1 m1 Hr1 _ IH]; intros [| r2 m2] H2 F2;
    try discriminate.
  - unfold Fit.eval. cbn. ring.
  - inversion F2 as [| ? ? Hr2 F2']; subst.
    unfold Fit.add in *. cbn [combine map fst snd].
    rewrite !eval_cons, IH by (cbn [length] in H2; auto; lia).
    rewrite horner_add_rows by congruence. ring.
Qed.

Lemma add_shape f c m1 m2 :
  Fit.rectangular f c m1 -> Fit.rectangular f c m2 ->
  Fit.rectangular f c (Fit.add m1 m2).
Proof.
  intros [H1 F1] [H2 F2]. subst f. revert m2 H2 F2.
  induction F1 as [| r1 m1 Hr1 _ IH]; intros [| r2 m2] H2 F2;
    try discriminate.
  - split; [reflexivity | constructor].
  - inversion F2 as [| ? ? Hr2 F2']; subst.
    destruct (IH m2) as [IH1 IH2]; [cbn [length] in H2; lia | exact F2' |].
    unfold Fit.add in *. cbn [combine map fst snd]. split.
    + cbn [length]. now rewrite IH1.
    + constructor; [| exact IH2].
      unfold Fit.add_rows. rewrite length_map, length_combine. lia.
Qed.

(** X24: The Laplacian matrix extractPoints builds from a fit with at least one
    row and one column has the shape of the fit, and the polynomial it
    stands for is the sum of the two pure second derivatives of the fitted
    polynomial. *)
Theorem laplaciano_sum_of_second_derivatives (f c : nat) (m : Np.matrix) :
  Fit.rectangular f c m -> (0 < f)%nat -> (0 < c)%nat ->
  exists lap dx d2x dy d2y,
    Fit.laplaciano m = Some lap /\ Fit.rectangular f c lap /\
    forall u v,
      derivable_pt_lim (fun t => Fit.eval m u t) v (Fit.eval dx u v) /\
      derivable_pt_lim (fun t => Fit.eval dx u t) v (Fit.eval d2x u v) /\
      derivable_pt_lim (fun t => Fit.eval m t v) u (Fit.eval dy u v) /\
      derivable_pt_lim (fun t => Fit.eval dy t v) u (Fit.eval d2y u v) /\
      Fit.eval lap u v = Fit.eval d2x u v + Fit.eval d2y u v.
Proof.
  intros Hm Hf Hc.
  set (dx := map (fun row => row ++ [0])
                 (map (fun row => Fit.times_factors (tl row) 1) m)).
  set (d2x := map (fun row => row ++ [0])
                  (map (fun row => Fit.times_factors (tl row) 1) dx)).
  set (dy := Fit.scale_rows (tl m) 1 ++ [repeat 0 (length (hd [] m))]).
  set (d2y := Fit.scale_rows (tl dy) 1 ++ [repeat 0 (length (hd [] dy))]).
  assert (Sdx : Fit.rectangular f c dx) by now apply deriva_x_shape.
  assert (Sd2x : Fit.rectangular f c d2x) by now apply deriva_x_shape.
  assert (Sdy : Fit.rectangular f c dy) by now apply deriva_y_shape.
  assert (Sd2y : Fit.rectangular f c d2y) by now apply deriva_y_shape.
  exists (Fit.add d2x d2y), dx, d2x, dy, d2y.
  split; [reflexivity |]. split; [now apply add_shape |].
  intros u v.
  split; [unfold dx; rewrite eval_deriva_x; apply eval_lim_columns |].
  split; [unfold d2x; rewrite eval_deriva_x; apply eval_lim_columns |].
  split; [unfold dy; rewrite eval_deriva_y; apply horner_lim |].
  split; [unfold d2y; rewrite eval_deriva_y; apply horner_lim |].
  now apply (eval_add f c).
Qed.

Lemma laplaciano_sum_of_second_derivatives_witness :
  exists lap,
    Fit.laplaciano [[0; 0; 1]; [0; 0; 0]; [1; 0; 0]] = Some lap /\
    Fit.rectangular 3 3 lap /\ forall u v, Fit.eval lap u v = 4.
Proof.
  destruct (laplaciano_sum_of_second_derivatives 3 3
              [[0; 0; 1]; [0; 0; 0]; [1; 0; 0]])
    as (lap & dx & d2x & dy & d2y & E & S & _).
  - split; [reflexivity |]. repeat constructor.
  - lia.
  - lia.
  - exists lap. split; [exact E |]. split; [exact S |].
    intros u v. cbv in E. assert (E' := f_equal (fun o => match o with
      Some l => Fit.eval l u v | None => 0 end) E). cbv beta iota in E'.
    rewrite <- E'. unfold Fit.eval. cbn. lra.
Defined.

(** ** The resampled grid: [createData] *)

Lemma ceil_half (n : nat) : Fit.ceil (INR n - 1 / 2) = Z.of_nat n.
Proof.
  unfold Fit.ceil.
  assert (H : Int_part (- (INR n - 1 / 2)) = (- Z.of_nat n)%Z).
  { symmetry. apply Int_part_spec. rewrite opp_IZR, <- INR_IZR_INZ.
    split; lra. }
  rewrite H. lia.
Qed.

Lemma py_int_INR (n : nat) : Np.py_int (INR n) = Z.of_nat n.
Proof.
  unfold Np.py_int. rewrite (proj2 (Rleb_true 0 (INR n)) (pos_INR n)).
  symmetry. apply Int_part_spec. rewrite <- INR_IZR_INZ. split; lra.
Qed.

Lemma arange_centres (n : nat) (resol : R) :
  resol <> 0 ->
  Fit.arange (resol - resol / 2) (INR n * resol) resol
  = map (fun k => (INR k + 1 / 2) * resol) (seq 0 n).
Proof.
  intros Hr. unfold Fit.arange.
  replace ((INR n * resol - (resol - resol / 2)) / resol)
    with (INR n - 1 / 2) by (field; exact Hr).
  rewrite ceil_half, Nat2Z.id. apply map_ext. intros k. lra.
Qed.

Lemma concat_length_square (A : Type) (c : nat) (m : list (list A)) :
  Forall (fun row => length row = c) m ->
  length (concat m) = (length m * c)%nat.
Proof.
  induction 1 as [| row m Hrow _ IH]; [reflexivity |].
  cbn [concat length]. rewrite length_app, IH, Hrow. lia.
Qed.

Lemma nth_concat (A : Type) (d : A) (c : nat) (m : list (list A)) i j :
  Forall (fun row => length row = c) m ->
  (i < length m)%nat -> (j < c)%nat ->
  nth (i * c + j) (concat m) d = nth j (nth i m []) d.
Proof.
  intros H. revert i. induction H as [| row m Hrow _ IH]; intros i Hi Hj.
  - cbn [length] in Hi. lia.
  - cbn [concat]. destruct i as [| i].
    + cbn [Nat.mul Nat.add nth]. apply app_nth1. lia.
    + cbn [nth]. rewrite app_nth2 by (rewrite Hrow; cbn [Nat.mul]; lia).
      replace (S i * c + j - length row)%nat with (i * c + j)%nat
        by (rewrite Hrow; cbn [Nat.mul]; lia).
      apply IH; [cbn [length] in Hi; lia | exact Hj].
Qed.

Lemma sqrt_square_count (n : nat) : sqrt (INR (n * n)) = INR n.
Proof. rewrite mult_INR. apply sqrt_square. apply pos_INR. Qed.

(** X25: For a resampled kernel of n by n values and a non-zero resolution,
    createData returns three arrays of n*n values in row-major order: at
    position i*n + j the x value is the centre (j + 1/2) * resol of column
    j, the y value is the centre (i + 1/2) * resol of row i, and the z
    value is the image value at row i, column j. *)
Theorem createData_pixel_centres (n : nat) (image : Np.matrix) (resol : R) :
  Fit.rectangular n n image -> resol <> 0 ->
  exists x y z,
    Fit.createData image resol = (x, y, z) /\
    length x = (n * n)%nat /\ length y = (n * n)%nat /\
    length z = (n * n)%nat /\
    forall i j, (i < n)%nat -> (j < n)%nat ->
      nth (i * n + j) x 0 = (INR j + 1 / 2) * resol /\
      nth (i * n + j) y 0 = (INR i + 1 / 2) * resol /\
      nth (i * n + j) z 0 = Weights.cell image i j.
Proof.
  intros [Hn Hrows] Hr. unfold Fit.createData. cbv zeta.
  assert (Hz : length (concat image) = (n * n)%nat).
  { rewrite (concat_length_square _ n) by exact Hrows. now rewrite Hn. }
  rewrite Hz, sqrt_square_count, py_int_INR, <- INR_IZR_INZ.
  rewrite arange_centres by exact Hr.
  set (xs := map (fun k => (INR k + 1 / 2) * resol) (seq 0 n)).
  assert (Lxs : length xs = n).
  { unfold xs. now rewrite length_map, length_seq. }
  assert (Nxs : forall k, (k < n)%nat ->
                          nth k xs 0 = (INR k + 1 / 2) * resol).
  { intros k Hk. unfold xs.
    rewrite (nth_indep _ 0 ((INR 0 + 1 / 2) * resol))
      by (rewrite length_map, length_seq; exact Hk).
    rewrite (map_nth (fun k => (INR k + 1 / 2) * resol)).
    now rewrite seq_nth. }
  assert (Rx : Forall (fun row : list R => length row = n)
                      (map (fun _ : R => xs) xs)).
  { apply Forall_map. apply Forall_forall. intros ? _. exact Lxs. }
  assert (Ry : Forall (fun row : list R => length row = n)
                      (map (fun yv : R => map (fun _ : R => yv) xs) xs)).
  { apply Forall_map. apply Forall_forall. intros ? _.
    now rewrite length_map. }
  eexists. eexists. eexists. split; [reflexivity |].
  split; [rewrite (concat_length_square _ n) by exact Rx;
          now rewrite length_map, Lxs |].
  split; [rewrite flat_map_concat_map,
            (concat_length_square _ n) by exact Ry;
          now rewrite length_map, Lxs |].
  split; [exact Hz |].
  intros i j Hi Hj. split; [| split].
  - rewrite (nth_concat _ 0 n) by (rewrite ?length_map, ?Lxs; auto).
    rewrite (nth_indep _ [] xs) by (now rewrite length_map, Lxs).
    rewrite (map_nth (fun _ : R => xs) xs 0 i). now apply Nxs.
  - rewrite flat_map_concat_map.
    rewrite (nth_concat _ 0 n) by (rewrite ?length_map, ?Lxs; auto).
    rewrite (nth_indep _ [] (map (fun _ : R => 0) xs))
      by (now rewrite length_map, Lxs).
    rewrite (map_nth (fun yv : R => map (fun _ : R => yv) xs) xs 0 i).
    rewrite (nth_indep _ 0 ((fun _ : R => nth i xs 0) 0))
      by (now rewrite length_map, Lxs).
    rewrite (map_nth (fun _ : R => nth i xs 0) xs 0 j). now apply Nxs.
  - unfold Weights.cell. apply nth_concat; [exact Hrows | lia | exact Hj].
Qed.

Lemma createData_pixel_centres_witness :
  exists x y z,
    Fit.createData [[7; 8]; [9; 6]] 5 = (x, y, z) /\
    nth 2 x 0 = (INR 0 + 1 / 2) * 5 /\
    nth 2 y 0 = (INR 1 + 1 / 2) * 5 /\
    nth 2 z 0 = 9.
Proof.
  destruct (createData_pixel_centres 2 [[7; 8]; [9; 6]] 5)
    as (x & y & z & E & _ & _ & _ & H).
  - split; [reflexivity |]. repeat constructor.
  - lra.
  - exists x, y, z. split; [exact E |].
    destruct (H 1%nat 0%nat) as (Hx & Hy & Hz); [lia | lia |].
    cbn [Nat.mul Nat.add] in Hx, Hy, Hz.
    split; [exact Hx |]. split; [exact Hy |]. exact Hz.
Defined.

(** ** Cluster colours and the clock: [getColors], [endClock] *)

Lemma range_step_length stop step l :
  (0 < step)%Z -> (0 <= stop)%Z ->
  Misc.range_step stop step = Ok l ->
  Z.of_nat (length l) = ((stop + step - 1) / step)%Z.
Proof.
  intros Hs Hstop. unfold Misc.range_step.
  destruct (step =? 0)%Z eqn:E0; [apply Z.eqb_eq in E0; lia |].
  destruct (0 <? step)%Z eqn:E1; [| apply Z.ltb_ge in E1; lia].
  intros [= <-]. rewrite length_map, length_seq.
  apply Z2Nat.id. apply Z.div_pos; lia.
Qed.

Lemma small_palette (nc : Z) :
  (1 <= nc <= 16)%Z ->
  ((255 + (Z.quot 255 nc + 1) - 1) / (Z.quot 255 nc + 1))%Z = nc.
Proof.
  intros H.
  assert (C : (nc = 1 \/ nc = 2 \/ nc = 3 \/ nc = 4 \/ nc = 5 \/ nc = 6 \/
               nc = 7 \/ nc = 8 \/ nc = 9 \/ nc = 10 \/ nc = 11 \/
               nc = 12 \/ nc = 13 \/ nc = 14 \/ nc = 15 \/ nc = 16)%Z)
    by lia.
  repeat (destruct C as [-> | C]; [reflexivity |]). now subst nc.
Qed.

Lemma getColors_values (nc : Z) :
  (1 <= nc)%Z ->
  exists colors,
    Misc.getColors nc = Ok colors /\
    (1 <= Z.of_nat (length colors) <= nc)%Z /\
    (nc <= 16 -> Z.of_nat (length colors) = nc)%Z /\
    forall k, (k < length colors)%nat ->
      nth k colors 0%Z = (Z.of_nat k * (Z.quot 255 nc + 1))%Z /\
      (0 <= nth k colors 0 < 255)%Z.
Proof.
  intros Hnc. unfold Misc.getColors.
  destruct (nc =? 0)%Z eqn:E0; [apply Z.eqb_eq in E0; lia |].
  cbv zeta. set (q := Z.quot 255 nc).
  assert (Hq : (0 <= q)%Z) by (apply Z.quot_pos; lia).
  assert (Hdiv : (255 = nc * q + Z.rem 255 nc)%Z)
    by (apply Z.quot_rem'; lia).
  assert (Hrem : (0 <= Z.rem 255 nc < nc)%Z)
    by (apply Z.rem_bound_pos; lia).
  set (len := ((255 + (q + 1) - 1) / (q + 1))%Z).
  assert (Hlen : (1 <= len <= nc)%Z).
  { unfold len. split.
    - apply Z.div_le_lower_bound; lia.
    - apply Z.lt_succ_r. apply Z.div_lt_upper_bound; nia. }
  assert (Hlast : ((len - 1) * (q + 1) < 255)%Z).
  { unfold len.
    assert (M := Z.mul_div_le (255 + (q + 1) - 1) (q + 1) ltac:(lia)).
    nia. }
  unfold Misc.range_step.
  destruct (q + 1 =? 0)%Z eqn:E1; [apply Z.eqb_eq in E1; lia |].
  destruct (0 <? q + 1)%Z eqn:E2; [| apply Z.ltb_ge in E2; lia].
  eexists. split; [reflexivity |].
  rewrite length_map, length_seq. fold len.
  rewrite Z2Nat.id by lia.
  split; [exact Hlen |].
  split; [intros H16; unfold len, q; apply small_palette; lia |].
  intros k Hk.
  assert (Hk' : (Z.of_nat k < len)%Z) by lia.
  rewrite (nth_indep _ 0%Z ((fun k => (Z.of_nat k * (q + 1))%Z) 0%nat))
    by (rewrite length_map, length_seq; exact Hk).
  rewrite (map_nth (fun k => (Z.of_nat k * (q + 1))%Z)).
  rewrite seq_nth by exact Hk. cbn [Nat.add].
  split; [reflexivity | nia].
Qed.

(** X26: For at least one cluster getColors returns at least one and at most nc
    colours, exactly nc when nc is at most 16: the k-th is
    k * (int(255/nc) + 1), so they start at 0, grow strictly and stay below
    255. *)
Theorem getColors_palette (nc : Z) :
  (1 <= nc)%Z ->
  exists colors,
    Misc.getColors nc = Ok colors /\
    (1 <= Z.of_nat (length colors) <= nc)%Z /\
    (nc <= 16 -> Z.of_nat (length colors) = nc)%Z /\
    forall k, (k < length colors)%nat ->
      nth k colors 0%Z = (Z.of_nat k * (Z.quot 255 nc + 1))%Z /\
      (0 <= nth k colors 0 < 255)%Z.
Proof. apply getColors_values. Qed.

Lemma getColors_palette_witness :
  Misc.getColors 3 = Ok [0; 86; 172]%Z.
Proof.
  destruct (getColors_palette 3 ltac:(lia)) as (colors & E & _).
  rewrite E. vm_compute in E. symmetry. exact E.
Defined.

(** X27: getColors never returns a usable palette for a count that is not
    positive: it raises ZeroDivisionError for no cluster, returns all of
    0..254 for a count below -255, raises ValueError (a zero range step)
    for a count from -255 to -128, and returns no colour for a count from
    -127 to -1. *)
Theorem getColors_degenerate (nc : Z) :
  (nc <= 0)%Z ->
  Misc.getColors nc =
    if (nc =? 0)%Z then Raise ZeroDivisionError
    else if (nc <? -255)%Z then Ok (map Z.of_nat (seq 0 255))
    else if (nc <? -127)%Z then Raise ValueError
    else Ok [].
Proof.
  intros Hnc. unfold Misc.getColors.
  destruct (nc =? 0)%Z eqn:E0; [reflexivity |].
  apply Z.eqb_neq in E0. cbv zeta. unfold Misc.range_step.
  assert (Hq : (Z.quot 255 nc = - Z.quot 255 (- nc))%Z).
  { rewrite <- (Z.opp_involutive nc) at 1. rewrite Z.quot_opp_r by lia.
    reflexivity. }
  destruct (nc <? -255)%Z eqn:Ea.
  - apply Z.ltb_lt in Ea.
    assert (E1 : Z.quot 255 (- nc) = 0%Z) by (apply Z.quot_small; lia).
    rewrite Hq, E1. vm_compute. reflexivity.
  - apply Z.ltb_ge in Ea. destruct (nc <? -127)%Z eqn:Eb.
    + apply Z.ltb_lt in Eb.
      assert (E1 : Z.quot 255 (- nc) = 1%Z).
      { symmetry. apply (Z.quot_unique 255 (- nc) 1 (255 + nc)); lia. }
      rewrite Hq, E1. reflexivity.
    + apply Z.ltb_ge in Eb.
      assert (H2 : (2 <= Z.quot 255 (- nc))%Z)
        by (apply Z.quot_le_lower_bound; lia).
      destruct (Z.quot 255 nc + 1 =? 0)%Z eqn:E1;
        [apply Z.eqb_eq in E1; lia |].
      destruct (0 <? Z.quot 255 nc + 1)%Z eqn:E2;
        [apply Z.ltb_lt in E2; lia | reflexivity].
Qed.

Lemma getColors_degenerate_witness :
  Misc.getColors (-200) = Raise ValueError.
Proof.
  rewrite (getColors_degenerate (-200)) by lia. reflexivity.
Defined.

(** X28: The hours, minutes and seconds endClock logs recompose to the elapsed
    seconds, with minutes and seconds between 0 and 59; for a negative
    elapsed time the hours are negative. *)
Theorem endClock_recomposes (t_sec : Z) :
  let '(t_hour, t_min, t_s) := Misc.endClock t_sec in
  (3600 * t_hour + 60 * t_min + t_s = t_sec)%Z /\
  (0 <= t_min < 60)%Z /\ (0 <= t_s < 60)%Z /\
  (t_sec < 0 -> t_hour < 0)%Z.
Proof.
  unfold Misc.endClock. cbv zeta.
  assert (H1 := Z.div_mod t_sec 60 ltac:(lia)).
  assert (H2 := Z.div_mod (t_sec / 60) 60 ltac:(lia)).
  assert (B1 := Z.mod_pos_bound t_sec 60 ltac:(lia)).
  assert (B2 := Z.mod_pos_bound (t_sec / 60) 60 ltac:(lia)).
  repeat split; try lia.
Qed.

(** ** Worked instances *)

Lemma turning_angle_reverse_witness :
  Angle.turning_angle (1, 1) (1, 0) (0, 0)
  = 360 - Angle.turning_angle (0, 0) (1, 0) (1, 1).
Proof.
  apply (proj2 (turning_angle_reverse (0, 0) (1, 0) (1, 1))).
  rewrite (quarter_cw_angle (0, 0) (1, 0) (1, 1)); [lra |].
  split; [intros E; inversion E; lra |].
  exists 1. cbn [fst snd]. repeat split; lra.
Defined.

Lemma cleanPointsByAngle_points_witness :
  Clean.cleanPointsByAngle [1; 0]%nat [(0, 0); (1, 0)] None
  = Some [(1, 0); (0, 0)] /\
  incl [(1, 0); (0, 0)] [(0, 0); (1, 0)] /\
  Clean.cleanPointsByAngle [2]%nat [(0, 0); (1, 0)] None = None.
Proof.
  assert (E : Clean.cleanPointsByAngle [1; 0]%nat [(0, 0); (1, 0)] None
              = Some [(1, 0); (0, 0)]) by reflexivity.
  destruct (cleanPointsByAngle_points [1; 0]%nat [(0, 0); (1, 0)] None)
    as [H1 _].
  destruct (cleanPointsByAngle_points [2]%nat [(0, 0); (1, 0)] None)
    as [_ H2].
  split; [exact E |]. split.
  - apply (H1 _ E).
  - apply H2. constructor. cbn [length]. lia.
Defined.

Lemma cleanPoints2_independent_witness :
  Clean.cleanPoints2 one_triangle tree_path
    ([small_group] ++ [[]; small_group]) ([7%Z] ++ [3%Z; 8%Z]) None
  = Clean.cleanPoints2 one_triangle tree_path [small_group] [7%Z] None ++
    Clean.cleanPoints2 one_triangle tree_path [small_group] [8%Z] None.
Proof.
  destruct (cleanPoints2_independent one_triangle tree_path
              [small_group] [[]; small_group] [7%Z] [3%Z; 8%Z] [] 3%Z None)
    as [H1 _].
  destruct (cleanPoints2_independent one_triangle tree_path
              [] [small_group] [] [8%Z] [] 3%Z None)
    as [_ H2].
  rewrite H1 by reflexivity. rewrite H2 by (now left). reflexivity.
Defined.

Lemma cleanPoints2_entries_witness :
  exists k group,
    nth_error [small_group] k = Some group /\
    nth_error [7%Z] k = Some 7%Z /\
    incl [(0, 1); (0, 0); (1, 0)] group.
Proof.
  destruct (cleanPoints2_entries one_triangle tree_path [small_group]
              [7%Z] None) as [_ H].
  destruct (H [(0, 1); (0, 0); (1, 0)] 7%Z) as (k & group & H1 & H2 & H3 & _).
  - left. reflexivity.
  - exists k, group. split; [exact H1 |]. split; [exact H2 | exact H3].
Defined.

Lemma erfcc_profile_witness :
  Weights.erfcc 2 < Weights.erfcc 1 /\
  Weights.erfcc (- 1) = 2 - Weights.erfcc 1.
Proof.
  destruct (erfcc_profile 1 2) as (_ & Hneg & Hdec & _).
  split; [apply Hdec; lra | apply Hneg; lra].
Defined.

Lemma endClock_recomposes_witness :
  Misc.endClock (-3725) = (-2, 57, 55)%Z /\ (-2 < 0)%Z.
Proof.
  split; [reflexivity |].
  assert (H := endClock_recomposes (-3725)%Z).
  change (Misc.endClock (-3725)) with (-2, 57, 55)%Z in H. cbv beta iota in H.
  apply H. lia.
Defined.
